(** * Mindmap text parser, serializer and layout engine

    A shallow embedding of [mindmap-parser] (parseTextToTree, treeToText,
    calculateLayout, getSubtreeHeight, flattenPositions, getBoundingBox,
    countNodes) and of the renderer's root test, with the properties the
    specification states about them.

    The second part covers more of the code: [getMaxDepth], the
    renderer's labels, connections, zoom and fit, the editor's store, its
    parse effect and its share link, with properties read off the code.

    Conventions of the embedding:
    - a JavaScript string is the list of its UTF-16 code units ([str]);
    - a JavaScript [number] that the layout computes is an exact rational
      ([Q]): every value is built from integer constants by [+], [-],
      [max] and halving, which IEEE doubles perform without rounding as
      long as the dyadic result fits their 53-bit significand.  In exact
      arithmetic cursors, leaf rows and subtree bottoms are integers; the
      [y] of a parent is not: it gains a binary place with each level of
      nesting, and from 48 nested levels on the doubles round it.  What is
      said of a parent's [y] is therefore stated over [layoutNodeIn], the
      same layout in an arbitrary arithmetic, of which the doubles of the
      engine ([doubles]) and the rationals ([exact]) are instances;
    - a [TypeError] (reading a property of [undefined]) is [None] in the
      [option] monad, so that "never throws" is a theorem and not a
      convention;
    - the parser's node objects live in an explicit heap, because the code
      keeps each node reachable both from the ancestor stack and from its
      parent's [children] array and mutates it through the stack. *)

From Stdlib Require Import QArith Qminmax Lqa Lia.
From Stdlib Require Import Ascii String.
From Stdlib Require Floats.
From stdpp Require Import base option list sorting.

#[local] Set Warnings "-register-all".

(** ** Strings *)

Definition char := N.
Definition str := list char.

(** An ASCII literal as a JavaScript string. *)
Definition lit (s : string) : str := N_of_ascii <$> list_ascii_of_string s.

(** The line feed, the separator of [text.split('\n')]. *)
Definition LF : char := 10%N.

(** ECMAScript's WhiteSpace and LineTerminator code points: what
    [String.prototype.trim] strips and what [\s] matches. *)
Definition isWhiteSpace (c : char) : bool :=
  bool_decide (c ∈ [9; 10; 11; 12; 13; 32; 160; 5760; 8232; 8233; 8239; 8287;
                    12288; 65279]%N)
  || ((8192 <=? c)%N && (c <=? 8202)%N).

Fixpoint takeWhile {A} (f : A → bool) (l : list A) : list A :=
  match l with
  | [] => []
  | a :: l' => if f a then a :: takeWhile f l' else []
  end.

Fixpoint dropWhile {A} (f : A → bool) (l : list A) : list A :=
  match l with
  | [] => []
  | a :: l' => if f a then dropWhile f l' else l
  end.

(** [s.trim()] *)
Definition trim (s : str) : str :=
  reverse (dropWhile isWhiteSpace (reverse (dropWhile isWhiteSpace s))).

(** [s.split(sep)] for a one-character separator: never empty, and a
    string without the separator is its own single piece. *)
Fixpoint split (sep : char) (s : str) : list str :=
  match s with
  | [] => [[]]
  | c :: s' =>
      if bool_decide (c = sep) then [] :: split sep s'
      else match split sep s' with
           | piece :: pieces => (c :: piece) :: pieces
           | [] => [[c]]
           end
  end.

(** [parts.join(sep)] *)
Fixpoint join (sep : str) (parts : list str) : str :=
  match parts with
  | [] => []
  | [p] => p
  | p :: rest => p ++ sep ++ join sep rest
  end.

(** ['  '.repeat(level)] *)
Definition indentOf (level : nat) : str := concat (replicate level (lit "  ")).

(** ** Data model

    Field names are those of the source, with a prefix per record ([n_] for
    nodes, [pl_] for parsed lines, [p_] for positions) since two of the
    records have a [children] field. *)

(** [MindmapNode]: [{ id, text, children, collapsed? }]. *)
Inductive MindmapNode : Type := mkNode {
  n_id : str;
  n_text : str;
  n_children : list MindmapNode;
  n_collapsed : option bool
}.

(** [ParsedLine]: [{ text, level, lineNumber }]. *)
Record ParsedLine : Type := mkLine {
  pl_text : str;
  pl_level : nat;
  pl_lineNumber : nat
}.

(** [NodePosition]: [{ node, x, y, width, height, children }]. *)
Inductive NodePosition : Type := mkPos {
  p_node : MindmapNode;
  p_x : Q;
  p_y : Q;
  p_width : Q;
  p_height : Q;
  p_children : list NodePosition
}.

(** ** Parser *)

(** The body of [lines.forEach((line, index) => ...)]: a blank line is
    skipped, any other line contributes its trimmed text, half its count
    of leading white space (rounded down) and its 1-based line number. *)
Definition leadingSpaces (line : str) : nat := length (takeWhile isWhiteSpace line).

Fixpoint parseLinesFrom (index : nat) (lines : list str) : list ParsedLine :=
  match lines with
  | [] => []
  | line :: rest =>
      if decide (trim line = []) then parseLinesFrom (S index) rest
      else {| pl_text := trim line;
              pl_level := leadingSpaces line / 2;
              pl_lineNumber := index + 1 |} :: parseLinesFrom (S index) rest
  end.

Definition parseLines (text : str) : list ParsedLine :=
  parseLinesFrom 0 (split LF text).

(** Node objects under construction.  An address is the position of the
    object in the heap, which is also its allocation rank. *)
Abbreviation addr := nat (only parsing).

Record obj : Type := mkObj {
  o_id : str;
  o_text : str;
  o_children : list addr
}.

Abbreviation heap := (list obj) (only parsing).

(** An entry of the ancestor stack: [{ node, level }]. *)
Record entry : Type := mkEntry {
  e_node : addr;
  e_level : nat
}.

(** The tree that a reference denotes once construction is over.  The fuel
    bounds the depth of the traversal. *)
Fixpoint reify (fuel : nat) (h : heap) (a : addr) : option MindmapNode :=
  match fuel with
  | 0 => None
  | S fuel' =>
      o ← h !! a;
      cs ← mapM (reify fuel' h) (o_children o);
      Some (mkNode (o_id o) (o_text o) cs None)
  end.

(** [while (stack.length > 1 && stack[stack.length - 1].level >= level)
    stack.pop()].  The stack is kept with its top, [stack[stack.length - 1]],
    at the head of the list; the root entry [stack[0]] is the last element. *)
Fixpoint popWhile (level : nat) (stack : list entry) : list entry :=
  match stack with
  | top :: (_ :: _) as rest =>
      if decide (level ≤ e_level top) then popWhile level rest else stack
  | _ => stack
  end.

Section Parser.

(** [generateId()] reads the clock and a random source; [generateId k] is
    the string its call number [k] (counted from 0 within one parse)
    returned.  Exactly one call precedes each allocation, so [k] is also
    the number of nodes allocated before. *)
Variable generateId : nat → str.

Definition newObj (h : heap) (text : str) : obj :=
  {| o_id := generateId (length h); o_text := text; o_children := [] |}.

(** One iteration of [for (let i = 1; i < parsedLines.length; i++)]: the
    new node is allocated, the stack is popped, the node on top gets the
    new node appended to its [children], and the new node is pushed. *)
Definition step (st : heap * list entry) (line : ParsedLine)
  : option (heap * list entry) :=
  let '(h, stack) := st in
  let newNode := length h in
  let h1 := h ++ [newObj h (pl_text line)] in
  let stack1 := popWhile (pl_level line) stack in
  top ← head stack1;
  parent ← h1 !! e_node top;
  let h2 := <[e_node top :=
               {| o_id := o_id parent; o_text := o_text parent;
                  o_children := o_children parent ++ [newNode] |}]> h1 in
  Some (h2, {| e_node := newNode; e_level := pl_level line |} :: stack1).

Fixpoint run (st : heap * list entry) (lines : list ParsedLine)
  : option (heap * list entry) :=
  match lines with
  | [] => Some st
  | line :: rest => st' ← step st line; run st' rest
  end.

(** [const root = {...}] and [const stack = [{ node: root, level }]]: the
    root is the first object allocated. *)
Definition root : addr := 0.

Definition initial (first : ParsedLine) : heap * list entry :=
  ([newObj [] (pl_text first)], [{| e_node := root; e_level := pl_level first |}]).

(** [parseTextToTree(text)].  The value returned is the tree reachable from
    [root] in the final heap. *)
Definition parseTextToTree (text : str) : option MindmapNode :=
  let parsedLines := parseLines text in
  if decide (length parsedLines = 0) then
    Some (mkNode (generateId 0) (lit "Empty Mindmap") [] None)
  else
    first ← parsedLines !! 0;
    st ← run (initial first) (drop 1 parsedLines);
    reify (length st.1) st.1 root.

(** The attachment rule of the specification, as a relation between the
    state before and after one line: the entries [popped] off the top all
    have a level at least the line's; [parent], the entry then on top, is
    the root entry or has a smaller level; the new object is appended to
    [parent]'s children and pushed with the line's level; nothing else
    changes. *)
Definition attachRule (line : ParsedLine) (h : heap) (stack : list entry)
    (h' : heap) (stack' : list entry) : Prop :=
  ∃ popped parent kept o,
    stack = popped ++ parent :: kept ∧
    Forall (λ e, pl_level line ≤ e_level e) popped ∧
    (kept = [] ∨ e_level parent < pl_level line) ∧
    stack' = {| e_node := length h; e_level := pl_level line |} :: parent :: kept ∧
    h !! e_node parent = Some o ∧
    h' !! e_node parent
      = Some (mkObj (o_id o) (o_text o) (o_children o ++ [length h])) ∧
    h' !! length h = Some (mkObj (generateId (length h)) (pl_text line) []) ∧
    length h' = S (length h) ∧
    (∀ a, a ≠ e_node parent → a < length h → h' !! a = h !! a) ∧
    ((∀ e, e ∈ removelast stack → pl_level line ≤ e_level e) →
     kept = [] ∧ e_node parent = root).

End Parser.

(** ** Serializer *)

(** [treeToText(node, level = 0)] *)
Fixpoint treeToText (node : MindmapNode) (level : nat) : str :=
  let result := indentOf level ++ n_text node in
  match n_children node with
  | [] => result
  | _ :: _ =>
      result ++ [LF] ++
      join [LF] (map (λ child, treeToText child (level + 1)) (n_children node))
  end.

(** ** Counting *)

(** [countNodes(node)]: [count] starts at 1 and grows by each child's count. *)
Fixpoint countNodes (node : MindmapNode) : nat :=
  foldl (λ count child, count + countNodes child) 1 (n_children node).

(** ** Layout engine *)

Definition NODE_HEIGHT : Q := 40.
Definition NODE_PADDING : Q := 20.
Definition LEVEL_GAP : Q := 150.
Definition SIBLING_GAP : Q := 20.

(** [f(l[l.length - 1])], or nothing when [l] is empty. *)
Definition lastWith {A B} (f : A → B) : list A → option B :=
  fix go l :=
    match l with
    | [] => None
    | a :: l' => match l' with [] => Some (f a) | _ :: _ => go l' end
    end.

(** [getSubtreeHeight]: the last child, [pos.children[pos.children.length
    - 1]], is read through [lastWith] so that the recursive call is on a
    part of [pos]; [getSubtreeHeight_eq] below gives the direct reading. *)
Fixpoint getSubtreeHeight (pos : NodePosition) : option Q :=
  match p_children pos with
  | [] => Some (p_height pos)
  | _ :: _ =>
      r ← lastWith (λ lastChild, (p_y lastChild, getSubtreeHeight lastChild))
                   (p_children pos);
      h ← r.2;
      Some (r.1 + h - p_y pos)%Q
  end.

(** [for (const child of node.children) { ... }] of [layoutNode], with the
    recursive call abstracted as [lay]; the state is [childPositions] and
    [currentY]. *)
Definition layoutChildren (lay : MindmapNode → Q → option NodePosition)
  : list MindmapNode → list NodePosition → Q → option (list NodePosition * Q) :=
  fix loop children childPositions currentY :=
    match children with
    | [] => Some (childPositions, currentY)
    | child :: rest =>
        childPos ← lay child currentY;
        h ← getSubtreeHeight childPos;
        loop rest (childPositions ++ [childPos]) (p_y childPos + h + SIBLING_GAP)%Q
    end.

(** The centring step: [y] after [if (childPositions.length > 0) { ... }].
    The midpoint and the halving are exact here; [centreYIn] below is the
    same step in the arithmetic of the engine. *)
Definition centreY (childPositions : list NodePosition) (startY height : Q)
  : option Q :=
  if decide (0 < length childPositions)%nat then
    firstChild ← childPositions !! 0%nat;
    lastChild ← childPositions !! (length childPositions - 1)%nat;
    h ← getSubtreeHeight lastChild;
    let lastChildBottom := (p_y lastChild + h)%Q in
    Some ((p_y firstChild + lastChildBottom) / 2 - height / 2)%Q
  else Some startY.

(** [Math.max(100, node.text.length * 8 + NODE_PADDING * 2)] *)
Definition nodeWidth (node : MindmapNode) : Q :=
  Qmax 100 (inject_Z (Z.of_nat (length (n_text node))) * 8 + NODE_PADDING * 2)%Q.

(** [layoutNode(node, x, startY)]: children first, each at [x + LEVEL_GAP]
    with the running cursor, then the node's own [y]. *)
Fixpoint layoutNode (node : MindmapNode) (x startY : Q) : option NodePosition :=
  let width := nodeWidth node in
  let height := NODE_HEIGHT in
  r ← layoutChildren (λ child, layoutNode child (x + LEVEL_GAP)%Q)
                     (n_children node) [] startY;
  let childPositions := r.1 in
  y ← centreY childPositions startY height;
  Some (mkPos node x y width height childPositions).

Definition calculateLayout (node : MindmapNode) : option NodePosition :=
  layoutNode node 0 0.

(** ** Geometry utilities *)

(** [flattenPositions(root)]: [result] starts as [[root]] and is extended by
    each child's flattening in turn. *)
Fixpoint flattenPositions (root : NodePosition) : list NodePosition :=
  foldl (λ result child, result ++ flattenPositions child) [root] (p_children root).

(** The accumulators of [getBoundingBox] start at [Infinity] and
    [-Infinity]: a [number] that may be infinite. *)
Inductive number : Type :=
  | NaN
  | NegInfinity
  | Fin (q : Q)
  | PosInfinity.

Definition mathMin (a b : number) : number :=
  match a, b with
  | NaN, _ | _, NaN => NaN
  | NegInfinity, _ | _, NegInfinity => NegInfinity
  | PosInfinity, c | c, PosInfinity => c
  | Fin p, Fin q => Fin (Qmin p q)
  end.

Definition mathMax (a b : number) : number :=
  match a, b with
  | NaN, _ | _, NaN => NaN
  | PosInfinity, _ | _, PosInfinity => PosInfinity
  | NegInfinity, c | c, NegInfinity => c
  | Fin p, Fin q => Fin (Qmax p q)
  end.

Definition numSub (a b : number) : number :=
  match a, b with
  | NaN, _ | _, NaN => NaN
  | Fin p, Fin q => Fin (p - q)%Q
  | PosInfinity, PosInfinity | NegInfinity, NegInfinity => NaN
  | PosInfinity, _ | _, NegInfinity => PosInfinity
  | NegInfinity, _ | _, PosInfinity => NegInfinity
  end.

Record BoundingBox : Type := mkBox {
  minX : number;
  minY : number;
  maxX : number;
  maxY : number;
  width : number;
  height : number
}.

(** The body of [for (const pos of positions)] in [getBoundingBox]. *)
Definition extend (acc : number * number * number * number) (pos : NodePosition)
  : number * number * number * number :=
  let '(minX, minY, maxX, maxY) := acc in
  (mathMin minX (Fin (p_x pos)),
   mathMin minY (Fin (p_y pos)),
   mathMax maxX (Fin (p_x pos + p_width pos)%Q),
   mathMax maxY (Fin (p_y pos + p_height pos)%Q)).

Definition getBoundingBox (root : NodePosition) : BoundingBox :=
  let positions := flattenPositions root in
  let '(minX, minY, maxX, maxY) :=
    foldl extend (PosInfinity, PosInfinity, NegInfinity, NegInfinity) positions in
  {| minX := minX; minY := minY; maxX := maxX; maxY := maxY;
     width := numSub maxX minX; height := numSub maxY minY |}.

(** The renderer's [const isRoot = x === 0]. *)
Definition isRoot (position : NodePosition) : bool := Qeq_bool (p_x position) 0.

(** ** Notions the specification speaks of *)

(** Shape and per-node text of a tree: everything but the identifiers (and
    the presentation flag, which the parser never sets). *)
Inductive Shape : Type := Item {
  i_text : str;
  i_items : list Shape
}.

Fixpoint shape (node : MindmapNode) : Shape :=
  Item (n_text node) (map shape (n_children node)).

Fixpoint shapeSize (s : Shape) : nat :=
  S (list_sum (map shapeSize (i_items s))).

Fixpoint shapeTexts (s : Shape) : list str :=
  i_text s :: flat_map shapeTexts (i_items s).

(** All nodes of a tree, root first. *)
Fixpoint nodesOf (node : MindmapNode) : list MindmapNode :=
  node :: flat_map nodesOf (n_children node).

(** The lines of the input that are not blank. *)
Definition nonBlankLines (text : str) : list str :=
  filter (λ line, trim line ≠ []) (split LF text).

(** A text that survives a round trip through a line of an outline: not
    empty, no line feed inside, no white space at either end. *)
Definition cleanText (t : str) : Prop :=
  t ≠ [] ∧ (LF ∉ t) ∧
  (∀ c, head t = Some c → isWhiteSpace c = false) ∧
  (∀ c, last t = Some c → isWhiteSpace c = false).

(** The fixed placeholder, up to its identifier. *)
Definition isPlaceholder (node : MindmapNode) : Prop :=
  n_text node = lit "Empty Mindmap" ∧ n_children node = [].

(** Positions of a layout paired with their edge-depth below the root. *)
Fixpoint positionsAtDepth (depth : nat) (pos : NodePosition)
  : list (nat * NodePosition) :=
  (depth, pos) :: flat_map (positionsAtDepth (S depth)) (p_children pos).

(** The top edge of a subtree: the least [y] among its positions. *)
Definition subtreeTop (pos : NodePosition) : Q :=
  foldr Qmin (p_y pos) (map p_y (flattenPositions pos)).

Definition isMinOf (m : Q) (l : list Q) : Prop := m ∈ l ∧ (∀ z, z ∈ l → (m <= z)%Q).
Definition isMaxOf (m : Q) (l : list Q) : Prop := m ∈ l ∧ (∀ z, z ∈ l → (z <= m)%Q).

(** [chain x cur children positions cur']: the positions are those of the
    children laid out in order at abscissa [x], the first with cursor
    [cur], each next one with the cursor advanced past the previous
    subtree; [cur'] is the cursor after the last. *)
Inductive chain (x : Q) : Q → list MindmapNode → list NodePosition → Q → Prop :=
  | chain_nil cur : chain x cur [] [] cur
  | chain_cons cur c cs p ps h cur' :
      layoutNode c x cur = Some p →
      getSubtreeHeight p = Some h →
      chain x (p_y p + h + SIBLING_GAP)%Q cs ps cur' →
      chain x cur (c :: cs) (p :: ps) cur'.

(** What holds of a subtree laid out with cursor [s]: it has a subtree
    height of at least one node; nothing in it lies above [s], and
    something in it lies exactly at [s]; nothing in it reaches below its
    bottom, the root's [y] plus the subtree height. *)
Definition spans (s : Q) (p : NodePosition) : Prop :=
  ∃ h, getSubtreeHeight p = Some h ∧ (NODE_HEIGHT <= h)%Q ∧
       (∀ q, q ∈ flattenPositions p → (s <= p_y q)%Q) ∧
       (∃ q, q ∈ flattenPositions p ∧ p_y q = s) ∧
       (∀ q, q ∈ flattenPositions p → (p_y q + p_height q <= p_y p + h)%Q).

Definition Qnat (n : nat) : Q := inject_Z (Z.of_nat n).

(** ** A pure account of the tree construction

    The same construction without a heap: each open ancestor is a frame
    that collects the shapes of its finished children; popping a frame
    hands its finished shape to the frame below. *)

Record frame : Type := mkFrame {
  f_text : str;
  f_level : nat;
  f_done : list Shape
}.

Definition close (f : frame) : Shape := Item (f_text f) (f_done f).

Definition adopt (child : Shape) (f : frame) : frame :=
  {| f_text := f_text f; f_level := f_level f; f_done := f_done f ++ [child] |}.

Fixpoint popFrames (level : nat) (top : frame) (below : list frame)
  : frame * list frame :=
  match below with
  | [] => (top, [])
  | parent :: rest =>
      if decide (level ≤ f_level top)
      then popFrames level (adopt (close top) parent) rest
      else (top, below)
  end.

Definition pushLine (st : frame * list frame) (line : str * nat)
  : frame * list frame :=
  let '(top, below) := popFrames line.2 st.1 st.2 in
  ({| f_text := line.1; f_level := line.2; f_done := [] |}, top :: below).

Definition feed (st : frame * list frame) (lines : list (str * nat))
  : frame * list frame :=
  foldl pushLine st lines.

Definition finish (st : frame * list frame) : Shape :=
  close (popFrames 0 st.1 st.2).1.

Definition outlineOf (line : ParsedLine) : str * nat := (pl_text line, pl_level line).

Definition buildShape (parsedLines : list ParsedLine) : Shape :=
  match parsedLines with
  | [] => Item (lit "Empty Mindmap") []
  | first :: rest =>
      finish (feed ({| f_text := pl_text first; f_level := pl_level first;
                       f_done := [] |}, [])
                   (outlineOf <$> rest))
  end.

(** Number of nodes held by a frame and by a stack of frames. *)
Definition frameSize (f : frame) : nat := S (list_sum (map shapeSize (f_done f))).

Definition stateSize (st : frame * list frame) : nat :=
  frameSize st.1 + list_sum (map frameSize st.2).

(** [P] holds of every text held by a frame. *)
Definition frameTexts (P : str → Prop) (f : frame) : Prop :=
  P (f_text f) ∧ Forall (λ s, Forall P (shapeTexts s)) (f_done f).

(** The frame of the root: the one at the bottom of the stack. *)
Definition bottom (st : frame * list frame) : frame := default st.1 (last st.2).

(** The outline that [treeToText] writes for a shape: one [(text, level)]
    per node, root first. *)
Fixpoint outline (level : nat) (s : Shape) : list (str * nat) :=
  (i_text s, level) :: flat_map (outline (S level)) (i_items s).

(** The line that [treeToText] writes for one entry of an outline. *)
Definition render (line : str * nat) : str := indentOf line.2 ++ line.1.

Definition popTo (level : nat) (st : frame * list frame) : frame * list frame :=
  popFrames level st.1 st.2.

(** [rep h hi a s]: in heap [h] the object at [a] is the root of a finished
    subtree of shape [s], all of whose objects lie in [[a, hi)], children
    after their parent. *)
Inductive rep (h : heap) (hi : addr) : addr → Shape → Prop :=
  | rep_node a o ss :
      h !! a = Some o →
      a < hi →
      Forall2 (λ c s, a < c ∧ rep h hi c s) (o_children o) ss →
      rep h hi a (Item (o_text o) ss).

(** [sim h hi above stack frames]: the ancestor stack and the frames agree.
    Every entry's object has the finished children of its frame, followed
    by the entry above it (if any); its finished subtrees end before that
    entry's address [hi].  The bottom entry is the root, object 0. *)
Inductive sim (h : heap) : addr → list addr → list entry → list frame → Prop :=
  | sim_nil above : sim h root above [] []
  | sim_cons hi above e stack f frames o cs :
      e_level e = f_level f →
      e_node e < hi →
      h !! e_node e = Some o →
      o_text o = f_text f →
      o_children o = cs ++ above →
      Forall2 (λ c s, e_node e < c ∧ rep h hi c s) cs (f_done f) →
      sim h (e_node e) [e_node e] stack frames →
      sim h hi above (e :: stack) (f :: frames).

(** ** A worked example: the outline of the specification *)

Definition ex_text : str :=
  lit "Root Node" ++ [LF] ++ lit "  Child 1" ++ [LF]
  ++ lit "    Grandchild 1" ++ [LF] ++ lit "    Grandchild 2" ++ [LF]
  ++ lit "  Child 2" ++ [LF] ++ lit "  Child 3".

Definition ex_first : ParsedLine := mkLine (lit "Root Node") 0 1.

Definition ex_rest : list ParsedLine :=
  [ mkLine (lit "Child 1") 1 2; mkLine (lit "Grandchild 1") 2 3;
    mkLine (lit "Grandchild 2") 2 4; mkLine (lit "Child 2") 1 5;
    mkLine (lit "Child 3") 1 6 ].

(** Identifiers play no part in the properties below; the examples use an
    identifier source that always answers the empty string. *)
Definition noIds : nat → str := λ _, [].

Definition leaf (t : string) : MindmapNode := mkNode [] (lit t) [] None.

Definition ex_tree : MindmapNode :=
  mkNode [] (lit "Root Node")
    [ mkNode [] (lit "Child 1") [leaf "Grandchild 1"; leaf "Grandchild 2"] None;
      leaf "Child 2"; leaf "Child 3" ] None.

(** A second example, in which the second child has children of its own:
    [R] with children [A] and [B], [B] with children [b1] and [b2]. *)
Definition ex_tree2 : MindmapNode :=
  mkNode [] (lit "R")
    [ leaf "A"; mkNode [] (lit "B") [leaf "b1"; leaf "b2"] None ] None.

(** Its layout, and the positions of [A] and [B] in it. *)
Definition ex_R : NodePosition :=
  Eval vm_compute in
    match calculateLayout ex_tree2 with
    | Some p => p
    | None => mkPos ex_tree2 0 0 0 0 []
    end.

Definition ex_A : NodePosition :=
  Eval vm_compute in match p_children ex_R with c :: _ => c | [] => ex_R end.

Definition ex_B : NodePosition :=
  Eval vm_compute in match p_children ex_R with _ :: c :: _ => c | _ => ex_R end.

(** Linear arithmetic over [Q] with the layout constants unfolded and
    halving read as multiplication by one half. *)
Ltac qlra :=
  unfold NODE_HEIGHT, SIBLING_GAP, LEVEL_GAP, NODE_PADDING in *;
  unfold Qdiv in *; change (/ 2)%Q with (1 # 2)%Q in *; lra.

(** ** Depth *)

(** [getMaxDepth(node, currentDepth = 0)]: [maxChildDepth] starts at
    [currentDepth] and is raised to each child's depth in turn. *)
Fixpoint getMaxDepth (node : MindmapNode) (currentDepth : nat) : nat :=
  match n_children node with
  | [] => currentDepth
  | _ :: _ =>
      foldl (λ maxChildDepth child,
               Nat.max maxChildDepth (getMaxDepth child (currentDepth + 1)))
            currentDepth (n_children node)
  end.

(** ** Renderer *)

(** The text the [Node] component draws:
    [node.text.length > 20 ? node.text.substring(0, 17) + '...' : node.text]. *)
Definition nodeLabel (node : MindmapNode) : str :=
  if decide (20 < length (n_text node))
  then take 17 (n_text node) ++ lit "..."
  else n_text node.

(** The numbers the [Connection] component computes from its two
    positions before it formats them into the path of a cubic curve. *)
Record ConnectionPoints : Type := mkPoints {
  startX : Q;
  startY : Q;
  endX : Q;
  endY : Q;
  midX : Q
}.

Definition Connection (parent child : NodePosition) : ConnectionPoints :=
  let startX := (p_x parent + p_width parent)%Q in
  let startY := (p_y parent + p_height parent / 2)%Q in
  let endX := p_x child in
  let endY := (p_y child + p_height child / 2)%Q in
  let midX := ((startX + endX) / 2)%Q in
  mkPoints startX startY endX endY midX.

(** [positions.map((pos) => pos.children.map((childPos) => ...))]: the
    [parent] and [child] each [Connection] is given. *)
Definition links (positions : list NodePosition)
  : list (list (NodePosition * NodePosition)) :=
  map (λ pos, map (λ childPos, (pos, childPos)) (p_children pos)) positions.

(** ** Renderer: zoom and pan state

    The renderer keeps [scale] and [translate] in component state.  The
    products and quotients below are rounded by the engine; they are taken
    exactly here.  A zero is taken as [+0]. *)

(** [a * b] *)
Definition numMul (a b : number) : number :=
  match a, b with
  | NaN, _ | _, NaN => NaN
  | Fin p, Fin q => Fin (p * q)%Q
  | Fin p, PosInfinity | PosInfinity, Fin p =>
      if Qeq_bool p 0 then NaN
      else if Qle_bool 0 p then PosInfinity else NegInfinity
  | Fin p, NegInfinity | NegInfinity, Fin p =>
      if Qeq_bool p 0 then NaN
      else if Qle_bool 0 p then NegInfinity else PosInfinity
  | PosInfinity, PosInfinity | NegInfinity, NegInfinity => PosInfinity
  | PosInfinity, NegInfinity | NegInfinity, PosInfinity => NegInfinity
  end.

(** [a / b] *)
Definition numDiv (a b : number) : number :=
  match a, b with
  | NaN, _ | _, NaN => NaN
  | Fin p, Fin q =>
      if Qeq_bool q 0 then
        if Qeq_bool p 0 then NaN
        else if Qle_bool 0 p then PosInfinity else NegInfinity
      else Fin (p / q)%Q
  | Fin _, PosInfinity | Fin _, NegInfinity => Fin 0
  | PosInfinity, Fin q => if Qle_bool 0 q then PosInfinity else NegInfinity
  | NegInfinity, Fin q => if Qle_bool 0 q then NegInfinity else PosInfinity
  | _, _ => NaN
  end.

(** [n || 1]: the numbers that are falsy are [0] and [NaN]. *)
Definition orOne (n : number) : number :=
  match n with
  | NaN => Fin 1
  | Fin q => if Qeq_bool q 0 then Fin 1 else Fin q
  | _ => n
  end.

(** [const [scale, setScale] = useState(1)] and
    [const [translate, setTranslate] = useState({ x: 50, y: 50 })]. *)
Record View : Type := mkView {
  scale : number;
  translate : number * number
}.

Definition initialView : View := mkView (Fin 1) (Fin 50, Fin 50).

(** [handleWheel]: [delta = e.deltaY > 0 ? 0.9 : 1.1] and
    [setScale((prev) => Math.min(Math.max(prev * delta, 0.1), 3))]. *)
Definition handleWheel (deltaY : Q) (v : View) : View :=
  let delta := if Qlt_le_dec 0 deltaY then (9 # 10)%Q else (11 # 10)%Q in
  mkView (mathMin (mathMax (numMul (scale v) (Fin delta)) (Fin (1 # 10))) (Fin 3))
         (translate v).

(** The [+] button: [setScale((s) => Math.min(s * 1.2, 3))]. *)
Definition zoomIn (v : View) : View :=
  mkView (mathMin (numMul (scale v) (Fin (12 # 10))) (Fin 3)) (translate v).

(** The [-] button: [setScale((s) => Math.max(s * 0.8, 0.1))]. *)
Definition zoomOut (v : View) : View :=
  mkView (mathMax (numMul (scale v) (Fin (8 # 10))) (Fin (1 # 10))) (translate v).

(** [resetView] *)
Definition resetView (v : View) : View := mkView (Fin 1) (Fin 50, Fin 50).

(** [fitToView], given the width and height of the SVG element's client
    rectangle; without a bounding box it does nothing. *)
Definition fitToView (svgWidth svgHeight : Q) (boundingBox : option BoundingBox)
    (v : View) : View :=
  match boundingBox with
  | None => v
  | Some boundingBox =>
      let padding := 100%Q in
      let scaleX := numDiv (Fin (svgWidth - padding)) (orOne (width boundingBox)) in
      let scaleY := numDiv (Fin (svgHeight - padding)) (orOne (height boundingBox)) in
      let newScale := mathMin (mathMin scaleX scaleY) (Fin (15 # 10)) in
      mkView newScale
             (numSub (Fin (padding / 2)) (numMul (minX boundingBox) newScale),
              numSub (Fin (padding / 2)) (numMul (minY boundingBox) newScale))
  end.

(** What the user can do to the view without dragging. *)
Inductive ViewEvent : Type :=
  | Wheel (deltaY : Q)
  | ZoomIn
  | ZoomOut
  | Fit (svgWidth svgHeight : Q)
  | ResetView.

Definition viewStep (boundingBox : option BoundingBox) (v : View) (e : ViewEvent)
  : View :=
  match e with
  | Wheel deltaY => handleWheel deltaY v
  | ZoomIn => zoomIn v
  | ZoomOut => zoomOut v
  | Fit svgWidth svgHeight => fitToView svgWidth svgHeight boundingBox v
  | ResetView => resetView v
  end.

Definition isFit (e : ViewEvent) : bool :=
  match e with Fit _ _ => true | _ => false end.

(** ** The editor's store: the mindmap slice

    Every action is a function from state to state.  An action that reads
    the clock ([new Date().toISOString()]) takes the reading as an
    argument. *)

(** [MindmapDocument]: [{ id?, title, content, created_at, updated_at }]. *)
Record MindmapDocument : Type := mkDoc {
  d_id : option Z;
  d_title : str;
  d_content : str;
  d_created_at : str;
  d_updated_at : str
}.

(** The state of [MindmapSlice]. *)
Record MindmapSlice : Type := mkSlice {
  currentDocument : option MindmapDocument;
  parsedNodes : option MindmapNode;
  savedDocuments : list MindmapDocument;
  isEditing : bool;
  hasUnsavedChanges : bool;
  parseError : option str
}.

(** [createNewDocument()]; the clock is read twice. *)
Definition createNewDocument (now now' : str) : MindmapDocument :=
  {| d_id := None;
     d_title := lit "Untitled Mindmap";
     d_content :=
       lit "Root Node" ++ [LF] ++ lit "  Child 1" ++ [LF]
       ++ lit "    Grandchild 1" ++ [LF] ++ lit "    Grandchild 2" ++ [LF]
       ++ lit "  Child 2" ++ [LF] ++ lit "  Child 3";
     d_created_at := now;
     d_updated_at := now' |}.

(** [initialState], built once when the module is loaded. *)
Definition initialState (now now' : str) : MindmapSlice :=
  {| currentDocument := Some (createNewDocument now now');
     parsedNodes := None;
     savedDocuments := [];
     isEditing := true;
     hasUnsavedChanges := false;
     parseError := None |}.

Definition setCurrentDocument (doc : option MindmapDocument) (st : MindmapSlice)
  : MindmapSlice :=
  {| currentDocument := doc;
     parsedNodes := parsedNodes st;
     savedDocuments := savedDocuments st;
     isEditing := isEditing st;
     hasUnsavedChanges := false;
     parseError := None |}.

Definition updateContent (now : str) (content : str) (st : MindmapSlice)
  : MindmapSlice :=
  match currentDocument st with
  | Some current =>
      {| currentDocument :=
           Some {| d_id := d_id current; d_title := d_title current;
                   d_content := content;
                   d_created_at := d_created_at current; d_updated_at := now |};
         parsedNodes := parsedNodes st;
         savedDocuments := savedDocuments st;
         isEditing := isEditing st;
         hasUnsavedChanges := true;
         parseError := parseError st |}
  | None => st
  end.

Definition updateTitle (now : str) (title : str) (st : MindmapSlice)
  : MindmapSlice :=
  match currentDocument st with
  | Some current =>
      {| currentDocument :=
           Some {| d_id := d_id current; d_title := title;
                   d_content := d_content current;
                   d_created_at := d_created_at current; d_updated_at := now |};
         parsedNodes := parsedNodes st;
         savedDocuments := savedDocuments st;
         isEditing := isEditing st;
         hasUnsavedChanges := true;
         parseError := parseError st |}
  | None => st
  end.

Definition setParsedNodes (nodes : option MindmapNode) (st : MindmapSlice)
  : MindmapSlice :=
  {| currentDocument := currentDocument st;
     parsedNodes := nodes;
     savedDocuments := savedDocuments st;
     isEditing := isEditing st;
     hasUnsavedChanges := hasUnsavedChanges st;
     parseError := parseError st |}.

Definition setParseError (error : option str) (st : MindmapSlice) : MindmapSlice :=
  {| currentDocument := currentDocument st;
     parsedNodes := parsedNodes st;
     savedDocuments := savedDocuments st;
     isEditing := isEditing st;
     hasUnsavedChanges := hasUnsavedChanges st;
     parseError := error |}.

Definition setSavedDocuments (docs : list MindmapDocument) (st : MindmapSlice)
  : MindmapSlice :=
  {| currentDocument := currentDocument st;
     parsedNodes := parsedNodes st;
     savedDocuments := docs;
     isEditing := isEditing st;
     hasUnsavedChanges := hasUnsavedChanges st;
     parseError := parseError st |}.

(** [[...state.savedDocuments, doc]] *)
Definition addSavedDocument (doc : MindmapDocument) (st : MindmapSlice)
  : MindmapSlice :=
  setSavedDocuments (savedDocuments st ++ [doc]) st.

(** [state.savedDocuments.map((d) => d.id === id ? doc : d)] *)
Definition updateSavedDocument (id : Z) (doc : MindmapDocument) (st : MindmapSlice)
  : MindmapSlice :=
  setSavedDocuments
    (map (λ d, if decide (d_id d = Some id) then doc else d) (savedDocuments st)) st.

(** [state.savedDocuments.filter((d) => d.id !== id)] *)
Definition removeSavedDocument (id : Z) (st : MindmapSlice) : MindmapSlice :=
  setSavedDocuments (filter (λ d, d_id d ≠ Some id) (savedDocuments st)) st.

Definition newDocument (now now' : str) (st : MindmapSlice) : MindmapSlice :=
  {| currentDocument := Some (createNewDocument now now');
     parsedNodes := None;
     savedDocuments := savedDocuments st;
     isEditing := isEditing st;
     hasUnsavedChanges := false;
     parseError := None |}.

Definition markSaved (st : MindmapSlice) : MindmapSlice :=
  {| currentDocument := currentDocument st;
     parsedNodes := parsedNodes st;
     savedDocuments := savedDocuments st;
     isEditing := isEditing st;
     hasUnsavedChanges := false;
     parseError := parseError st |}.

(** [reset]: back to [initialState], the one built at load time. *)
Definition reset (loaded loaded' : str) (st : MindmapSlice) : MindmapSlice :=
  initialState loaded loaded'.

(** The actions of the slice, with their arguments. *)
Inductive Action : Type :=
  | SetCurrentDocument (doc : option MindmapDocument)
  | UpdateContent (now content : str)
  | UpdateTitle (now title : str)
  | SetParsedNodes (nodes : option MindmapNode)
  | SetParseError (error : option str)
  | SetSavedDocuments (docs : list MindmapDocument)
  | AddSavedDocument (doc : MindmapDocument)
  | UpdateSavedDocument (id : Z) (doc : MindmapDocument)
  | RemoveSavedDocument (id : Z)
  | NewDocument (now now' : str)
  | MarkSaved
  | ResetAll.

Definition dispatch (loaded loaded' : str) (st : MindmapSlice) (a : Action)
  : MindmapSlice :=
  match a with
  | SetCurrentDocument doc => setCurrentDocument doc st
  | UpdateContent now content => updateContent now content st
  | UpdateTitle now title => updateTitle now title st
  | SetParsedNodes nodes => setParsedNodes nodes st
  | SetParseError error => setParseError error st
  | SetSavedDocuments docs => setSavedDocuments docs st
  | AddSavedDocument doc => addSavedDocument doc st
  | UpdateSavedDocument id doc => updateSavedDocument id doc st
  | RemoveSavedDocument id => removeSavedDocument id st
  | NewDocument now now' => newDocument now now' st
  | MarkSaved => markSaved st
  | ResetAll => reset loaded loaded' st
  end.

(** ** The editor's parse effect

    [useEffect(() => { if (currentDocument?.content) { try { ... } catch
    { ... } } else { setParsedNodes(null) } })].  An empty content is
    falsy.  [message] is the text that the [catch] branch would store. *)

Definition parseContent (generateId : nat → str) (message : str)
    (st : MindmapSlice) : MindmapSlice :=
  match currentDocument st with
  | Some doc =>
      if decide (d_content doc = []) then setParsedNodes None st
      else
        match parseTextToTree generateId (d_content doc) with
        | Some tree => setParseError None (setParsedNodes (Some tree) st)
        | None => setParsedNodes None (setParseError (Some message) st)
        end
  | None => setParsedNodes None st
  end.

(** What happens to the store while the editor is open: an action is
    dispatched, or the parse effect runs.  The editor itself calls
    [setParseError] only inside the parse effect. *)
Inductive EditorEvent : Type :=
  | Dispatch (a : Action)
  | ParseEffect (generateId : nat → str) (message : str).

Definition editorStep (loaded loaded' : str) (st : MindmapSlice) (e : EditorEvent)
  : MindmapSlice :=
  match e with
  | Dispatch a => dispatch loaded loaded' st a
  | ParseEffect generateId message => parseContent generateId message st
  end.

Definition setsParseError (e : EditorEvent) : bool :=
  match e with
  | Dispatch (SetParseError (Some _)) => true
  | _ => false
  end.

(** ** Sharing: [handleShare]

    [btoa(JSON.stringify(shareData))] with [shareData = { title, content }].
    [JSON.stringify] and [btoa] are the platform's; they are written out
    here for the values [handleShare] gives them. *)

Definition isLeadingSurrogate (c : char) : bool :=
  ((55296 <=? c) && (c <=? 56319))%N.

Definition isTrailingSurrogate (c : char) : bool :=
  ((56320 <=? c) && (c <=? 57343))%N.

(** A hexadecimal digit, in lower case. *)
Definition hexDigit (n : N) : char := (if n <? 10 then 48 + n else 87 + n)%N.

(** [\uXXXX] *)
Definition unicodeEscape (c : char) : str :=
  [92; 117; hexDigit (c / 4096); hexDigit ((c / 256) mod 16);
   hexDigit ((c / 16) mod 16); hexDigit (c mod 16)]%N.

(** What [JSON.stringify] writes for one code unit that is not a
    surrogate: a two-character escape for backspace, tab, line feed, form
    feed, carriage return, the double quote and the backslash, [\u00XX]
    for any other control character, and the unit itself otherwise. *)
Definition quoteUnit (c : char) : str :=
  (if c =? 8 then [92; 98]
   else if c =? 9 then [92; 116]
   else if c =? 10 then [92; 110]
   else if c =? 12 then [92; 102]
   else if c =? 13 then [92; 114]
   else if c =? 34 then [92; 34]
   else if c =? 92 then [92; 92]
   else if c <? 32 then unicodeEscape c
   else [c])%N.

(** The characters between the quotes: a surrogate pair is copied, a lone
    surrogate is escaped. *)
Fixpoint quoteJSONChars (value : str) : str :=
  match value with
  | [] => []
  | c :: rest =>
      if isLeadingSurrogate c then
        match rest with
        | d :: rest' =>
            if isTrailingSurrogate d then c :: d :: quoteJSONChars rest'
            else unicodeEscape c ++ quoteJSONChars rest
        | [] => unicodeEscape c
        end
      else if isTrailingSurrogate c then unicodeEscape c ++ quoteJSONChars rest
      else quoteUnit c ++ quoteJSONChars rest
  end.

Definition quoteJSONString (value : str) : str :=
  [34%N] ++ quoteJSONChars value ++ [34%N].

(** [JSON.stringify({ title, content })] *)
Definition stringifyShare (title content : str) : str :=
  lit "{" ++ quoteJSONString (lit "title") ++ lit ":" ++ quoteJSONString title
  ++ lit "," ++ quoteJSONString (lit "content") ++ lit ":"
  ++ quoteJSONString content ++ lit "}".

(** The base64 alphabet. *)
Definition base64Char (n : N) : char :=
  (if n <? 26 then 65 + n
   else if n <? 52 then 97 + (n - 26)
   else if n <? 62 then 48 + (n - 52)
   else if n =? 62 then 43
   else 47)%N.

Fixpoint base64 (bytes : list N) : str :=
  match bytes with
  | [] => []
  | [a] => [base64Char (a / 4); base64Char ((a mod 4) * 16); 61; 61]%N
  | [a; b] =>
      [base64Char (a / 4); base64Char ((a mod 4) * 16 + b / 16);
       base64Char ((b mod 16) * 4); 61]%N
  | a :: b :: c :: rest =>
      [base64Char (a / 4); base64Char ((a mod 4) * 16 + b / 16);
       base64Char ((b mod 16) * 4 + c / 64); base64Char (c mod 64)]%N
      ++ base64 rest
  end.

(** [btoa(s)]: an [InvalidCharacterError] ([None]) when a code unit of [s]
    is above 255, else the base64 form of the bytes of [s]. *)
Definition btoa (s : str) : option str :=
  if forallb (λ c, c <=? 255)%N s then Some (base64 s) else None.

(** [handleShare], as a function from [window.location.origin], the
    current document and the [shareUrl] state to the new [shareUrl];
    [None] is the exception that [btoa] throws, which [handleShare] does
    not catch. *)
Definition handleShare (origin : str) (currentDocument : option MindmapDocument)
    (shareUrl : str) : option str :=
  match currentDocument with
  | None => Some shareUrl
  | Some doc =>
      encoded ← btoa (stringifyShare (d_title doc) (d_content doc));
      Some (origin ++ lit "/mindmap?data=" ++ encoded)
  end.

(** ** Further notions used in the statements *)

(** Nodes of a tree paired with their edge-depth below the root, root
    first. *)
Fixpoint nodesAtDepth (depth : nat) (node : MindmapNode)
  : list (nat * MindmapNode) :=
  (depth, node) :: flat_map (nodesAtDepth (S depth)) (n_children node).

(** Number of nodes without children. *)
Fixpoint leafCount (node : MindmapNode) : nat :=
  match n_children node with
  | [] => 1
  | _ :: _ => list_sum (map leafCount (n_children node))
  end.

(** The positions without children of a position tree, in the order of
    [flattenPositions]. *)
Fixpoint leafPositions (pos : NodePosition) : list NodePosition :=
  match p_children pos with
  | [] => [pos]
  | _ :: _ => flat_map leafPositions (p_children pos)
  end.

(** Two positions of one column, the first above the second: if they have
    the same depth, the second starts at least a sibling gap below the
    bottom edge of the first. *)
Definition separated (a b : nat * NodePosition) : Prop :=
  a.1 = b.1 → (p_y a.2 + NODE_HEIGHT + SIBLING_GAP <= p_y b.2)%Q.

(** A scale within the limits of the zoom controls. *)
Definition inRange (n : number) : Prop :=
  ∃ s, n = Fin s ∧ (1 # 10 <= s)%Q ∧ (s <= 3)%Q.

(** A view as [Fit] and [Reset] leave it: a finite scale of at most 3, and
    the translation at [(50, 50)]. *)
Definition anchored (v : View) : Prop :=
  ∃ s tx ty, v = mkView (Fin s) (Fin tx, Fin ty) ∧
             (s <= 3)%Q ∧ (tx == 50)%Q ∧ (ty == 50)%Q.

Definition isBase64Char (c : char) : bool :=
  ((65 <=? c) && (c <=? 90) || (97 <=? c) && (c <=? 122)
   || (48 <=? c) && (c <=? 57) || (c =? 43) || (c =? 47) || (c =? 61))%N.

(** The texts held by a frame, its own first, and by a stack of frames,
    from the bottom frame to the top one: the lines read so far, in
    order. *)
Definition frameLines (f : frame) : list str :=
  f_text f :: flat_map shapeTexts (f_done f).

Definition stateLines (st : frame * list frame) : list str :=
  flat_map frameLines (reverse (st.1 :: st.2)).

(** The outline held by a stack of frames (top first), when the frame
    with [j] frames below it stands for a line of level [j]. *)
Definition frameOutline (j : nat) (f : frame) : list (str * nat) :=
  (f_text f, j) :: flat_map (outline (S j)) (f_done f).

Fixpoint stackOutline (frames : list frame) : list (str * nat) :=
  match frames with
  | [] => []
  | f :: below => stackOutline below ++ frameOutline (length below) f
  end.

(** The same stack of frames with another level recorded for the frame of
    the root. *)
Definition setLevel (level : nat) (f : frame) : frame :=
  {| f_text := f_text f; f_level := level; f_done := f_done f |}.

Fixpoint relevel (level : nat) (top : frame) (below : list frame)
  : frame * list frame :=
  match below with
  | [] => (setLevel level top, [])
  | parent :: rest =>
      (top, (relevel level parent rest).1 :: (relevel level parent rest).2)
  end.

(** ** The layout in the arithmetic of the engine

    [layoutNode] above computes with exact rationals.  The code computes
    with IEEE doubles, which round: the same functions are given here over
    any arithmetic, with two instances, the exact one and the doubles. *)

(** The operations the layout uses: [+], [-], [*], [/], [Math.max], and
    the number that an integer literal or a string length denotes. *)
Record Arith (N : Type) : Type := mkArith {
  a_add : N → N → N;
  a_sub : N → N → N;
  a_mul : N → N → N;
  a_div : N → N → N;
  a_max : N → N → N;
  a_ofNat : nat → N
}.

Arguments a_add {N} _ _ _.
Arguments a_sub {N} _ _ _.
Arguments a_mul {N} _ _ _.
Arguments a_div {N} _ _ _.
Arguments a_max {N} _ _ _.
Arguments a_ofNat {N} _ _.

(** [NodePosition] with coordinates in [N]. *)
Inductive PositionIn (N : Type) : Type := mkPosIn {
  g_node : MindmapNode;
  g_x : N;
  g_y : N;
  g_width : N;
  g_height : N;
  g_children : list (PositionIn N)
}.

Arguments mkPosIn {N} _ _ _ _ _ _.
Arguments g_node {N} _.
Arguments g_x {N} _.
Arguments g_y {N} _.
Arguments g_width {N} _.
Arguments g_height {N} _.
Arguments g_children {N} _.

Section Engine.

Context {N : Type} (A : Arith N).

(** [getSubtreeHeight] *)
Fixpoint getSubtreeHeightIn (pos : PositionIn N) : option N :=
  match g_children pos with
  | [] => Some (g_height pos)
  | _ :: _ =>
      r ← lastWith (λ lastChild, (g_y lastChild, getSubtreeHeightIn lastChild))
                   (g_children pos);
      h ← r.2;
      Some (a_sub A (a_add A r.1 h) (g_y pos))
  end.

(** The loop over the children of [layoutNode]. *)
Definition layoutChildrenIn (lay : MindmapNode → N → option (PositionIn N))
  : list MindmapNode → list (PositionIn N) → N
    → option (list (PositionIn N) * N) :=
  fix loop children childPositions currentY :=
    match children with
    | [] => Some (childPositions, currentY)
    | child :: rest =>
        childPos ← lay child currentY;
        h ← getSubtreeHeightIn childPos;
        loop rest (childPositions ++ [childPos])
             (a_add A (a_add A (g_y childPos) h) (a_ofNat A 20))
    end.

(** The centring step of [layoutNode]. *)
Definition centreYIn (childPositions : list (PositionIn N)) (startY height : N)
  : option N :=
  if decide (0 < length childPositions) then
    firstChild ← childPositions !! 0;
    lastChild ← childPositions !! (length childPositions - 1);
    h ← getSubtreeHeightIn lastChild;
    let lastChildBottom := a_add A (g_y lastChild) h in
    Some (a_sub A (a_div A (a_add A (g_y firstChild) lastChildBottom) (a_ofNat A 2))
                  (a_div A height (a_ofNat A 2)))
  else Some startY.

(** [Math.max(100, node.text.length * 8 + NODE_PADDING * 2)] *)
Definition nodeWidthIn (node : MindmapNode) : N :=
  a_max A (a_ofNat A 100)
        (a_add A (a_mul A (a_ofNat A (length (n_text node))) (a_ofNat A 8))
                 (a_mul A (a_ofNat A 20) (a_ofNat A 2))).

(** [layoutNode(node, x, startY)] *)
Fixpoint layoutNodeIn (node : MindmapNode) (x startY : N)
  : option (PositionIn N) :=
  let width := nodeWidthIn node in
  let height := a_ofNat A 40 in
  r ← layoutChildrenIn (λ child, layoutNodeIn child (a_add A x (a_ofNat A 150)))
                       (n_children node) [] startY;
  let childPositions := r.1 in
  y ← centreYIn childPositions startY height;
  Some (mkPosIn node x y width height childPositions).

(** [calculateLayout(node)] *)
Definition calculateLayoutIn (node : MindmapNode) : option (PositionIn N) :=
  layoutNodeIn node (a_ofNat A 0) (a_ofNat A 0).

(** [flattenPositions(root)] *)
Fixpoint flattenPositionsIn (root : PositionIn N) : list (PositionIn N) :=
  foldl (λ result child, result ++ flattenPositionsIn child) [root]
        (g_children root).

End Engine.

(** Exact arithmetic. *)
Definition exact : Arith Q :=
  mkArith Q Qplus Qminus Qmult Qdiv Qmax (λ n, inject_Z (Z.of_nat n)).

(** [Math.max] on doubles: [NaN] if either argument is, the greater
    argument otherwise, and [+0] for a zero of each sign. *)
Definition maxDouble (a b : PrimFloat.float) : PrimFloat.float :=
  if PrimFloat.is_nan a || PrimFloat.is_nan b then PrimFloat.nan
  else if PrimFloat.ltb a b then b
  else if PrimFloat.ltb b a then a
  else if PrimFloat.is_zero a then PrimFloat.add a b
  else a.

(** IEEE 754 binary64 with rounding to nearest, ties to even: the numbers
    of the engine.  Integer literals and string lengths are far below
    [2^53] and convert exactly. *)
Definition doubles : Arith PrimFloat.float :=
  mkArith PrimFloat.float PrimFloat.add PrimFloat.sub PrimFloat.mul PrimFloat.div
          maxDouble
          (λ n, PrimFloat.of_uint63 (Uint63Axioms.of_Z (Z.of_nat n))).

(** The position tree over [Q] as a [NodePosition]. *)
Fixpoint toPosition (g : PositionIn Q) : NodePosition :=
  mkPos (g_node g) (g_x g) (g_y g) (g_width g) (g_height g)
        (map toPosition (g_children g)).

(** The rational that a finite double is. *)
(** The rational a finite double stands for, in lowest terms. *)
Definition valueOf (f : PrimFloat.float) : option Q :=
  match FloatOps.Prim2SF f with
  | SpecFloat.S754_zero _ => Some 0%Q
  | SpecFloat.S754_finite s m e =>
      let v := (inject_Z (Z.pos m) * Qpower 2 e)%Q in
      Some (Qred (if s then (- v)%Q else v))
  | _ => None
  end.

(** The [x] and [y] of every position of a layout in doubles, as
    rationals. *)
Definition coordinates (g : PositionIn PrimFloat.float) : list (option Q * option Q) :=
  map (λ q, (valueOf (g_x q), valueOf (g_y q))) (flattenPositionsIn g).

(** The greatest [y + height] over a subtree laid out in doubles. *)
Definition bottomOf (g : PositionIn PrimFloat.float) : PrimFloat.float :=
  foldr maxDouble (PrimFloat.add (g_y g) (g_height g))
        (map (λ q, PrimFloat.add (g_y q) (g_height q)) (flattenPositionsIn g)).

(** Whether at every position with children, [lastChild.y +
    getSubtreeHeight(lastChild)], as the engine computes it, is the
    greatest [y + height] over the subtree of the last child. *)
Definition centredOnBottoms (g : PositionIn PrimFloat.float) : bool :=
  forallb (λ q, match last (g_children q) with
                | None => true
                | Some lastChild =>
                    match getSubtreeHeightIn doubles lastChild with
                    | Some h => PrimFloat.eqb (PrimFloat.add (g_y lastChild) h)
                                              (bottomOf lastChild)
                    | None => false
                    end
                end)
          (flattenPositionsIn g).

(** A node with two leaves, [n] single-child levels above it: the outline
    of [n + 3] lines that steps one level down on each line but the last. *)
Definition two_leaves : MindmapNode :=
  mkNode [] (lit "c") [leaf "a"; leaf "b"] None.

Fixpoint nest (n : nat) (t : MindmapNode) : MindmapNode :=
  match n with
  | 0 => t
  | S n' => mkNode [] (lit "n") [nest n' t] None
  end.

(** The root's [y] of that tree in the doubles of the engine. *)
Definition rootY (n : nat) : option Q :=
  (g_y <$> calculateLayoutIn doubles (nest n two_leaves)) ≫= valueOf.

(** The bottom edge of a subtree: the greatest [y + height] among its
    positions. *)
Definition subtreeBottom (pos : NodePosition) : Q :=
  foldr Qmax (p_y pos + p_height pos)%Q
        (map (λ q, p_y q + p_height q)%Q (flattenPositions pos)).

(** ECMAScript's LineTerminator code points: line feed, carriage return,
    line separator and paragraph separator. *)
Definition isLineTerminator (c : char) : bool :=
  bool_decide (c ∈ [10; 13; 8232; 8233]%N).

(** Every frame records as its level [base] plus the number of frames
    below it. *)
Fixpoint heights (base : nat) (frames : list frame) : Prop :=
  match frames with
  | [] => True
  | f :: below => f_level f = base + length below ∧ heights base below
  end.

(** A well-indented run of levels after a line of level [prev], over a
    first line of level [base]: every level is more than [base] and at most
    one more than the level before it. *)
Fixpoint stepsUp (base prev : nat) (levels : list nat) : bool :=
  match levels with
  | [] => true
  | l :: ls => (base + 1 <=? l) && (l <=? prev + 1) && stepsUp base l ls
  end.

(** A line with its level counted from [base]. *)
Definition outlineFrom (base : nat) (line : ParsedLine) : str * nat :=
  (pl_text line, pl_level line - base).

(** An outline indented as a whole: its first line has level 2. *)
Definition ex_indented : str := lit "    A" ++ [LF] ++ lit "      B".

(** * Properties *)

(** ** Induction over trees *)

Lemma node_ind (P : MindmapNode → Prop) :
  (∀ i t cs col, Forall P cs → P (mkNode i t cs col)) → ∀ n, P n.
Proof.
  intros step. fix IH 1. intros [i t cs col]. apply step.
  induction cs as [|c cs IHcs]; constructor; [apply IH | exact IHcs].
Qed.

Lemma shape_ind (P : Shape → Prop) :
  (∀ t ss, Forall P ss → P (Item t ss)) → ∀ s, P s.
Proof.
  intros step. fix IH 1. intros [t ss]. apply step.
  induction ss as [|c ss IHss]; constructor; [apply IH | exact IHss].
Qed.

Lemma pos_ind (P : NodePosition → Prop) :
  (∀ n x y w h cs, Forall P cs → P (mkPos n x y w h cs)) → ∀ p, P p.
Proof.
  intros step. fix IH 1. intros [n x y w h cs]. apply step.
  induction cs as [|c cs IHcs]; constructor; [apply IH | exact IHcs].
Qed.

(** ** Strings: [trim], [split], [join] *)

Lemma dropWhile_head {A} (f : A → bool) l c :
  head (dropWhile f l) = Some c → f c = false.
Proof.
  induction l as [|a l IH]; simpl; [done|].
  destruct (f a) eqn:E; [exact IH|]. simpl. congruence.
Qed.

Lemma dropWhile_split {A} (f : A → bool) l :
  l = takeWhile f l ++ dropWhile f l.
Proof.
  induction l as [|a l IH]; simpl; [done|].
  destruct (f a); simpl; congruence.
Qed.

Lemma dropWhile_stable {A} (f : A → bool) l :
  (∀ c, head l = Some c → f c = false) → dropWhile f l = l.
Proof. destruct l as [|a l]; simpl; [done|]. intros H. by rewrite (H a). Qed.

Lemma takeWhile_app {A} (f : A → bool) l1 l2 :
  Forall (λ a, f a = true) l1 →
  takeWhile f (l1 ++ l2) = l1 ++ takeWhile f l2.
Proof. induction 1 as [|a l Ha _ IH]; simpl; [done|]. by rewrite Ha, IH. Qed.

Lemma dropWhile_app {A} (f : A → bool) l1 l2 :
  Forall (λ a, f a = true) l1 →
  dropWhile f (l1 ++ l2) = dropWhile f l2.
Proof. induction 1 as [|a l Ha _ IH]; simpl; [done|]. by rewrite Ha. Qed.

Lemma takeWhile_stop {A} (f : A → bool) l :
  (∀ c, head l = Some c → f c = false) → takeWhile f l = [].
Proof. destruct l as [|a l]; simpl; [done|]. intros H. by rewrite (H a). Qed.

Lemma elem_of_dropWhile {A} (f : A → bool) l x : x ∈ dropWhile f l → x ∈ l.
Proof.
  intros H. rewrite (dropWhile_split f l). apply elem_of_app. by right.
Qed.

Lemma elem_of_trim s c : c ∈ trim s → c ∈ s.
Proof.
  unfold trim. rewrite elem_of_reverse. intros H%elem_of_dropWhile.
  rewrite elem_of_reverse in H. by apply elem_of_dropWhile in H.
Qed.

Lemma trim_last s c : last (trim s) = Some c → isWhiteSpace c = false.
Proof. unfold trim. rewrite last_reverse. apply dropWhile_head. Qed.

Lemma trim_head s c : head (trim s) = Some c → isWhiteSpace c = false.
Proof.
  unfold trim. set (a := dropWhile isWhiteSpace s).
  intros H. apply (dropWhile_head isWhiteSpace s). fold a.
  pose proof (dropWhile_split isWhiteSpace (reverse a)) as E.
  apply (f_equal reverse) in E. rewrite reverse_involutive, reverse_app in E.
  rewrite E. apply head_app_Some. by left.
Qed.

(** A text without white space at its ends is left alone by [trim]. *)
Lemma trim_clean t : cleanText t → trim t = t.
Proof.
  intros (_ & _ & Hh & Hl). unfold trim.
  rewrite (dropWhile_stable _ t Hh).
  rewrite dropWhile_stable; [apply reverse_involutive|].
  intros c. rewrite head_reverse. apply Hl.
Qed.

Lemma trim_cleanText line :
  LF ∉ line → trim line ≠ [] → cleanText (trim line).
Proof.
  intros HLF Hne. split; [done|]. split; [|split].
  - intros H. apply HLF. by apply elem_of_trim.
  - apply trim_head.
  - apply trim_last.
Qed.

Lemma split_nonempty sep s : split sep s ≠ [].
Proof.
  destruct s as [|c s]; simpl; [done|].
  case_bool_decide; [done|]. by destruct (split sep s).
Qed.

Lemma split_pieces sep s piece : piece ∈ split sep s → sep ∉ piece.
Proof.
  revert piece. induction s as [|c s IH]; simpl; intros piece.
  - intros ->%list_elem_of_singleton. apply not_elem_of_nil.
  - case_bool_decide as Hc.
    + intros [->|H]%elem_of_cons; [apply not_elem_of_nil | by apply IH].
    + destruct (split sep s) as [|p ps].
      * intros ->%list_elem_of_singleton.
        intros [->|H]%elem_of_cons; [done | by apply not_elem_of_nil in H].
      * intros [->|H]%elem_of_cons.
        -- intros [->|H]%elem_of_cons; [done|].
           revert H. apply IH. by left.
        -- apply IH. by right.
Qed.

Lemma split_app_sep sep a b :
  sep ∉ a → split sep (a ++ sep :: b) = a :: split sep b.
Proof.
  induction a as [|c a IH]; simpl; intros Ha.
  - by rewrite bool_decide_eq_true_2.
  - rewrite bool_decide_eq_false_2 by (intros ->; apply Ha; by left).
    rewrite IH; [done|]. intros H. apply Ha. by right.
Qed.

Lemma split_no_sep sep a : sep ∉ a → split sep a = [a].
Proof.
  induction a as [|c a IH]; simpl; intros Ha; [done|].
  rewrite bool_decide_eq_false_2 by (intros ->; apply Ha; by left).
  rewrite IH; [done|]. intros H. apply Ha. by right.
Qed.

Lemma split_join sep parts :
  parts ≠ [] → Forall (λ p, sep ∉ p) parts →
  split sep (join [sep] parts) = parts.
Proof.
  intros Hne Hall. induction Hall as [|p ps Hp Hps IH]; [done|].
  destruct ps as [|q ps]; simpl.
  - by apply split_no_sep.
  - rewrite split_app_sep by done. f_equal. by apply IH.
Qed.

Lemma join_app sep l1 l2 :
  l1 ≠ [] → l2 ≠ [] → join sep (l1 ++ l2) = join sep l1 ++ sep ++ join sep l2.
Proof.
  intros H1 H2. induction l1 as [|p l1 IH]; [done|].
  destruct l1 as [|q l1].
  - simpl. by destruct l2.
  - change (join sep ((p :: q :: l1) ++ l2))
      with (p ++ sep ++ join sep ((q :: l1) ++ l2)).
    rewrite IH by done. simpl. by rewrite <- !(assoc_L (++)).
Qed.

(** ** The lines the parser keeps *)

Lemma parseLinesFrom_length index lines :
  length (parseLinesFrom index lines)
  = length (filter (λ line, trim line ≠ []) lines).
Proof.
  revert index. induction lines as [|line lines IH]; intros index; simpl; [done|].
  rewrite filter_cons. destruct (decide (trim line = [])) as [E|E].
  - rewrite decide_False by (intros H; by apply H). apply IH.
  - rewrite decide_True by done. simpl. by rewrite IH.
Qed.

Lemma parseLinesFrom_texts index lines :
  pl_text <$> parseLinesFrom index lines
  = trim <$> filter (λ line, trim line ≠ []) lines.
Proof.
  revert index. induction lines as [|line lines IH]; intros index; simpl; [done|].
  rewrite filter_cons. destruct (decide (trim line = [])) as [E|E].
  - rewrite decide_False by (intros H; by apply H). apply IH.
  - rewrite decide_True by done. simpl. by rewrite IH.
Qed.

Lemma parseLines_length text :
  length (parseLines text) = length (nonBlankLines text).
Proof. apply parseLinesFrom_length. Qed.

Lemma parseLines_texts text :
  pl_text <$> parseLines text = trim <$> nonBlankLines text.
Proof. apply parseLinesFrom_texts. Qed.

Lemma parseLinesFrom_clean index lines :
  Forall (λ line, LF ∉ line) lines →
  Forall (λ l, cleanText (pl_text l)) (parseLinesFrom index lines).
Proof.
  intros H. revert index. induction H as [|line lines Hl _ IH]; intros index; simpl.
  - constructor.
  - destruct (decide (trim line = [])); [apply IH|].
    constructor; [|apply IH]. simpl. by apply trim_cleanText.
Qed.

Lemma parseLines_clean text :
  Forall (λ l, cleanText (pl_text l)) (parseLines text).
Proof.
  apply parseLinesFrom_clean, Forall_forall. intros line. apply split_pieces.
Qed.

(** ** The heap construction computes [buildShape] *)

Lemma Forall2_Forall_r {A B} (R R' : A → B → Prop) l k :
  Forall (λ y, ∀ x, R x y → R' x y) k → Forall2 R l k → Forall2 R' l k.
Proof.
  intros Hk H. induction H as [|x y l k Hxy _ IH]; [constructor|].
  apply Forall_cons in Hk as [Hy Hk]. constructor; auto.
Qed.

Lemma rep_agree h h' hi s a :
  (∀ b, a ≤ b → b < hi → h' !! b = h !! b) → rep h hi a s → rep h' hi a s.
Proof.
  revert a. induction s as [t ss IH] using shape_ind. intros a Hag Hrep.
  inversion Hrep as [a' o ss' Ho Hlt Hkids]; subst.
  constructor; [by rewrite Hag by lia | done |].
  eapply Forall2_Forall_r; [|exact Hkids].
  eapply Forall_impl; [exact IH|]. simpl. intros s Hs c [Hac Hc].
  split; [done|]. apply Hs; [|done]. intros b ? ?. apply Hag; lia.
Qed.

Lemma rep_mono h hi hi' s a : hi ≤ hi' → rep h hi a s → rep h hi' a s.
Proof.
  intros Hle. revert a. induction s as [t ss IH] using shape_ind. intros a Hrep.
  inversion Hrep as [a' o ss' Ho Hlt Hkids]; subst.
  constructor; [done | lia |].
  eapply Forall2_Forall_r; [|exact Hkids].
  eapply Forall_impl; [exact IH|]. simpl. intros s Hs c [Hac Hc]. auto.
Qed.

Lemma mapM_shapes (f : addr → option MindmapNode) cs ss :
  Forall2 (λ c s, ∃ t, f c = Some t ∧ shape t = s) cs ss →
  ∃ ts, mapM f cs = Some ts ∧ map shape ts = ss.
Proof.
  induction 1 as [|c s cs ss (t & Ht & Hs) _ (ts & Hts & Hss)].
  - by exists [].
  - exists (t :: ts). simpl. rewrite Ht. simpl. rewrite Hts. simpl.
    by rewrite Hs, Hss.
Qed.

Lemma reify_S fuel h a :
  reify (S fuel) h a
  = (o ← h !! a; cs ← mapM (reify fuel h) (o_children o);
     Some (mkNode (o_id o) (o_text o) cs None)).
Proof. reflexivity. Qed.

Lemma rep_reify h hi s a fuel :
  rep h hi a s → hi - a ≤ fuel → ∃ t, reify fuel h a = Some t ∧ shape t = s.
Proof.
  revert a fuel. induction s as [t ss IH] using shape_ind. intros a fuel Hrep Hfuel.
  inversion Hrep as [a' o ss' Ho Hlt Hkids]; subst.
  destruct fuel as [|fuel]; [lia|]. rewrite reify_S, Ho. simpl.
  destruct (mapM_shapes (reify fuel h) (o_children o) ss) as (ts & Hts & Hss).
  { eapply Forall2_Forall_r; [|exact Hkids].
    eapply Forall_impl; [exact IH|]. simpl. intros s Hs c [Hac Hc].
    apply Hs; [done | lia]. }
  rewrite Hts. simpl. eexists. split; [done|]. simpl. by rewrite Hss.
Qed.

Lemma sim_agree h h' hi above stack frames :
  (∀ b, b < hi → h' !! b = h !! b) →
  sim h hi above stack frames → sim h' hi above stack frames.
Proof.
  intros Hag Hsim. induction Hsim as [|hi above e stack f frames o cs
    Hlev Hlt Ho Htext Hcs Hkids Hsim IH]; [constructor|].
  apply sim_cons with (o := o) (cs := cs); try done.
  - by rewrite Hag.
  - eapply Forall2_impl; [exact Hkids|]. simpl. intros c s [Hc Hr].
    split; [done|]. eapply rep_agree; [|exact Hr]. auto.
  - apply IH. intros b Hb. apply Hag. lia.
Qed.

Lemma sim_length h hi above stack frames :
  sim h hi above stack frames → length stack = length frames.
Proof. induction 1; simpl; auto. Qed.

(** Popping one entry closes one frame. *)
Lemma sim_pop h hi e1 e2 stack f1 f2 frames :
  sim h hi [] (e1 :: e2 :: stack) (f1 :: f2 :: frames) →
  sim h hi [] (e2 :: stack) (adopt (close f1) f2 :: frames).
Proof.
  intros H1.
  inversion H1 as [|? ? ? ? ? ? o1 cs1 Hlev1 Hlt1 Ho1 Ht1 Hcs1 Hk1 H2]; subst.
  inversion H2 as [|? ? ? ? ? ? o2 cs2 Hlev2 Hlt2 Ho2 Ht2 Hcs2 Hk2 H3]; subst.
  rewrite app_nil_r in Hcs1.
  apply sim_cons with (o := o2) (cs := cs2 ++ [e_node e1]); simpl; auto.
  - lia.
  - by rewrite app_nil_r.
  - apply Forall2_app.
    + eapply Forall2_impl; [exact Hk2|]. simpl. intros c s [Hc Hr].
      split; [done|]. eapply rep_mono; [|exact Hr]. lia.
    + constructor; [|constructor]. split; [done|].
      unfold close. rewrite <- Ht1. constructor; [done | done |].
      by rewrite Hcs1.
Qed.

Lemma sim_popWhile h hi level e stack f frames :
  sim h hi [] (e :: stack) (f :: frames) →
  ∃ e' stack', popWhile level (e :: stack) = e' :: stack' ∧
    sim h hi [] (e' :: stack')
        ((popFrames level f frames).1 :: (popFrames level f frames).2).
Proof.
  revert e f frames. induction stack as [|e2 stack IH]; intros e f frames Hsim.
  - pose proof (sim_length _ _ _ _ _ Hsim) as Hlen.
    destruct frames; [|done]. exists e, []. by split.
  - pose proof (sim_length _ _ _ _ _ Hsim) as Hlen.
    destruct frames as [|f2 frames]; [done|].
    assert (e_level e = f_level f) as Hlev by (by inversion Hsim).
    simpl. rewrite Hlev. destruct (decide (level ≤ f_level f)).
    + apply IH. by apply (sim_pop _ _ e).
    + exists e, (e2 :: stack). by split.
Qed.

Section ParserCorrect.

Variable generateId : nat → str.

(** One iteration of the loop, on the heap and on frames. *)
Lemma sim_step h stack top below line :
  sim h (length h) [] stack (top :: below) →
  ∃ h' stack',
    step generateId (h, stack) line = Some (h', stack') ∧
    sim h' (length h') [] stack'
        ((pushLine (top, below) (outlineOf line)).1
           :: (pushLine (top, below) (outlineOf line)).2).
Proof.
  intros Hsim.
  pose proof (sim_length _ _ _ _ _ Hsim) as Hlen.
  destruct stack as [|e stack]; [done|].
  set (n := length h). set (new := newObj generateId h (pl_text line)).
  assert (sim (h ++ [new]) n [] (e :: stack) (top :: below)) as Hsim1.
  { eapply sim_agree; [|exact Hsim]. intros b Hb. by rewrite lookup_app_l. }
  destruct (sim_popWhile _ _ (pl_level line) _ _ _ _ Hsim1)
    as (e' & stack' & Hpop & Hsim2).
  unfold step. fold n new. rewrite Hpop. simpl.
  unfold pushLine, outlineOf. simpl.
  destruct (popFrames (pl_level line) top below) as [top' below'] eqn:Hpf.
  simpl in *.
  inversion Hsim2 as [|? ? ? ? ? ? o cs Hlev Hlt Ho Ht Hcs Hk Hsim3]; subst.
  rewrite Ho. simpl. eexists _, _. split; [done|].
  rewrite length_insert, length_app. simpl.
  rewrite app_nil_r in Hcs.
  assert (e_node e' < length (h ++ [new])) as Hlt1
    by (rewrite length_app; simpl; fold n; lia).
  apply sim_cons with (o := new) (cs := []); simpl; auto.
  - fold n. lia.
  - rewrite list_lookup_insert_ne by (fold n in Hlt; lia).
    fold n. by rewrite lookup_app_r, Nat.sub_diag by lia.
  - replace (n + 1) with (S n) by lia.
    eapply sim_cons with (cs := cs); simpl; auto.
    + by rewrite list_lookup_insert_eq.
    + done.
    + by rewrite Hcs.
    + eapply Forall2_impl; [exact Hk|]. simpl. intros c s [Hc Hr].
      split; [done|]. eapply rep_agree; [|exact Hr].
      intros b ? ?. apply list_lookup_insert_ne. lia.
    + eapply sim_agree; [|exact Hsim3].
      intros b ?. apply list_lookup_insert_ne. lia.
Qed.

Lemma sim_run lines : ∀ h stack top below,
  sim h (length h) [] stack (top :: below) →
  ∃ h' stack',
    run generateId (h, stack) lines = Some (h', stack') ∧
    sim h' (length h') [] stack'
        ((feed (top, below) (outlineOf <$> lines)).1
           :: (feed (top, below) (outlineOf <$> lines)).2).
Proof.
  induction lines as [|line lines IH]; intros h stack top below Hsim.
  - by exists h, stack.
  - destruct (sim_step _ _ _ _ line Hsim) as (h1 & stack1 & Hstep & Hsim1).
    cbn [run]. rewrite Hstep. cbn [mbind option_bind].
    destruct (pushLine (top, below) (outlineOf line)) as [top1 below1] eqn:E.
    unfold feed in *. cbn [fmap list_fmap foldl]. rewrite E. by apply IH.
Qed.

End ParserCorrect.

Lemma popFrames_zero top below : (popFrames 0 top below).2 = [].
Proof.
  revert top. induction below as [|parent rest IH]; intros top; [done|].
  cbn [popFrames]. destruct (decide (0 ≤ f_level top)); [apply IH | lia].
Qed.

Lemma sim_root h hi above stack frames e :
  sim h hi above stack frames → last stack = Some e → e_node e = root.
Proof.
  induction 1 as [|hi above e' stack f frames o cs _ _ _ _ _ _ Hsim IH]; [done|].
  destruct stack as [|e2 stack].
  - simpl. intros [= ->]. by inversion Hsim.
  - rewrite last_cons_cons. exact IH.
Qed.

Lemma sim_valid h hi above stack frames e :
  sim h hi above stack frames → e ∈ stack → is_Some (h !! e_node e).
Proof.
  induction 1 as [|hi above e' stack f frames o cs _ _ Ho _ _ _ Hsim IH].
  - by intros ?%elem_of_nil.
  - intros [->|He]%elem_of_cons; [by exists o | auto].
Qed.

Lemma sim_finish h stack top below :
  sim h (length h) [] stack (top :: below) →
  ∃ t, reify (length h) h root = Some t ∧ shape t = finish (top, below).
Proof.
  intros Hsim. pose proof (sim_length _ _ _ _ _ Hsim) as Hlen.
  destruct stack as [|e stack]; [done|].
  destruct (sim_popWhile _ _ 0 _ _ _ _ Hsim) as (e' & stack' & _ & Hsim').
  unfold finish. simpl. rewrite popFrames_zero in Hsim'.
  pose proof (sim_length _ _ _ _ _ Hsim') as Hlen'.
  destruct stack'; [|done].
  rewrite <- (sim_root _ _ _ _ _ e' Hsim' eq_refl).
  inversion Hsim' as [|? ? ? ? ? ? o cs Hlev Hlt Ho Ht Hcs Hk _]; subst.
  rewrite app_nil_r in Hcs. apply rep_reify with (hi := length h); [|lia].
  unfold close. rewrite <- Ht. constructor; [done | done | by rewrite Hcs].
Qed.

Section ParserShape.

Variable generateId : nat → str.

Lemma sim_initial first :
  sim (initial generateId first).1 1 [] (initial generateId first).2
      [{| f_text := pl_text first; f_level := pl_level first; f_done := [] |}].
Proof.
  apply sim_cons with (o := newObj generateId [] (pl_text first)) (cs := []);
    simpl; auto; constructor.
Qed.

(** The tree that [parseTextToTree] returns has the shape that the pure
    construction builds from the kept lines; in particular it returns. *)
Lemma parse_shape text :
  ∃ t, parseTextToTree generateId text = Some t ∧
       shape t = buildShape (parseLines text).
Proof.
  unfold parseTextToTree. destruct (parseLines text) as [|first rest].
  - by eexists.
  - rewrite decide_False by done. cbn [lookup list_lookup mbind option_bind drop].
    destruct (sim_run generateId rest _ _ _ _ (sim_initial first))
      as (h & stack & Hrun & Hsim).
    change ((initial generateId first).1, (initial generateId first).2)
      with (initial generateId first) in Hrun.
    rewrite drop_0, Hrun. cbn [mbind option_bind fst].
    destruct (feed _ _) as [top below] eqn:E. simpl in Hsim.
    destruct (sim_finish _ _ _ _ Hsim) as (t & Ht & Hshape).
    exists t. split; [done|]. unfold buildShape. by rewrite E.
Qed.

End ParserShape.

(** ** Size, texts and root of the built shape *)

Lemma foldl_count {A} (g : A → nat) l a :
  foldl (λ count x, count + g x) a l = a + list_sum (map g l).
Proof.
  revert a. induction l as [|x l IH]; intros a; simpl; [lia|].
  rewrite IH. lia.
Qed.

Lemma countNodes_shape node : countNodes node = shapeSize (shape node).
Proof.
  induction node as [i t cs col IH] using node_ind. simpl.
  rewrite foldl_count. f_equal. f_equal.
  induction IH as [|c cs Hc _ IHcs]; simpl; [done|]. by rewrite Hc, IHcs.
Qed.

Lemma popFrames_size level top below :
  stateSize (popFrames level top below) = stateSize (top, below).
Proof.
  revert top. induction below as [|parent rest IH]; intros top; [done|].
  cbn [popFrames]. destruct (decide (level ≤ f_level top)); [|done].
  rewrite IH. unfold stateSize, frameSize. simpl.
  rewrite map_app, list_sum_app. simpl. lia.
Qed.

Lemma pushLine_size st line : stateSize (pushLine st line) = S (stateSize st).
Proof.
  unfold pushLine. pose proof (popFrames_size line.2 st.1 st.2) as H.
  destruct (popFrames line.2 st.1 st.2) as [top below].
  destruct st as [top0 below0]. unfold stateSize in *. simpl in *. lia.
Qed.

Lemma feed_size lines st : stateSize (feed st lines) = stateSize st + length lines.
Proof.
  revert st. induction lines as [|line lines IH]; intros st;
    unfold feed in *; cbn [foldl length]; [lia|].
  rewrite IH, pushLine_size. lia.
Qed.

Lemma finish_size st : shapeSize (finish st) = stateSize st.
Proof.
  destruct st as [top below0]. unfold finish. cbn [fst snd].
  rewrite <- (popFrames_size 0 top below0).
  pose proof (popFrames_zero top below0) as H.
  destruct (popFrames 0 top below0) as [f below]. simpl in *. subst below.
  unfold stateSize, frameSize. simpl. lia.
Qed.

Lemma buildShape_size first rest :
  shapeSize (buildShape (first :: rest)) = S (length rest).
Proof.
  unfold buildShape. rewrite finish_size, feed_size, length_fmap. done.
Qed.


Lemma popFrames_texts P level top below :
  frameTexts P top → Forall (frameTexts P) below →
  frameTexts P (popFrames level top below).1 ∧
  Forall (frameTexts P) (popFrames level top below).2.
Proof.
  revert top. induction below as [|parent rest IH]; intros top Htop Hbelow; [done|].
  cbn [popFrames]. destruct (decide (level ≤ f_level top)); [|done].
  apply Forall_cons in Hbelow as [[Hp Hpd] Hrest]. apply IH; [|done].
  split; [done|]. simpl. apply Forall_app. split; [done|].
  constructor; [|constructor]. simpl. constructor; [apply Htop|].
  apply Forall_flat_map. apply Htop.
Qed.

Lemma feed_texts P lines : ∀ st,
  frameTexts P st.1 → Forall (frameTexts P) st.2 → Forall (λ l, P l.1) lines →
  frameTexts P (feed st lines).1 ∧ Forall (frameTexts P) (feed st lines).2.
Proof.
  induction lines as [|line lines IH]; intros st H1 H2 Hl; [done|].
  apply Forall_cons in Hl as [Hline Hl].
  unfold feed in *. simpl. apply IH; [| |done].
  - unfold pushLine. destruct (popFrames _ _ _). simpl. by split.
  - unfold pushLine.
    destruct (popFrames_texts P line.2 st.1 st.2 H1 H2) as [Ha Hb].
    destruct (popFrames _ _ _). simpl in *. by constructor.
Qed.

Lemma buildShape_texts (P : str → Prop) first rest :
  Forall (λ l, P (pl_text l)) (first :: rest) →
  Forall P (shapeTexts (buildShape (first :: rest))).
Proof.
  intros [Hf Hr]%Forall_cons. unfold buildShape, finish.
  set (st := feed _ _).
  assert (frameTexts P st.1 ∧ Forall (frameTexts P) st.2) as [H1 H2].
  { apply feed_texts; simpl; [by split | constructor |].
    apply Forall_fmap. exact Hr. }
  destruct (popFrames_texts P 0 st.1 st.2 H1 H2) as [[Ha Hb] _].
  simpl. constructor; [done|]. by apply Forall_flat_map.
Qed.

Lemma nodesOf_texts node : map n_text (nodesOf node) = shapeTexts (shape node).
Proof.
  induction node as [i t cs col IH] using node_ind. simpl. f_equal.
  induction IH as [|c cs Hc _ IHcs]; simpl; [done|].
  by rewrite map_app, Hc, IHcs.
Qed.

(** The root of the built shape is the first kept line, and it is childless
    exactly when no other line was kept. *)

Lemma popFrames_bottom_text level top below :
  f_text (bottom (popFrames level top below)) = f_text (bottom (top, below)).
Proof.
  revert top. induction below as [|parent rest IH]; intros top; [done|].
  cbn [popFrames]. destruct (decide (level ≤ f_level top)); [|done].
  rewrite IH. unfold bottom. cbn [fst snd]. destruct rest as [|f rest]; [done|].
  rewrite last_cons_cons. destruct (last (f :: rest)) eqn:E; [done|].
  by apply last_None in E.
Qed.

Lemma pushLine_bottom_text st line :
  f_text (bottom (pushLine st line)) = f_text (bottom st).
Proof.
  destruct st as [top0 below0]. unfold pushLine. cbn [fst snd].
  rewrite <- (popFrames_bottom_text line.2 top0 below0).
  destruct (popFrames line.2 top0 below0) as [top below].
  unfold bottom. cbn [fst snd]. destruct below as [|f below]; [done|].
  rewrite last_cons_cons. destruct (last (f :: below)) eqn:E; [done|].
  by apply last_None in E.
Qed.

Lemma feed_bottom_text lines st :
  f_text (bottom (feed st lines)) = f_text (bottom st).
Proof.
  revert st. induction lines as [|line lines IH]; intros st; [done|].
  unfold feed in *. simpl. by rewrite IH, pushLine_bottom_text.
Qed.

Lemma buildShape_root_text first rest :
  i_text (buildShape (first :: rest)) = pl_text first.
Proof.
  unfold buildShape, finish. set (st := feed _ _).
  pose proof (popFrames_bottom_text 0 st.1 st.2) as H.
  pose proof (popFrames_zero st.1 st.2) as Hz.
  destruct (popFrames 0 st.1 st.2) as [f below]. simpl in *. subst below.
  unfold bottom in H at 1. simpl in H. rewrite H.
  replace (st.1, st.2) with st by (by destruct st).
  unfold st. by rewrite feed_bottom_text.
Qed.

Lemma popFrames_zero_adopts top parent rest :
  f_done (popFrames 0 top (parent :: rest)).1 ≠ [].
Proof.
  revert top parent. induction rest as [|f rest IH]; intros top parent.
  - cbn [popFrames]. destruct (decide (0 ≤ f_level top)); [|lia].
    simpl. by destruct (f_done parent).
  - cbn [popFrames]. destruct (decide (0 ≤ f_level top)); [|lia].
    apply (IH (adopt (close top) parent) f).
Qed.

Lemma feed_pushed line lines st : (feed st (line :: lines)).2 ≠ [].
Proof.
  unfold feed. simpl.
  assert ((pushLine st line).2 ≠ []) as H
    by (unfold pushLine; by destruct (popFrames _ _ _)).
  revert H. generalize (pushLine st line). clear st line.
  induction lines as [|line lines IH]; intros st H; [done|].
  simpl. apply IH. unfold pushLine. by destruct (popFrames _ _ _).
Qed.

Lemma buildShape_root_items first rest :
  i_items (buildShape (first :: rest)) = [] ↔ rest = [].
Proof.
  split.
  - destruct rest as [|line rest]; [done|]. intros H. exfalso. revert H.
    unfold buildShape, finish. simpl.
    pose proof (feed_pushed (outlineOf line) (outlineOf <$> rest)
      ({| f_text := pl_text first; f_level := pl_level first; f_done := [] |}, []))
      as Hne.
    destruct (feed _ _) as [top below]. simpl in *.
    destruct below as [|parent below]; [done|]. apply popFrames_zero_adopts.
  - by intros ->.
Qed.

(** ** The parser: node count, node texts, placeholder *)

Example parse_example : parseTextToTree noIds ex_text = Some ex_tree.
Proof. vm_compute. reflexivity. Qed.

Example parseLines_example : parseLines ex_text = ex_first :: ex_rest.
Proof. vm_compute. reflexivity. Qed.

(** C3.  For every input text with [k >= 1] non-blank lines (lines whose
    trimmed content is not empty), [parseTextToTree] returns a tree and
    [countNodes] of that tree is [k]. *)
Theorem countNodes_nonblank_lines (generateId : nat → str) (text : str) (k : nat) :
  length (nonBlankLines text) = k → 1 ≤ k →
  ∃ t, parseTextToTree generateId text = Some t ∧ countNodes t = k.
Proof.
  intros Hk Hpos. destruct (parse_shape generateId text) as (t & Ht & Hshape).
  exists t. split; [done|]. rewrite countNodes_shape, Hshape.
  rewrite <- parseLines_length in Hk.
  destruct (parseLines text) as [|first rest]; simpl in Hk; [lia|].
  by rewrite buildShape_size.
Qed.

Lemma countNodes_nonblank_lines_witness :
  ∃ t, parseTextToTree noIds ex_text = Some t ∧ countNodes t = 6.
Proof.
  apply (countNodes_nonblank_lines noIds ex_text 6); [vm_compute; reflexivity | lia].
Defined.

Lemma placeholder_clean : cleanText (lit "Empty Mindmap").
Proof.
  split; [done|]. split; [|split].
  - apply (bool_decide_unpack _). vm_compute. reflexivity.
  - intros c [= <-]. reflexivity.
  - intros c [= <-]. reflexivity.
Qed.

Lemma parse_texts_clean generateId text t :
  parseTextToTree generateId text = Some t → Forall cleanText (shapeTexts (shape t)).
Proof.
  intros Hparse. destruct (parse_shape generateId text) as (t' & Ht & Hshape).
  rewrite Hparse in Ht. injection Ht as <-. rewrite Hshape.
  pose proof (parseLines_clean text) as Hclean.
  destruct (parseLines text) as [|first rest].
  - simpl. constructor; [apply placeholder_clean | constructor].
  - by apply buildShape_texts.
Qed.

Lemma isLineTerminator_cases c :
  isLineTerminator c = true → c = 10%N ∨ c = 13%N ∨ c = 8232%N ∨ c = 8233%N.
Proof.
  unfold isLineTerminator. intros H%bool_decide_eq_true.
  repeat (apply elem_of_cons in H as [-> | H]; [tauto|]).
  by apply elem_of_nil in H.
Qed.

Lemma isLineTerminator_isWhiteSpace c :
  isLineTerminator c = true → isWhiteSpace c = true.
Proof. intros [-> | [-> | [-> | ->]]]%isLineTerminator_cases; reflexivity. Qed.

Lemma cleanText_line_terminators t i c :
  cleanText t → t !! i = Some c → isLineTerminator c = true →
  c ∈ [13; 8232; 8233]%N ∧ 0 < i ∧ i < length t - 1.
Proof.
  intros (_ & Hlf & Hhead & Hlast) Hi Hc.
  pose proof (isLineTerminator_isWhiteSpace c Hc) as Hws.
  split_and!.
  - destruct (isLineTerminator_cases c Hc) as [-> | [-> | [-> | ->]]].
    + destruct Hlf. by apply list_elem_of_lookup_2 in Hi.
    + by left.
    + right. by left.
    + do 2 right. by left.
  - destruct i as [|i]; [|lia].
    rewrite (Hhead c) in Hws; [discriminate | by rewrite head_lookup].
  - pose proof (lookup_lt_Some _ _ _ Hi) as Hlt.
    destruct (decide (i = pred (length t))) as [-> | Hne]; [|lia].
    rewrite (Hlast c) in Hws; [discriminate | by rewrite last_lookup].
Qed.

(** C10, as stated, fails for line breaks other than the line feed: a
    carriage return, a line separator (U+2028) or a paragraph separator
    (U+2029) inside a line is not a separator for [split('\n')] and is kept
    in the node's text. *)
Lemma line_breaks_inside_a_text :
  parseTextToTree noIds [97; 13; 98]%N = Some (mkNode [] [97; 13; 98]%N [] None) ∧
  parseTextToTree noIds [97; 8232; 98]%N
  = Some (mkNode [] [97; 8232; 98]%N [] None) ∧
  parseTextToTree noIds [97; 8233; 98]%N
  = Some (mkNode [] [97; 8233; 98]%N [] None) ∧
  isLineTerminator 13%N = true ∧ isLineTerminator 8232%N = true ∧
  isLineTerminator 8233%N = true.
Proof. split_and!; vm_compute; reflexivity. Qed.

(** C10, amended.  Every node of a tree returned by [parseTextToTree] has
    a text that is not empty, contains no line feed (the one line break on
    which the input is split) and has no white space at its start or end.
    Any other line break in a text, a carriage return, a line separator or
    a paragraph separator, stands strictly inside it: neither first nor
    last. *)
Theorem node_texts_clean (generateId : nat → str) (text : str) :
  ∃ t, parseTextToTree generateId text = Some t ∧
       ∀ n, n ∈ nodesOf t →
            cleanText (n_text n) ∧
            ∀ i c, n_text n !! i = Some c → isLineTerminator c = true →
                   c ∈ [13; 8232; 8233]%N ∧ 0 < i ∧ i < length (n_text n) - 1.
Proof.
  destruct (parse_shape generateId text) as (t & Ht & _).
  exists t. split; [done|].
  pose proof (parse_texts_clean _ _ _ Ht) as H.
  rewrite <- nodesOf_texts in H.
  intros n Hn. rewrite Forall_forall in H.
  assert (cleanText (n_text n)) as Hclean.
  { apply H. apply (list_elem_of_fmap_2 n_text) in Hn. exact Hn. }
  split; [exact Hclean|].
  intros i c. by apply cleanText_line_terminators.
Qed.

(** A carriage return inside a line is not a separator for [split('\n')]
    and is kept in the node's text. *)
Example interior_carriage_return :
  parseTextToTree noIds [97; 13; 98]%N = Some (mkNode [] [97; 13; 98]%N [] None).
Proof. vm_compute. reflexivity. Qed.

Example parse_blank_inputs :
  parseTextToTree noIds [] = Some (mkNode [] (lit "Empty Mindmap") [] None) ∧
  parseTextToTree noIds (lit "   " ++ [LF; LF])
  = Some (mkNode [] (lit "Empty Mindmap") [] None).
Proof. split; vm_compute; reflexivity. Qed.

(** C6, as stated, fails: the input ["Empty Mindmap"] has a non-blank line,
    and yet [parseTextToTree] returns for it the very node it returns for
    the empty input. *)
Lemma placeholder_not_only_blank :
  length (nonBlankLines (lit "Empty Mindmap")) = 1 ∧
  length (nonBlankLines []) = 0 ∧
  parseTextToTree noIds (lit "Empty Mindmap") = parseTextToTree noIds [] ∧
  parseTextToTree noIds [] = Some (mkNode [] (lit "Empty Mindmap") [] None).
Proof. repeat split; vm_compute; reflexivity. Qed.

(** C6, amended.  [parseTextToTree] always returns normally.  When the
    input has no non-blank line the result is the fixed placeholder: text
    ["Empty Mindmap"], no children.  A result with that text and no
    children arises otherwise only when the input's single non-blank line
    is itself ["Empty Mindmap"] once trimmed. *)
Theorem placeholder_characterised (generateId : nat → str) (text : str) :
  ∃ t, parseTextToTree generateId text = Some t ∧
       (nonBlankLines text = [] →
        t = mkNode (generateId 0) (lit "Empty Mindmap") [] None) ∧
       (isPlaceholder t ↔
        nonBlankLines text = [] ∨
        trim <$> nonBlankLines text = [lit "Empty Mindmap"]).
Proof.
  destruct (parse_shape generateId text) as (t & Ht & Hshape).
  exists t. split; [done|].
  pose proof (parseLines_length text) as Hlen.
  pose proof (parseLines_texts text) as Htexts.
  assert (n_text t = i_text (shape t)) as Htext by (by destruct t).
  assert (n_children t = [] ↔ i_items (shape t) = []) as Hkids.
  { destruct t as [i tx cs col]. simpl. by destruct cs. }
  unfold isPlaceholder. rewrite Htext, Hkids, Hshape. clear Htext Hkids Hshape.
  split.
  - intros Hnone. unfold parseTextToTree in Ht.
    destruct (parseLines text); [|by rewrite Hnone in Hlen].
    simpl in Ht. congruence.
  - destruct (parseLines text) as [|first rest].
    + destruct (nonBlankLines text); [|done]. simpl. tauto.
    + rewrite buildShape_root_text, buildShape_root_items. rewrite <- Htexts.
      split.
      * intros [H1 ->]. right. simpl. by rewrite H1.
      * intros [Hn|Hs]; [by rewrite Hn in Hlen|].
        simpl in Hs. destruct rest; [|done]. by injection Hs.
Qed.

(** ** The attachment rule *)

Lemma popWhile_spec level stack :
  stack ≠ [] →
  ∃ popped parent kept,
    stack = popped ++ parent :: kept ∧
    popWhile level stack = parent :: kept ∧
    Forall (λ e, level ≤ e_level e) popped ∧
    (kept = [] ∨ e_level parent < level).
Proof.
  induction stack as [|e stack IH]; [done|]. intros _.
  destruct stack as [|e2 stack].
  - exists [], e, []. split_and!; auto.
  - cbn [popWhile]. destruct (decide (level ≤ e_level e)) as [Hle|Hgt].
    + destruct IH as (popped & parent & kept & Hst & Hpop & Hall & Hstop); [done|].
      exists (e :: popped), parent, kept.
      split_and!; [simpl; by rewrite Hst | exact Hpop | by constructor | done].
    + exists [], e, (e2 :: stack). split_and!; auto. right. lia.
Qed.

Lemma run_app generateId l1 l2 st :
  run generateId st (l1 ++ l2) = (st' ← run generateId st l1; run generateId st' l2).
Proof.
  revert st. induction l1 as [|line l1 IH]; intros st; [done|].
  cbn [app run]. destruct (step generateId st line) as [st1|]; [|done].
  cbn [mbind option_bind]. apply IH.
Qed.

Section Attachment.

Variable generateId : nat → str.

Lemma step_attach h stack frames line :
  sim h (length h) [] stack frames → stack ≠ [] →
  ∃ h' stack',
    step generateId (h, stack) line = Some (h', stack') ∧
    attachRule generateId line h stack h' stack'.
Proof.
  intros Hsim Hne.
  destruct (popWhile_spec (pl_level line) stack Hne)
    as (popped & parent & kept & Hst & Hpop & Hall & Hstop).
  destruct (sim_valid _ _ _ _ _ parent Hsim) as [o Ho].
  { rewrite Hst. apply elem_of_app. right. by left. }
  pose proof (lookup_lt_Some _ _ _ Ho) as Hlt.
  unfold step. rewrite Hpop. cbn [head mbind option_bind].
  rewrite (lookup_app_l_Some _ _ _ _ Ho). cbn [mbind option_bind].
  eexists _, _. split; [reflexivity|].
  exists popped, parent, kept, o. split_and!; try done.
  - apply list_lookup_insert_eq. rewrite length_app. simpl. lia.
  - rewrite list_lookup_insert_ne by lia.
    by rewrite lookup_app_r, Nat.sub_diag by lia.
  - rewrite length_insert, length_app. simpl. lia.
  - intros a Ha Hlta. rewrite list_lookup_insert_ne by done.
    by apply lookup_app_l.
  - intros Hall'. assert (kept = []) as ->.
    { destruct Hstop as [->|Hlev]; [done|].
      destruct kept as [|k kept]; [done|]. exfalso.
      assert (parent ∈ removelast stack) as Hin.
      { rewrite Hst. rewrite removelast_app by done.
        apply elem_of_app. right. by left. }
      specialize (Hall' parent Hin). lia. }
    split; [done|].
    apply (sim_root _ _ _ _ _ parent Hsim). rewrite Hst. apply last_snoc.
Qed.

End Attachment.

Lemma parseTextToTree_loop generateId text first rest :
  parseLines text = first :: rest →
  parseTextToTree generateId text
  = (st ← run generateId (initial generateId first) rest;
     reify (length st.1) st.1 root).
Proof.
  intros H. unfold parseTextToTree. rewrite H.
  by rewrite decide_False by done.
Qed.

(** C2.  In [parseTextToTree], the iteration for each kept line after the
    first pops the stack while the top entry's level is at least the line's
    level, never popping the root entry; appends the new node to the
    children of the entry then on top; and pushes the new node with the
    line's level.  Consequently a line whose level is at most that of
    every open ancestor other than the root is attached to the root.

    [(h, stack)] is the state the loop has reached before the line,
    [(h', stack')] the state after it, from which the rest of the loop and
    the result of [parseTextToTree] follow. *)
Theorem attachment_rule (generateId : nat → str) (text : str)
    (first : ParsedLine) (rest : list ParsedLine) (i : nat) (line : ParsedLine) :
  parseLines text = first :: rest → rest !! i = Some line →
  ∃ h stack h' stack',
    run generateId (initial generateId first) (take i rest) = Some (h, stack) ∧
    step generateId (h, stack) line = Some (h', stack') ∧
    parseTextToTree generateId text
      = (st ← run generateId (h', stack') (drop (S i) rest);
         reify (length st.1) st.1 root) ∧
    attachRule generateId line h stack h' stack'.
Proof.
  intros Hlines Hline.
  destruct (sim_run generateId (take i rest) _ _ _ _ (sim_initial generateId first))
    as (h & stack & Hrun & Hsim).
  change ((initial generateId first).1, (initial generateId first).2)
    with (initial generateId first) in Hrun.
  assert (stack ≠ []) as Hne.
  { intros ->. by apply sim_length in Hsim. }
  destruct (step_attach generateId h stack _ line Hsim Hne)
    as (h' & stack' & Hstep & Hrule).
  exists h, stack, h', stack'. split_and!; try done.
  rewrite (parseTextToTree_loop _ _ _ _ Hlines).
  rewrite <- (take_drop_middle rest i line Hline) at 1.
  rewrite run_app, Hrun. cbn [mbind option_bind run]. by rewrite Hstep.
Qed.

Lemma attachment_rule_witness :
  ∃ h stack h' stack',
    run noIds (initial noIds ex_first) (take 3 ex_rest) = Some (h, stack) ∧
    step noIds (h, stack) (mkLine (lit "Child 2") 1 5) = Some (h', stack') ∧
    parseTextToTree noIds ex_text
      = (st ← run noIds (h', stack') (drop 4 ex_rest);
         reify (length st.1) st.1 root) ∧
    attachRule noIds (mkLine (lit "Child 2") 1 5) h stack h' stack'.
Proof.
  apply (attachment_rule noIds ex_text ex_first ex_rest 3 (mkLine (lit "Child 2") 1 5));
    vm_compute; reflexivity.
Defined.

(** In the example, the line ["Child 2"] finds ["Grandchild 2"] and
    ["Child 1"] on the stack above the root, pops both and becomes the
    second child of the root. *)
Example attach_child_2 :
  ∃ h stack,
    run noIds (initial noIds ex_first) (take 3 ex_rest) = Some (h, stack) ∧
    stack = [mkEntry 3 2; mkEntry 1 1; mkEntry 0 0] ∧
    step noIds (h, stack) (mkLine (lit "Child 2") 1 5)
    = Some (<[0 := mkObj [] (lit "Root Node") [1; 4]]> (h ++ [mkObj [] (lit "Child 2") []]),
            [mkEntry 4 1; mkEntry 0 0]).
Proof. eexists _, _. split; [vm_compute; reflexivity|]. split; reflexivity. Qed.

(** ** Round trip *)

Lemma outline_texts level s : map fst (outline level s) = shapeTexts s.
Proof.
  revert level. induction s as [t ss IH] using shape_ind. intros level.
  simpl. f_equal. induction IH as [|c cs Hc _ IHcs]; simpl; [done|].
  by rewrite map_app, Hc, IHcs.
Qed.

Lemma children_text level kids :
  Forall (λ k, ∀ level, treeToText k level
                        = join [LF] (map render (outline level (shape k)))) kids →
  kids ≠ [] →
  join [LF] (map (λ child, treeToText child (level + 1)) kids)
  = join [LF] (map render (flat_map (outline (S level)) (map shape kids))).
Proof.
  intros IH Hne. induction IH as [|k kids Hk Hkids IHkids]; [done|].
  destruct kids as [|k2 kids].
  - simpl. by rewrite app_nil_r, Hk, Nat.add_1_r.
  - change (join [LF] (map (λ child, treeToText child (level + 1)) (k :: k2 :: kids)))
      with (treeToText k (level + 1) ++ [LF]
            ++ join [LF] (map (λ child, treeToText child (level + 1)) (k2 :: kids))).
    rewrite IHkids by done.
    change (flat_map (outline (S level)) (map shape (k :: k2 :: kids)))
      with (outline (S level) (shape k)
            ++ flat_map (outline (S level)) (map shape (k2 :: kids))).
    rewrite map_app, join_app, Hk, Nat.add_1_r; [done| |].
    + by destruct (shape k).
    + simpl. by destruct (shape k2).
Qed.

(** The text that [treeToText] writes is the outline of the tree's shape,
    one rendered line per node. *)
Lemma treeToText_outline node level :
  treeToText node level = join [LF] (map render (outline level (shape node))).
Proof.
  revert level. induction node as [i t cs col IH] using node_ind. intros level.
  destruct cs as [|c cs]; [reflexivity|].
  cbn [treeToText n_children n_text shape outline i_text i_items].
  rewrite (children_text level (c :: cs) IH) by done.
  cbn [map]. set (rest := map render _).
  assert (rest ≠ []) as Hrest.
  { unfold rest. simpl. by destruct (shape c). }
  unfold render at 1. simpl. destruct rest; [done|].
  by rewrite <- (assoc_L (++)).
Qed.

Lemma indentOf_elem c level : c ∈ indentOf level → c = 32%N.
Proof.
  unfold indentOf. induction level as [|level IH]; simpl.
  - by intros ?%elem_of_nil.
  - intros [->|[->|H]%elem_of_cons]%elem_of_cons; auto.
Qed.

Lemma indentOf_spaces level : Forall (λ c, isWhiteSpace c = true) (indentOf level).
Proof. apply Forall_forall. by intros c ->%indentOf_elem. Qed.

Lemma indentOf_length level : length (indentOf level) = 2 * level.
Proof.
  unfold indentOf. induction level as [|level IH]; simpl; [done|].
  rewrite IH. lia.
Qed.

Lemma render_no_LF line : LF ∉ line.1 → LF ∉ render line.
Proof.
  intros H. unfold render. rewrite elem_of_app.
  intros [Hin%indentOf_elem|Hin]; done.
Qed.

Lemma trim_render level t : cleanText t → trim (indentOf level ++ t) = t.
Proof.
  intros Hclean. rewrite <- (trim_clean t Hclean) at 2.
  destruct Hclean as (_ & _ & Hh & _). unfold trim.
  by rewrite (dropWhile_app _ _ _ (indentOf_spaces level)).
Qed.

Lemma level_render level t :
  cleanText t → leadingSpaces (indentOf level ++ t) / 2 = level.
Proof.
  intros (_ & _ & Hh & _). unfold leadingSpaces.
  rewrite (takeWhile_app _ _ _ (indentOf_spaces level)).
  rewrite (takeWhile_stop _ t Hh), app_nil_r, indentOf_length.
  rewrite Nat.mul_comm. by apply Nat.div_mul.
Qed.

Lemma parseLinesFrom_keep index line rest :
  trim line ≠ [] →
  parseLinesFrom index (line :: rest)
  = mkLine (trim line) (leadingSpaces line / 2) (index + 1)
      :: parseLinesFrom (S index) rest.
Proof. intros H. simpl. by rewrite decide_False. Qed.

(** Parsing the rendered outline gives the outline back. *)
Lemma parse_rendered index lines :
  Forall (λ l, cleanText l.1) lines →
  map outlineOf (parseLinesFrom index (map render lines)) = lines.
Proof.
  intros H. revert index. induction H as [|[t level] lines Hl _ IH]; intros index.
  - done.
  - simpl in Hl. cbn [map]. unfold render at 1. cbn [fst snd].
    rewrite parseLinesFrom_keep
      by (rewrite (trim_render level t Hl); apply Hl).
    cbn [map]. unfold outlineOf at 1. cbn [pl_text pl_level].
    by rewrite (trim_render level t Hl), (level_render level t Hl), IH.
Qed.

(** ** The pure construction inverts [outline] *)

Lemma popTo_mono level level' st :
  level' ≤ level → popTo level' (popTo level st) = popTo level' st.
Proof.
  intros Hle. destruct st as [top below]. unfold popTo. cbn [fst snd].
  revert top. induction below as [|parent rest IH]; intros top; [done|].
  cbn [popFrames]. destruct (decide (level ≤ f_level top)) as [H|H].
  - rewrite decide_True by lia. apply IH.
  - done.
Qed.

Lemma popTo_eq_mono level level' st1 st2 :
  level' ≤ level → popTo level st1 = popTo level st2 →
  popTo level' st1 = popTo level' st2.
Proof.
  intros Hle H. rewrite <- (popTo_mono level level' st1 Hle).
  rewrite <- (popTo_mono level level' st2 Hle). by rewrite H.
Qed.

Lemma feed_popTo level lines st1 st2 :
  popTo level st1 = popTo level st2 →
  (∀ line, head lines = Some line → line.2 ≤ level) →
  ∀ level', level' ≤ level →
    popTo level' (feed st1 lines) = popTo level' (feed st2 lines).
Proof.
  intros H Hhead level' Hle. destruct lines as [|line lines].
  - by apply (popTo_eq_mono level).
  - unfold feed. cbn [foldl].
    assert (pushLine st1 line = pushLine st2 line) as ->; [|done].
    unfold pushLine.
    pose proof (popTo_eq_mono level line.2 st1 st2 (Hhead line eq_refl) H) as E.
    unfold popTo in E. by rewrite E.
Qed.

Lemma feed_app st l1 l2 : feed st (l1 ++ l2) = feed (feed st l1) l2.
Proof. unfold feed. apply foldl_app. Qed.

Lemma popTo_stay level top below :
  below = [] ∨ f_level top < level → popTo level (top, below) = (top, below).
Proof.
  unfold popTo. cbn [fst snd]. intros [->|H]; [done|].
  destruct below; [done|]. cbn [popFrames]. by rewrite decide_False by lia.
Qed.

(** Feeding the outlines of a list of shapes to a frame of the level just
    above leaves, up to popping, that frame with the shapes adopted. *)
Lemma feed_children level ss : ∀ F rest,
  Forall (λ s, ∀ d top below, below = [] ∨ f_level top < d →
                popTo d (feed (top, below) (outline d s)) = (adopt s top, below)) ss →
  f_level F = level →
  popTo (S level) (feed (F, rest) (flat_map (outline (S level)) ss))
  = ({| f_text := f_text F; f_level := f_level F; f_done := f_done F ++ ss |}, rest).
Proof.
  induction ss as [|s ss IHss]; intros F rest IH HF.
  - simpl. rewrite app_nil_r. unfold feed. cbn [foldl].
    destruct F. apply popTo_stay. simpl in *. right. lia.
  - apply Forall_cons in IH as [Hs Hss]. cbn [flat_map]. rewrite feed_app.
    assert (rest = [] ∨ f_level F < S level) as Hstay by (right; lia).
    specialize (Hs (S level) F rest Hstay).
    rewrite (feed_popTo (S level) _ _ (adopt s F, rest)).
    + rewrite IHss by done. simpl. by rewrite <- (assoc_L (++)).
    + rewrite Hs. symmetry. apply popTo_stay. right. simpl. lia.
    + intros line. destruct ss as [|[t2 ss2] ss]; [done|]. simpl. by intros [= <-].
    + done.
Qed.

Lemma feed_outline s : ∀ d top below,
  below = [] ∨ f_level top < d →
  popTo d (feed (top, below) (outline d s)) = (adopt s top, below).
Proof.
  induction s as [t ss IH] using shape_ind. intros d top below Hstay.
  cbn [outline i_text i_items].
  change (feed ?st (?l :: ?ls)) with (feed (pushLine st l) ls).
  assert (pushLine (top, below) (t, d)
          = ({| f_text := t; f_level := d; f_done := [] |}, top :: below)) as ->.
  { unfold pushLine. cbn [fst snd].
    pose proof (popTo_stay d top below Hstay) as E. unfold popTo in E.
    cbn [fst snd] in E. by rewrite E. }
  rewrite <- (popTo_mono (S d) d) by lia.
  rewrite (feed_children d ss {| f_text := t; f_level := d; f_done := [] |}
             (top :: below) IH eq_refl).
  unfold popTo. cbn [fst snd popFrames app f_level]. rewrite decide_True by done.
  apply (popTo_stay d (adopt _ top) below). simpl. exact Hstay.
Qed.

Lemma buildShape_outline lines s :
  map outlineOf lines = outline 0 s → buildShape lines = s.
Proof.
  destruct s as [t ss]. destruct lines as [|first rest]; [done|].
  cbn [map outline i_text i_items]. intros [= Ht Hl Hrest].
  unfold buildShape, finish.
  change (popFrames 0 ?a ?b) with (popTo 0 (a, b)).
  replace (outlineOf <$> rest) with (flat_map (outline 1) ss) by done.
  set (st := feed _ _).
  replace (st.1, st.2) with st by (by destruct st).
  rewrite <- (popTo_mono 1 0) by lia. unfold st.
  rewrite (feed_children 0 ss).
  - rewrite popTo_stay by (by left). unfold close. simpl. by rewrite Ht.
  - apply Forall_forall. intros s _. apply feed_outline.
  - done.
Qed.

Lemma parseLines_treeToText t :
  Forall cleanText (shapeTexts (shape t)) →
  map outlineOf (parseLines (treeToText t 0)) = outline 0 (shape t).
Proof.
  intros Hclean. rewrite <- outline_texts with (level := 0) in Hclean.
  rewrite Forall_map in Hclean.
  unfold parseLines. rewrite treeToText_outline, split_join.
  - by apply parse_rendered.
  - by destruct (shape t).
  - apply Forall_map. eapply Forall_impl; [exact Hclean|].
    intros line Hline. apply render_no_LF, Hline.
Qed.

(** C1.  Round trip: for every tree [t] returned by [parseTextToTree],
    parsing [treeToText t] again returns a tree with the same shape (same
    arity at every node, children in the same order) and the same text at
    every node; the identifiers, drawn afresh, may differ. *)
Theorem round_trip (generateId generateId' : nat → str) (text : str)
    (t : MindmapNode) :
  parseTextToTree generateId text = Some t →
  ∃ t', parseTextToTree generateId' (treeToText t 0) = Some t' ∧
        shape t' = shape t.
Proof.
  intros Hparse.
  destruct (parse_shape generateId' (treeToText t 0)) as (t' & Ht' & Hshape).
  exists t'. split; [done|]. rewrite Hshape.
  apply buildShape_outline, parseLines_treeToText.
  by apply (parse_texts_clean generateId text).
Qed.

Lemma round_trip_witness :
  ∃ t', parseTextToTree (λ k, [N.of_nat k]) (treeToText ex_tree 0) = Some t' ∧
        shape t' = shape ex_tree.
Proof.
  apply (round_trip noIds (λ k, [N.of_nat k]) ex_text ex_tree).
  vm_compute. reflexivity.
Defined.

Example treeToText_example : treeToText ex_tree 0 = ex_text.
Proof. vm_compute. reflexivity. Qed.

(** ** Layout: unfolding the recursive functions *)

Lemma elem_of_flat_map {A B} (f : A → list B) l y :
  y ∈ flat_map f l ↔ ∃ x, y ∈ f x ∧ x ∈ l.
Proof.
  rewrite list_elem_of_In, in_flat_map. split.
  - intros (x & Hx & Hy). exists x. by rewrite !list_elem_of_In.
  - intros (x & Hy & Hx). exists x. by rewrite <- !list_elem_of_In.
Qed.


Lemma layoutNode_eq node x startY :
  layoutNode node x startY
  = (r ← layoutChildren (λ child, layoutNode child (x + LEVEL_GAP)%Q)
                        (n_children node) [] startY;
     y ← centreY r.1 startY NODE_HEIGHT;
     Some (mkPos node x y (nodeWidth node) NODE_HEIGHT r.1)).
Proof. by destruct node. Qed.

Lemma lastWith_last {A B} (f : A → B) l : lastWith f l = f <$> last l.
Proof.
  induction l as [|a l IH]; [done|]. destruct l as [|b l]; [done|].
  rewrite last_cons_cons, <- IH. done.
Qed.

Lemma getSubtreeHeight_eq pos :
  getSubtreeHeight pos
  = match last (p_children pos) with
    | None => Some (p_height pos)
    | Some lastChild =>
        h ← getSubtreeHeight lastChild; Some (p_y lastChild + h - p_y pos)%Q
    end.
Proof.
  destruct pos as [n x y w h cs]. destruct cs as [|c cs]; [done|].
  cbn [getSubtreeHeight p_children]. rewrite lastWith_last.
  destruct (last (c :: cs)) eqn:E; [done|]. by apply last_None in E.
Qed.

Lemma flattenPositions_eq root :
  flattenPositions root = root :: flat_map flattenPositions (p_children root).
Proof.
  destruct root as [n x y w h cs]. cbn [flattenPositions p_children].
  generalize (mkPos n x y w h cs). intros root.
  change (root :: flat_map flattenPositions cs)
    with ([root] ++ flat_map flattenPositions cs).
  generalize [root]. induction cs as [|c cs IH]; intros acc; simpl.
  - by rewrite app_nil_r.
  - rewrite IH. by rewrite <- (assoc_L (++)).
Qed.

Lemma positionsAtDepth_eq depth pos :
  positionsAtDepth depth pos
  = (depth, pos) :: flat_map (positionsAtDepth (S depth)) (p_children pos).
Proof. by destruct pos. Qed.

Lemma positionsAtDepth_flatten depth pos :
  map snd (positionsAtDepth depth pos) = flattenPositions pos.
Proof.
  revert depth. induction pos as [n x y w h cs IH] using pos_ind. intros depth.
  rewrite flattenPositions_eq. simpl. f_equal.
  induction IH as [|c cs Hc _ IHcs]; simpl; [done|].
  by rewrite map_app, Hc, IHcs.
Qed.

(** The loop over the children produces a chain. *)
Lemma layoutChildren_chain x cs : ∀ acc cur r,
  layoutChildren (λ c, layoutNode c x) cs acc cur = Some r →
  ∃ ps, r.1 = acc ++ ps ∧ chain x cur cs ps r.2.
Proof.
  induction cs as [|c cs IH]; intros acc cur r.
  - intros [= <-]. exists []. split; [by rewrite app_nil_r | constructor].
  - cbn [layoutChildren].
    destruct (layoutNode c x cur) as [p|] eqn:Hp; [|done].
    cbn [mbind option_bind].
    destruct (getSubtreeHeight p) as [h|] eqn:Hh; [|done].
    cbn [mbind option_bind]. intros (ps & Hr & Hchain)%IH.
    exists (p :: ps). split.
    + by rewrite Hr, <- (assoc_L (++)).
    + by apply chain_cons with (h := h).
Qed.

Lemma layoutNode_inv node x startY pos :
  layoutNode node x startY = Some pos →
  ∃ cur', chain (x + LEVEL_GAP)%Q startY (n_children node) (p_children pos) cur' ∧
          centreY (p_children pos) startY NODE_HEIGHT = Some (p_y pos) ∧
          p_node pos = node ∧ p_x pos = x ∧
          p_width pos = nodeWidth node ∧ p_height pos = NODE_HEIGHT.
Proof.
  rewrite layoutNode_eq.
  destruct (layoutChildren _ _ _ _) as [r|] eqn:Hr; [|done].
  cbn [mbind option_bind].
  destruct (centreY _ _ _) as [y|] eqn:Hy; [|done].
  cbn [mbind option_bind]. intros [= <-]. simpl.
  apply layoutChildren_chain in Hr as (ps & Hps & Hchain).
  simpl in Hps. rewrite Hps in *. by exists r.2.
Qed.

(** A position tree mirrors its node tree: same nodes, in the same order. *)
Lemma chain_nodes x cur cs ps cur' :
  chain x cur cs ps cur' → map p_node ps = cs.
Proof.
  induction 1 as [|cur c cs p ps h cur' Hp _ _ IH]; [done|].
  destruct (layoutNode_inv _ _ _ _ Hp) as (_ & _ & _ & Hnode & _).
  simpl. by rewrite Hnode, IH.
Qed.

Lemma layoutNode_mirrors node x startY pos :
  layoutNode node x startY = Some pos →
  p_node pos = node ∧ map p_node (p_children pos) = n_children node.
Proof.
  intros H. destruct (layoutNode_inv _ _ _ _ H) as (cur' & Hchain & _ & Hnode & _).
  split; [done|]. by apply (chain_nodes _ _ _ _ _ Hchain).
Qed.

Lemma chain_laid x cur cs ps cur' p :
  chain x cur cs ps cur' → p ∈ ps → ∃ c s, layoutNode c x s = Some p.
Proof.
  induction 1 as [|cur c cs p' ps h cur' Hp Hh _ IH]; [by intros ?%elem_of_nil|].
  intros [->|Hin]%elem_of_cons; [by exists c, cur | auto].
Qed.


(** ** Layout: totality and vertical extent *)

Lemma chain_spans x cur cs ps cur' :
  Forall (λ c, ∀ x s, ∃ p, layoutNode c x s = Some p ∧ spans s p) cs →
  chain x cur cs ps cur' →
  (∀ p q, p ∈ ps → q ∈ flattenPositions p → (cur <= p_y q)%Q) ∧
  (ps ≠ [] →
   ∃ first lastChild hl,
     head ps = Some first ∧ last ps = Some lastChild ∧
     getSubtreeHeight lastChild = Some hl ∧
     (cur <= p_y first)%Q ∧
     (p_y first + NODE_HEIGHT <= p_y lastChild + hl)%Q ∧
     (∃ q, q ∈ flattenPositions first ∧ p_y q = cur) ∧
     (∀ p q, p ∈ ps → q ∈ flattenPositions p →
        (p_y q + p_height q <= p_y lastChild + hl)%Q)).
Proof.
  intros IH Hchain.
  induction Hchain as [|cur c cs p ps h cur' Hp Hh Hrest IHrest].
  - split; [by intros p q ?%elem_of_nil | done].
  - apply Forall_cons in IH as [Hc Hcs]. specialize (IHrest Hcs).
    destruct IHrest as [Hall Hends].
    destruct (Hc x cur)
      as (p' & Hp' & h' & Hh' & Hmin & Hge & (q0 & Hq0 & Hq0y) & Hbot).
    rewrite Hp in Hp'. injection Hp' as <-.
    rewrite Hh in Hh'. injection Hh' as <-.
    assert (cur <= p_y p)%Q as Hpy.
    { apply Hge. rewrite flattenPositions_eq. by left. }
    split.
    + intros p1 q [->|Hin]%elem_of_cons Hq; [by apply Hge|].
      specialize (Hall p1 q Hin Hq). qlra.
    + intros _. destruct ps as [|p2 ps].
      * exists p, p, h. split_and!; try done; [qlra | by exists q0 |].
        intros p1 q ->%list_elem_of_singleton Hq. by apply Hbot.
      * destruct Hends
          as (first & lc & hl & Hfirst & Hlast & Hhl & Hf1 & Hf2 & _ & Hbots);
          [done|].
        exists p, lc, hl. rewrite last_cons_cons.
        split_and!; try done; [qlra | by exists q0 |].
        intros p1 q [->|Hin]%elem_of_cons Hq; [|by apply (Hbots p1)].
        specialize (Hbot q Hq). qlra.
Qed.

Lemma layoutChildren_total x cs :
  Forall (λ c, ∀ x s, ∃ p, layoutNode c x s = Some p ∧ spans s p) cs →
  ∀ acc cur, is_Some (layoutChildren (λ c, layoutNode c x) cs acc cur).
Proof.
  induction 1 as [|c cs Hc _ IH]; intros acc cur; [by eexists|].
  cbn [layoutChildren].
  destruct (Hc x cur) as (p & Hp & h & Hh & _).
  rewrite Hp. cbn [mbind option_bind]. rewrite Hh. cbn [mbind option_bind].
  apply IH.
Qed.

(** [layoutNode] returns for every node, abscissa and cursor, and what it
    returns spans from the cursor down. *)
Lemma layoutNode_spans node :
  ∀ x s, ∃ p, layoutNode node x s = Some p ∧ spans s p.
Proof.
  induction node as [i t cs col IH] using node_ind. intros x s.
  set (node := mkNode i t cs col).
  destruct (layoutChildren_total (x + LEVEL_GAP)%Q cs IH [] s) as [r Hr].
  destruct (layoutChildren_chain _ _ _ _ _ Hr) as (ps & Hps & Hchain).
  simpl in Hps.
  pose proof (chain_spans _ _ _ _ _ IH Hchain) as [Hall Hends].
  rewrite layoutNode_eq. cbn [n_children node]. rewrite Hr.
  cbn [mbind option_bind]. rewrite Hps. generalize dependent (r.2).
  intros cur' Hchain. clear Hr Hps r.
  destruct ps as [|p1 ps'] eqn:Eps.
  - eexists. split; [reflexivity|]. exists NODE_HEIGHT.
    rewrite getSubtreeHeight_eq, flattenPositions_eq. simpl.
    split_and!; [done | lra | | |].
    + intros q ->%list_elem_of_singleton. simpl. lra.
    + eexists. split; [by left | done].
    + intros q ->%list_elem_of_singleton. simpl. lra.
  - rewrite <- Eps in *.
    destruct Hends
      as (first & lc & hl & Hfirst & Hlast & Hhl & Hf1 & Hf2 & (q0 & Hq0 & Hq0y) & Hbots);
      [by rewrite Eps|].
    unfold centreY. rewrite decide_True by (rewrite Eps; simpl; lia).
    rewrite <- head_lookup, Hfirst. cbn [mbind option_bind].
    replace (length ps - 1) with (pred (length ps)) by lia.
    rewrite <- last_lookup, Hlast. cbn [mbind option_bind]. rewrite Hhl.
    cbn [mbind option_bind].
    eexists. split; [reflexivity|].
    exists (p_y lc + hl
            - ((p_y first + (p_y lc + hl)) / 2 - NODE_HEIGHT / 2))%Q.
    rewrite getSubtreeHeight_eq, flattenPositions_eq.
    cbn [p_children p_y p_height]. rewrite Hlast, Hhl. cbn [mbind option_bind].
    split_and!; [done | qlra | | |].
    + intros q [->|Hq]%elem_of_cons.
      * simpl. qlra.
      * apply elem_of_flat_map in Hq as (p & Hq & Hp). by apply (Hall p).
    + exists q0. split; [|done]. right.
      apply elem_of_flat_map. exists first. split; [done|].
      apply head_Some_elem_of. exact Hfirst.
    + intros q [->|Hq]%elem_of_cons.
      * simpl. qlra.
      * apply elem_of_flat_map in Hq as (p & Hq & Hp).
        specialize (Hbots p q Hp Hq). qlra.
Qed.

(** Every position of a layout is the result of a call of [layoutNode]. *)
Lemma flatten_laid pos : ∀ node x s,
  layoutNode node x s = Some pos →
  ∀ q, q ∈ flattenPositions pos → ∃ n' x' s', layoutNode n' x' s' = Some q.
Proof.
  induction pos as [n0 x0 y0 w0 h0 cs IH] using pos_ind. intros node x s Hpos q.
  rewrite flattenPositions_eq. intros [->|Hq]%elem_of_cons; [by exists node, x, s|].
  apply elem_of_flat_map in Hq as (c & Hq & Hc).
  destruct (layoutNode_inv _ _ _ _ Hpos) as (cur' & Hchain & _).
  destruct (chain_laid _ _ _ _ _ c Hchain Hc) as (nc & sc & Hlaid).
  rewrite Forall_forall in IH. by apply (IH c Hc nc _ sc Hlaid).
Qed.

Lemma Qnat_S n : (Qnat (S n) == Qnat n + 1)%Q.
Proof.
  unfold Qnat. rewrite Nat2Z.inj_succ, <- Z.add_1_r, inject_Z_plus. reflexivity.
Qed.

Lemma Qnat_nonneg n : (0 <= Qnat n)%Q.
Proof.
  unfold Qnat. change 0%Q with (inject_Z 0). rewrite <- Zle_Qle. lia.
Qed.

(** Abscissae: one [LEVEL_GAP] per level below the position laid out. *)
Lemma layoutNode_abscissa pos : ∀ node x s k d q,
  layoutNode node x s = Some pos →
  (d, q) ∈ positionsAtDepth k pos →
  k ≤ d ∧ (p_x q == x + LEVEL_GAP * (Qnat d - Qnat k))%Q.
Proof.
  induction pos as [n0 x0 y0 w0 h0 cs IH] using pos_ind.
  intros node x s k d q Hpos. cbn [positionsAtDepth p_children].
  destruct (layoutNode_inv _ _ _ _ Hpos) as (cur' & Hchain & _ & _ & Hx & _).
  intros [[= -> ->]|Hq]%elem_of_cons.
  - split; [done|]. rewrite Hx. qlra.
  - apply elem_of_flat_map in Hq as (c & Hq & Hc).
    destruct (chain_laid _ _ _ _ _ c Hchain Hc) as (nc & sc & Hlaid).
    rewrite Forall_forall in IH.
    destruct (IH c Hc nc _ sc (S k) d q Hlaid Hq) as [Hle Hxq].
    split; [lia|]. rewrite Hxq, Qnat_S. qlra.
Qed.

Lemma Qmin_cases a b : Qmin a b = a ∨ Qmin a b = b.
Proof.
  unfold Qmin, GenericMinMax.gmin. destruct (a ?= b)%Q; auto.
Qed.

Lemma Qmax_cases a b : Qmax a b = a ∨ Qmax a b = b.
Proof.
  unfold Qmax, GenericMinMax.gmax. destruct (a ?= b)%Q; auto.
Qed.




Lemma layoutNode_spans_of node x s p : layoutNode node x s = Some p → spans s p.
Proof.
  intros Hp. destruct (layoutNode_spans node x s) as (p' & Hp' & Hspans).
  rewrite Hp in Hp'. by injection Hp' as <-.
Qed.

(** The second example: [R] at 60, [A] at 0, [B] at 90 over [b1] at 60 and
    [b2] at 120. *)
Example layout_example2 :
  calculateLayout ex_tree2 = Some ex_R ∧
  p_children ex_R = [ex_A; ex_B] ∧
  map (λ q, (n_text (p_node q), Qred (p_x q), Qred (p_y q))) (flattenPositions ex_R)
  = [ (lit "R", 0, 60); (lit "A", 150, 0); (lit "B", 150, 90);
      (lit "b1", 300, 60); (lit "b2", 300, 120) ]%Q.
Proof. split_and!; vm_compute; reflexivity. Qed.

(** ** Layout: coordinates and totality *)

(** In the second example the later sibling [B] is itself centred over its
    children: its own [y] is 90, while its subtree starts at 60, 20 below
    the bottom of [A] at 40. *)
Example centred_sibling :
  (p_y ex_A + 40 == 40)%Q ∧ (subtreeTop ex_B == 60)%Q ∧ (p_y ex_B == 90)%Q.
Proof. split_and!; vm_compute; reflexivity. Qed.

(** C9.  In every position tree that [calculateLayout] produces, the [x] of
    a position is 150 times its depth below the root, so that the
    renderer's test [x === 0] holds of the root and of no other position;
    every [y] is non-negative, and some position has [y = 0]. *)
Theorem abscissa_and_ordinate (root : MindmapNode) :
  ∃ p, calculateLayout root = Some p ∧
       map snd (positionsAtDepth 0 p) = flattenPositions p ∧
       (∀ d q, (d, q) ∈ positionsAtDepth 0 p →
          (p_x q == 150 * Qnat d)%Q ∧
          (isRoot q = true ↔ d = 0) ∧
          (d = 0 ↔ q = p) ∧
          (0 <= p_y q)%Q) ∧
       (∃ q, q ∈ flattenPositions p ∧ (p_y q == 0)%Q).
Proof.
  destruct (layoutNode_spans root 0 0) as (p & Hp & Hspans).
  exists p. split; [done|]. split; [apply positionsAtDepth_flatten|].
  destruct Hspans as (h & _ & _ & Hge & (q0 & Hq0 & Hq0y) & _).
  split; [|exists q0; split; [done | by rewrite Hq0y]].
  intros d q Hq.
  destruct (layoutNode_abscissa _ _ _ _ _ _ _ Hp Hq) as [_ Hx].
  assert (p_x q == 150 * Qnat d)%Q as Hx'.
  { assert (Qnat 0 == 0)%Q as H0 by reflexivity. rewrite Hx. qlra. }
  assert ((p_x q == 0)%Q ↔ d = 0) as Hzero.
  { rewrite Hx'. split.
    - intros H0. destruct d as [|d]; [done|]. exfalso.
      pose proof (Qnat_S d) as HS. pose proof (Qnat_nonneg d). lra.
    - intros ->. reflexivity. }
  split_and!.
  - done.
  - unfold isRoot. by rewrite Qeq_bool_iff.
  - split.
    + intros ->. rewrite positionsAtDepth_eq in Hq.
      apply elem_of_cons in Hq as [[= ->]|Hq]; [done|].
      apply elem_of_flat_map in Hq as (c & Hq & Hc).
      destruct (layoutNode_inv _ _ _ _ Hp) as (cur' & Hchain & _).
      destruct (chain_laid _ _ _ _ _ c Hchain Hc) as (nc & sc & Hlaid).
      destruct (layoutNode_abscissa _ _ _ _ _ _ _ Hlaid Hq) as [Hle _]. lia.
    + intros ->. apply Hzero.
      destruct (layoutNode_inv _ _ _ _ Hp) as (_ & _ & _ & _ & -> & _).
      reflexivity.
  - apply Hge. rewrite <- positionsAtDepth_flatten with (depth := 0).
    by apply (list_elem_of_fmap_2 snd) in Hq.
Qed.

(** C7.  [parseTextToTree] returns a node for every input string, and
    [calculateLayout] returns a position for every finite tree: no access
    to [parsedLines[0]], to the top of the stack, to [childPositions[0]] or
    to a last child is out of bounds. *)
Theorem parse_and_layout_total :
  (∀ (generateId : nat → str) (text : str),
     is_Some (parseTextToTree generateId text)) ∧
  (∀ node : MindmapNode, is_Some (calculateLayout node)).
Proof.
  split.
  - intros generateId text.
    destruct (parse_shape generateId text) as (t & Ht & _). by exists t.
  - intros node. destruct (layoutNode_spans node 0 0) as (p & Hp & _).
    by exists p.
Qed.

(** ** Bounding box *)

Lemma isMinOf_step m a x l : isMinOf m (Qmin a x :: l) → isMinOf m (a :: x :: l).
Proof.
  intros [Hin Hle]. split.
  - apply elem_of_cons in Hin as [->|Hin]; [|right; by right].
    destruct (Qmin_cases a x) as [-> | ->]; [by left | right; by left].
  - intros z Hz. specialize (Hle (Qmin a x) ltac:(by left)) as Hm.
    pose proof (Q.le_min_l a x). pose proof (Q.le_min_r a x).
    apply elem_of_cons in Hz as [->|[->|Hz]%elem_of_cons]; [lra | lra |].
    apply Hle. by right.
Qed.

Lemma isMaxOf_step m a x l : isMaxOf m (Qmax a x :: l) → isMaxOf m (a :: x :: l).
Proof.
  intros [Hin Hle]. split.
  - apply elem_of_cons in Hin as [->|Hin]; [|right; by right].
    destruct (Qmax_cases a x) as [-> | ->]; [by left | right; by left].
  - intros z Hz. specialize (Hle (Qmax a x) ltac:(by left)) as Hm.
    pose proof (Q.le_max_l a x). pose proof (Q.le_max_r a x).
    apply elem_of_cons in Hz as [->|[->|Hz]%elem_of_cons]; [lra | lra |].
    apply Hle. by right.
Qed.

Lemma extend_fold l : ∀ a b c d,
  ∃ a' b' c' d',
    foldl extend (Fin a, Fin b, Fin c, Fin d) l = (Fin a', Fin b', Fin c', Fin d') ∧
    isMinOf a' (a :: map p_x l) ∧
    isMinOf b' (b :: map p_y l) ∧
    isMaxOf c' (c :: map (λ q, p_x q + p_width q)%Q l) ∧
    isMaxOf d' (d :: map (λ q, p_y q + p_height q)%Q l).
Proof.
  induction l as [|pos l IH]; intros a b c d.
  - exists a, b, c, d. simpl.
    split_and!; try done; (split; [by left|]);
      intros z ->%list_elem_of_singleton; lra.
  - cbn [foldl extend mathMin mathMax map].
    destruct (IH (Qmin a (p_x pos)) (Qmin b (p_y pos))
                 (Qmax c (p_x pos + p_width pos)) (Qmax d (p_y pos + p_height pos)))
      as (a' & b' & c' & d' & Hfold & Ha & Hb & Hc & Hd).
    exists a', b', c', d'.
    split_and!; [done | by apply isMinOf_step | by apply isMinOf_step
                | by apply isMaxOf_step | by apply isMaxOf_step].
Qed.

(** C8.  [getBoundingBox] returns the least [x], the least [y], the
    greatest [x + width] and the greatest [y + height] over the positions
    of the flattened tree (the root followed by the flattened children, in
    order), with [width = maxX - minX] and [height = maxY - minY]; for the
    layout of a single node whose text has length 5 the box is 100 wide and
    40 high. *)
Theorem bounding_box :
  (∀ root : NodePosition,
     flattenPositions root
       = root :: flat_map flattenPositions (p_children root) ∧
     ∃ mnX mnY mxX mxY,
       getBoundingBox root
         = mkBox (Fin mnX) (Fin mnY) (Fin mxX) (Fin mxY)
                 (Fin (mxX - mnX)) (Fin (mxY - mnY)) ∧
       isMinOf mnX (map p_x (flattenPositions root)) ∧
       isMinOf mnY (map p_y (flattenPositions root)) ∧
       isMaxOf mxX (map (λ q, p_x q + p_width q)%Q (flattenPositions root)) ∧
       isMaxOf mxY (map (λ q, p_y q + p_height q)%Q (flattenPositions root))) ∧
  (∀ node : MindmapNode,
     n_children node = [] → length (n_text node) = 5 →
     ∃ p w h,
       calculateLayout node = Some p ∧
       width (getBoundingBox p) = Fin w ∧ height (getBoundingBox p) = Fin h ∧
       (w == 100)%Q ∧ (h == 40)%Q).
Proof.
  split.
  - intros root. split; [apply flattenPositions_eq|].
    unfold getBoundingBox. rewrite flattenPositions_eq.
    cbn [foldl]. unfold extend at 2. cbn [mathMin mathMax].
    destruct (extend_fold (flat_map flattenPositions (p_children root))
                (p_x root) (p_y root)
                (p_x root + p_width root) (p_y root + p_height root))
      as (a & b & c & d & -> & Ha & Hb & Hc & Hd).
    by exists a, b, c, d.
  - intros [i t cs col]. simpl. intros -> Hlen.
    eexists _, _, _. unfold calculateLayout. rewrite layoutNode_eq.
    cbn [n_children layoutChildren mbind option_bind fst centreY].
    split; [reflexivity|]. split; [reflexivity|]. split; [reflexivity|].
    unfold nodeWidth. cbn [n_text p_x p_y p_width p_height]. rewrite Hlen.
    split; vm_compute; reflexivity.
Qed.

Example bounding_box_example :
  getBoundingBox ex_R
  = mkBox (Fin 0) (Fin 0) (Fin (300 + 100)) (Fin (120 + 40))
          (Fin (300 + 100 - 0)) (Fin (120 + 40 - 0)).
Proof. vm_compute. reflexivity. Qed.

(** * Further properties of the code *)


(** ** Depth of a tree *)

Lemma foldl_max {A} (f : A → nat) l a :
  foldl (λ m x, Nat.max m (f x)) a l = Nat.max a (foldr Nat.max 0 (map f l)).
Proof.
  revert a. induction l as [|x l IH]; intros a; simpl; [lia|].
  rewrite IH. lia.
Qed.

Lemma getMaxDepth_eq node d :
  getMaxDepth node d
  = Nat.max d (foldr Nat.max 0 (map (λ c, getMaxDepth c (d + 1)) (n_children node))).
Proof.
  destruct node as [i t [|c cs] col]; [simpl; lia|].
  cbn [getMaxDepth n_children]. apply foldl_max.
Qed.

Lemma nodesAtDepth_eq depth node :
  nodesAtDepth depth node
  = (depth, node) :: flat_map (nodesAtDepth (S depth)) (n_children node).
Proof. by destruct node. Qed.

Lemma foldr_max_le l b :
  (∀ a, a ∈ l → a ≤ b) → foldr Nat.max 0 l ≤ b.
Proof.
  induction l as [|a l IH]; intros H; simpl; [lia|].
  apply Nat.max_lub; [apply H; by left | apply IH; intros; apply H; by right].
Qed.

Lemma foldr_max_in l : l ≠ [] → foldr Nat.max 0 l ∈ l.
Proof.
  induction l as [|a l IH]; [done|]. intros _. simpl.
  destruct l as [|b l].
  - simpl. rewrite Nat.max_0_r. by left.
  - destruct (Nat.max_spec a (foldr Nat.max 0 (b :: l))) as [[_ ->] | [_ ->]].
    + right. by apply IH.
    + by left.
Qed.

(** [getMaxDepth node k] is the greatest depth in [nodesAtDepth k node]. *)
Lemma getMaxDepth_greatest node : ∀ k,
  (∀ d n, (d, n) ∈ nodesAtDepth k node → k ≤ d ∧ d ≤ getMaxDepth node k) ∧
  (∃ n, (getMaxDepth node k, n) ∈ nodesAtDepth k node).
Proof.
  induction node as [i t cs col IH] using node_ind. intros k.
  rewrite getMaxDepth_eq. cbn [n_children].
  set (ds := map (λ c, getMaxDepth c (k + 1)) cs).
  split.
  - intros d n. rewrite nodesAtDepth_eq. cbn [n_children].
    intros [[= -> ->] | Hin]%elem_of_cons; [lia|].
    apply elem_of_flat_map in Hin as (c & Hin & Hc).
    rewrite Forall_forall in IH.
    destruct (IH c Hc (S k)) as [Hle _]. destruct (Hle d n Hin) as [H1 H2].
    split; [lia|].
    assert (getMaxDepth c (k + 1) ∈ ds) as Hds
      by (by apply (list_elem_of_fmap_2 (λ c, getMaxDepth c (k + 1)))).
    replace (k + 1) with (S k) in Hds by lia.
    assert (getMaxDepth c (S k) ≤ foldr Nat.max 0 ds); [|lia].
    clear -Hds. induction ds as [|a ds IHds]; [by apply elem_of_nil in Hds|].
    simpl. apply elem_of_cons in Hds as [<- | Hds]; [lia|].
    specialize (IHds Hds). lia.
  - rewrite nodesAtDepth_eq. cbn [n_children].
    destruct (decide (cs = [])) as [-> | Hcs].
    { exists (mkNode i t [] col). subst ds. simpl. rewrite Nat.max_0_r. by left. }
    assert (ds ≠ []) as Hne by (subst ds; by destruct cs).
    pose proof (foldr_max_in ds Hne) as Hin.
    apply list_elem_of_fmap in Hin as (c & Hc & Hcin).
    rewrite Forall_forall in IH.
    destruct (IH c Hcin (S k)) as [Hle [n Hn]].
    destruct (Hle _ _ Hn) as [Hk _].
    exists n. right. apply elem_of_flat_map. exists c. split; [|done].
    replace (k + 1) with (S k) in Hc by lia.
    rewrite Nat.max_r by (rewrite Hc; lia). by rewrite Hc.
Qed.

Lemma max_shift {A} (f : A → nat) l d :
  Nat.max d (foldr Nat.max 0 (map (λ c, d + f c) l))
  = d + foldr Nat.max 0 (map f l).
Proof. induction l as [|a l IH]; simpl; lia. Qed.

Lemma getMaxDepth_shift node : ∀ d, getMaxDepth node d = d + getMaxDepth node 0.
Proof.
  induction node as [i t cs col IH] using node_ind. intros d.
  rewrite !getMaxDepth_eq. cbn [n_children]. rewrite Nat.max_0_l.
  rewrite <- (max_shift (λ c, getMaxDepth c (0 + 1)) cs d). f_equal. f_equal.
  apply map_ext_Forall. eapply Forall_impl; [exact IH|].
  intros c Hc. cbn beta. rewrite (Hc (d + 1)), (Hc (0 + 1)). lia.
Qed.

Lemma getMaxDepth_count node : ∀ k, getMaxDepth node k + 1 ≤ k + countNodes node.
Proof.
  induction node as [i t cs col IH] using node_ind. intros k.
  rewrite getMaxDepth_eq. cbn [n_children countNodes]. rewrite foldl_count.
  induction IH as [|c cs Hc _ IHcs]; simpl; [lia|].
  specialize (Hc (k + 1)). lia.
Qed.

Lemma shapeTexts_length s : length (shapeTexts s) = shapeSize s.
Proof.
  induction s as [t ss IH] using shape_ind. simpl. f_equal.
  induction IH as [|s ss Hs _ IHss]; simpl; [done|].
  rewrite length_app. by rewrite Hs, IHss.
Qed.

Lemma nodesOf_length node : length (nodesOf node) = countNodes node.
Proof.
  rewrite countNodes_shape, <- shapeTexts_length, <- nodesOf_texts.
  by rewrite length_map.
Qed.

Lemma nodesAtDepth_nodes node : ∀ k, map snd (nodesAtDepth k node) = nodesOf node.
Proof.
  induction node as [i t cs col IH] using node_ind. intros k. simpl. f_equal.
  induction IH as [|c cs Hc _ IHcs]; simpl; [done|].
  by rewrite map_app, Hc, IHcs.
Qed.

(** ** The position tree mirrors the node tree *)

Lemma chain_Forall2 x cur cs ps cur' :
  chain x cur cs ps cur' →
  Forall2 (λ c p, ∃ s, layoutNode c x s = Some p) cs ps.
Proof. induction 1; constructor; eauto. Qed.

Lemma flat_map_Forall2 {A B C D} (f : B → list C) (g : A → list D) (m : C → D) l k :
  Forall2 (λ a b, map m (f b) = g a) l k → map m (flat_map f k) = flat_map g l.
Proof. induction 1 as [|a b l k H _ IH]; simpl; [done|]. by rewrite map_app, H, IH. Qed.

Lemma positions_nodes node : ∀ x s p k,
  layoutNode node x s = Some p →
  map (λ dq, (dq.1, p_node dq.2)) (positionsAtDepth k p) = nodesAtDepth k node.
Proof.
  induction node as [i t cs col IH] using node_ind. intros x s p k Hp.
  destruct (layoutNode_inv _ _ _ _ Hp) as (cur' & Hchain & _ & Hn & _).
  rewrite positionsAtDepth_eq, nodesAtDepth_eq. cbn [map fst snd n_children].
  rewrite Hn. f_equal. cbn [n_children] in Hchain.
  apply chain_Forall2 in Hchain. apply flat_map_Forall2.
  clear Hp Hn. induction Hchain as [|c q cs ps (s' & Hq) _ IHch]; constructor.
  - apply Forall_cons in IH as [Hc _]. exact (Hc _ _ _ _ Hq).
  - apply Forall_cons in IH as [_ IH]. by apply IHch.
Qed.

Lemma flatten_nodes node x s p :
  layoutNode node x s = Some p → map p_node (flattenPositions p) = nodesOf node.
Proof.
  intros Hp. rewrite <- (positionsAtDepth_flatten 0), <- (nodesAtDepth_nodes node 0).
  rewrite <- (positions_nodes _ _ _ _ 0 Hp), !map_map. done.
Qed.

(** X1.  [getMaxDepth(node, currentDepth)] is [currentDepth] plus the
    greatest edge-depth of a node of the tree: no node lies deeper, some
    node lies exactly that deep, and the second argument only shifts the
    result.  The depth of a tree is less than its number of nodes. *)
Theorem getMaxDepth_greatest_depth (node : MindmapNode) (currentDepth : nat) :
  map snd (nodesAtDepth 0 node) = nodesOf node ∧
  (∀ d n, (d, n) ∈ nodesAtDepth 0 node →
     currentDepth + d ≤ getMaxDepth node currentDepth) ∧
  (∃ d n, (d, n) ∈ nodesAtDepth 0 node ∧
     getMaxDepth node currentDepth = currentDepth + d) ∧
  getMaxDepth node currentDepth = currentDepth + getMaxDepth node 0 ∧
  getMaxDepth node 0 < countNodes node.
Proof.
  destruct (getMaxDepth_greatest node 0) as [Hle [n Hn]].
  pose proof (getMaxDepth_shift node currentDepth) as Hs.
  split_and!.
  - apply nodesAtDepth_nodes.
  - intros d n' Hin. destruct (Hle d n' Hin). lia.
  - by exists (getMaxDepth node 0), n.
  - done.
  - pose proof (getMaxDepth_count node 0). lia.
Qed.

Lemma deepest_position root p :
  calculateLayout root = Some p →
  (∀ q, q ∈ flattenPositions p →
     (p_x q <= LEVEL_GAP * Qnat (getMaxDepth root 0))%Q) ∧
  (∃ q, q ∈ flattenPositions p ∧
     (p_x q == LEVEL_GAP * Qnat (getMaxDepth root 0))%Q).
Proof.
  intros Hp.
  destruct (getMaxDepth_greatest root 0) as [Hle [n Hn]].
  pose proof (positions_nodes _ _ _ _ 0 Hp) as Hmirror.
  assert (Qnat 0 == 0)%Q as H0 by reflexivity.
  split.
  - intros q Hq. rewrite <- (positionsAtDepth_flatten 0) in Hq.
    apply list_elem_of_fmap in Hq as ([d q'] & -> & Hq).
    destruct (layoutNode_abscissa _ _ _ _ _ _ _ Hp Hq) as [_ Hx].
    assert ((d, p_node q') ∈ nodesAtDepth 0 root) as Hin.
    { rewrite <- Hmirror.
      by apply (list_elem_of_fmap_2 (λ dq, (dq.1, p_node dq.2))) in Hq. }
    destruct (Hle _ _ Hin) as [_ Hd]. cbn [snd]. rewrite Hx.
    assert (Qnat d <= Qnat (getMaxDepth root 0))%Q.
    { unfold Qnat. rewrite <- Zle_Qle. lia. }
    qlra.
  - rewrite <- Hmirror in Hn.
    apply list_elem_of_fmap in Hn as ([d q] & [= Hd Hnode] & Hq).
    cbn [fst snd] in Hd, Hnode.
    exists q. split.
    + rewrite <- (positionsAtDepth_flatten 0).
      by apply (list_elem_of_fmap_2 snd) in Hq.
    + destruct (layoutNode_abscissa _ _ _ _ _ _ _ Hp Hq) as [_ Hx].
      rewrite Hx, Hd. qlra.
Qed.

(** X2.  The layout is as wide as the tree is deep: the greatest [x]
    among the positions of [calculateLayout]'s result is
    [LEVEL_GAP * getMaxDepth(root)]. *)
Theorem layout_reaches_max_depth (root : MindmapNode) :
  ∃ p m, calculateLayout root = Some p ∧
         isMaxOf m (map p_x (flattenPositions p)) ∧
         (m == LEVEL_GAP * Qnat (getMaxDepth root 0))%Q ∧
         (m == 150 * Qnat (getMaxDepth root 0))%Q.
Proof.
  destruct (layoutNode_spans root 0 0) as (p & Hp & _).
  destruct (deepest_position root p Hp) as [Hle (q & Hq & Hqx)].
  exists p, (p_x q). split; [done|]. split; [|split].
  - split.
    + by apply (list_elem_of_fmap_2 p_x).
    + intros z Hz. apply list_elem_of_fmap in Hz as (q' & -> & Hq').
      rewrite Hqx. by apply Hle.
  - exact Hqx.
  - rewrite Hqx. qlra.
Qed.

Lemma links_children positions :
  map snd (concat (links positions)) = flat_map p_children positions.
Proof.
  induction positions as [|q l IH]; simpl; [done|].
  rewrite map_app, IH, map_map. simpl. by rewrite map_id.
Qed.

Lemma flat_map_flat_map {A B C} (f : A → list B) (g : B → list C) l :
  flat_map g (flat_map f l) = flat_map (λ a, flat_map g (f a)) l.
Proof. induction l as [|a l IH]; simpl; [done|]. by rewrite flat_map_app, IH. Qed.

Lemma children_then_rest {A} (F G : A → list A) cs :
  Forall (λ c, F c ≡ₚ G c) cs →
  cs ++ flat_map F cs ≡ₚ flat_map (λ c, c :: G c) cs.
Proof.
  induction 1 as [|c cs Hc _ IH]; simpl; [done|].
  constructor. rewrite <- IH, <- Hc.
  rewrite !(assoc_L (++)). apply Permutation_app_tail, Permutation_app_comm.
Qed.

(** Every position but the root is a child of exactly one position. *)
Lemma children_are_the_rest p :
  flat_map p_children (flattenPositions p) ≡ₚ tail (flattenPositions p).
Proof.
  induction p as [n x y w h cs IH] using pos_ind.
  rewrite flattenPositions_eq. cbn [flat_map p_children tail].
  rewrite flat_map_flat_map.
  rewrite (children_then_rest _ (λ c, tail (flattenPositions c)) cs IH).
  replace (flat_map (λ c, c :: tail (flattenPositions c)) cs)
    with (flat_map flattenPositions cs); [done|].
  apply flat_map_ext. intros c. by rewrite flattenPositions_eq.
Qed.

(** X3.  The renderer draws every node of the tree once, in document
    order, and joins every node but the root to its parent: the flattened
    layout has one position per node, in pre-order; there are
    [countNodes - 1] connections, each from a position to one of its
    children, and every position but the first is the child end of exactly
    one of them. *)
Theorem renderer_draws_every_node (root : MindmapNode) :
  ∃ p, calculateLayout root = Some p ∧
       map p_node (flattenPositions p) = nodesOf root ∧
       length (flattenPositions p) = countNodes root ∧
       length (concat (links (flattenPositions p))) = countNodes root - 1 ∧
       (∀ parent child, (parent, child) ∈ concat (links (flattenPositions p)) →
          parent ∈ flattenPositions p ∧ child ∈ p_children parent) ∧
       map snd (concat (links (flattenPositions p))) ≡ₚ tail (flattenPositions p).
Proof.
  destruct (layoutNode_spans root 0 0) as (p & Hp & _).
  exists p. split; [done|].
  pose proof (flatten_nodes _ _ _ _ Hp) as Hnodes.
  assert (length (flattenPositions p) = countNodes root) as Hlen.
  { by rewrite <- nodesOf_length, <- Hnodes, length_map. }
  pose proof (children_are_the_rest p) as Hperm.
  rewrite <- links_children in Hperm.
  split_and!; try done.
  - rewrite <- (length_map snd), Hperm, <- Hlen.
    by destruct (flattenPositions p); simpl; lia.
  - intros parent child Hin. unfold links in Hin.
    apply list_elem_of_In, in_concat in Hin as (l & Hl & Hin).
    apply list_elem_of_In in Hl, Hin.
    apply list_elem_of_fmap in Hl as (q & -> & Hq).
    apply list_elem_of_fmap in Hin as (c & [= -> ->] & Hc). done.
Qed.

(** ** Layout: positions of one column do not overlap *)

Lemma layout_sizes node x s p q :
  layoutNode node x s = Some p → q ∈ flattenPositions p →
  p_height q = NODE_HEIGHT ∧ p_width q = nodeWidth (p_node q).
Proof.
  intros Hp Hq. destruct (flatten_laid _ _ _ _ Hp q Hq) as (n & x' & s' & Hlaid).
  destruct (layoutNode_inv _ _ _ _ Hlaid) as (_ & _ & _ & -> & _ & -> & ->). done.
Qed.

Lemma all_span cs :
  Forall (λ c : MindmapNode, ∀ x s, ∃ p, layoutNode c x s = Some p ∧ spans s p) cs.
Proof. apply Forall_forall. intros c _. apply layoutNode_spans. Qed.

Lemma chain_sorted x cur cs ps cur' k :
  Forall (λ c, ∀ x s p k, layoutNode c x s = Some p →
                 StronglySorted separated (positionsAtDepth k p)) cs →
  chain x cur cs ps cur' →
  StronglySorted separated (flat_map (positionsAtDepth k) ps).
Proof.
  intros IH Hchain. induction Hchain as [|cur c cs p ps h cur' Hp Hh Hrest IHch].
  - constructor.
  - apply Forall_cons in IH as [Hc IH]. cbn [flat_map].
    apply StronglySorted_app_2; [|by eapply Hc | by apply IHch].
    intros [d1 q1] [d2 q2] H1 H2 _. cbn [fst snd].
    apply (list_elem_of_fmap_2 snd) in H1. rewrite positionsAtDepth_flatten in H1.
    apply elem_of_flat_map in H2 as (p' & H2 & Hp').
    apply (list_elem_of_fmap_2 snd) in H2. rewrite positionsAtDepth_flatten in H2.
    cbn [snd] in H1, H2.
    destruct (layoutNode_spans_of _ _ _ _ Hp) as (h' & Hh' & _ & _ & _ & Hbot).
    rewrite Hh in Hh'. injection Hh' as <-.
    destruct (layout_sizes _ _ _ _ _ Hp H1) as [Hq1 _].
    destruct (chain_spans _ _ _ _ _ (all_span cs) Hrest) as [Hge _].
    specialize (Hbot q1 H1). specialize (Hge p' q2 Hp' H2).
    rewrite Hq1 in Hbot. lra.
Qed.

Lemma column_sorted node : ∀ x s p k,
  layoutNode node x s = Some p →
  StronglySorted separated (positionsAtDepth k p).
Proof.
  induction node as [i t cs col IH] using node_ind. intros x s p k Hp.
  destruct (layoutNode_inv _ _ _ _ Hp) as (cur' & Hchain & _).
  cbn [n_children] in Hchain.
  rewrite positionsAtDepth_eq. constructor.
  - by eapply chain_sorted.
  - apply Forall_forall. intros [d q] Hq. cbn [fst snd].
    apply elem_of_flat_map in Hq as (c & Hq & Hc).
    destruct (chain_laid _ _ _ _ _ c Hchain Hc) as (nc & sc & Hlaid).
    destruct (layoutNode_abscissa _ _ _ _ _ _ _ Hlaid Hq) as [Hle _].
    intros E. cbn [fst] in E. lia.
Qed.

Lemma StronglySorted_lookup {A} (R : A → A → Prop) l i j a b :
  StronglySorted R l → i < j → l !! i = Some a → l !! j = Some b → R a b.
Proof.
  intros Hs. revert i j. induction Hs as [|x l Hs IH Hall]; intros i j Hij Hi Hj.
  - done.
  - destruct j as [|j]; [lia|]. destruct i as [|i].
    + injection Hi as ->. rewrite Forall_forall in Hall. apply Hall.
      by eapply list_elem_of_lookup_2.
    + apply (IH i j); [lia | done | done].
Qed.

Lemma Qnat_inj_le a b : (Qnat a <= Qnat b)%Q ↔ a ≤ b.
Proof. unfold Qnat. rewrite <- Zle_Qle. lia. Qed.

(** X4.  Boxes of one column never overlap.  Of two positions of a layout
    with the same [x], the one that comes later in [flattenPositions]
    starts at least [SIBLING_GAP] below the bottom edge of the earlier
    one. *)
Theorem same_column_separated (root : MindmapNode) (p q1 q2 : NodePosition)
    (i j : nat) :
  calculateLayout root = Some p → i < j →
  flattenPositions p !! i = Some q1 → flattenPositions p !! j = Some q2 →
  (p_x q1 == p_x q2)%Q →
  (p_y q1 + p_height q1 + SIBLING_GAP <= p_y q2)%Q.
Proof.
  intros Hp Hij H1 H2 Hx.
  rewrite <- (positionsAtDepth_flatten 0), list_lookup_fmap in H1, H2.
  destruct (positionsAtDepth 0 p !! i) as [[d1 q1']|] eqn:E1; [|done].
  destruct (positionsAtDepth 0 p !! j) as [[d2 q2']|] eqn:E2; [|done].
  injection H1 as ->. injection H2 as ->.
  pose proof (list_elem_of_lookup_2 _ _ _ E1) as Hin1.
  pose proof (list_elem_of_lookup_2 _ _ _ E2) as Hin2.
  destruct (layoutNode_abscissa _ _ _ _ _ _ _ Hp Hin1) as [_ Hx1].
  destruct (layoutNode_abscissa _ _ _ _ _ _ _ Hp Hin2) as [_ Hx2].
  assert (d1 = d2) as Hd.
  { assert (Qnat d1 == Qnat d2)%Q as E by (rewrite Hx1, Hx2 in Hx; qlra).
    apply Nat.le_antisymm; apply Qnat_inj_le; lra. }
  pose proof (StronglySorted_lookup _ _ _ _ _ _
                (column_sorted _ _ _ _ 0 Hp) Hij E1 E2 Hd) as Hsep.
  cbn [fst snd] in Hsep.
  destruct (layout_sizes _ _ _ _ q1 Hp) as [-> _]; [|done].
  rewrite <- (positionsAtDepth_flatten 0).
  by apply (list_elem_of_fmap_2 snd) in Hin1.
Qed.

Lemma same_column_separated_witness :
  (p_y ex_A + p_height ex_A + SIBLING_GAP <= p_y ex_B)%Q.
Proof.
  apply (same_column_separated ex_tree2 ex_R ex_A ex_B 1 2).
  - vm_compute. reflexivity.
  - lia.
  - vm_compute. reflexivity.
  - vm_compute. reflexivity.
  - vm_compute. reflexivity.
Defined.

(** ** Layout: the height of a subtree counts its leaves *)

Lemma Qnat_add a b : (Qnat (a + b) == Qnat a + Qnat b)%Q.
Proof. unfold Qnat. rewrite Nat2Z.inj_add, inject_Z_plus. reflexivity. Qed.

Lemma chain_last x cur cs ps cur' lastChild hl :
  chain x cur cs ps cur' → last ps = Some lastChild →
  getSubtreeHeight lastChild = Some hl →
  cur' = (p_y lastChild + hl + SIBLING_GAP)%Q.
Proof.
  induction 1 as [|cur c cs p ps h cur' Hp Hh Hrest IH]; [done|].
  destruct ps as [|p' ps].
  - inversion Hrest; subst. intros [= ->] Hhl. rewrite Hh in Hhl. by injection Hhl as ->.
  - rewrite last_cons_cons. exact IH.
Qed.

Lemma chain_leaves x cur cs ps cur' :
  Forall (λ c, ∀ x s p h, layoutNode c x s = Some p → getSubtreeHeight p = Some h →
     (p_y p + h
      == s + (NODE_HEIGHT + SIBLING_GAP) * Qnat (leafCount c) - SIBLING_GAP)%Q) cs →
  chain x cur cs ps cur' →
  (cur' == cur + (NODE_HEIGHT + SIBLING_GAP) * Qnat (list_sum (map leafCount cs)))%Q.
Proof.
  intros IH Hchain. induction Hchain as [|cur c cs p ps h cur' Hp Hh Hrest IHch].
  - assert (Qnat 0 == 0)%Q as H0 by reflexivity. simpl. rewrite H0. lra.
  - apply Forall_cons in IH as [Hc IH]. specialize (IHch IH).
    specialize (Hc _ _ _ _ Hp Hh).
    change (list_sum (map leafCount (c :: cs)))
      with (leafCount c + list_sum (map leafCount cs)).
    rewrite Qnat_add, IHch. qlra.
Qed.

Lemma chain_length x cur cs ps cur' : chain x cur cs ps cur' → length ps = length cs.
Proof. induction 1; simpl; auto. Qed.

(** The bottom of a subtree laid out with cursor [s] lies one node height
    and one gap per leaf below [s], less the gap after the last leaf. *)
Lemma subtree_bottom node : ∀ x s p h,
  layoutNode node x s = Some p → getSubtreeHeight p = Some h →
  (p_y p + h
   == s + (NODE_HEIGHT + SIBLING_GAP) * Qnat (leafCount node) - SIBLING_GAP)%Q.
Proof.
  induction node as [i t cs col IH] using node_ind. intros x s p h Hp Hh.
  destruct (layoutNode_inv _ _ _ _ Hp) as (cur' & Hchain & Hy & _ & _ & _ & Hheight).
  cbn [n_children] in Hchain.
  pose proof (chain_leaves _ _ _ _ _ IH Hchain) as Hcur.
  pose proof (chain_length _ _ _ _ _ Hchain) as Hlen.
  rewrite getSubtreeHeight_eq in Hh.
  destruct (last (p_children p)) as [lastChild|] eqn:Elast.
  - destruct (getSubtreeHeight lastChild) as [hl|] eqn:Ehl; [|done].
    cbn [mbind option_bind] in Hh. injection Hh as <-.
    rewrite (chain_last _ _ _ _ _ _ _ Hchain Elast Ehl) in Hcur.
    destruct cs as [|c cs]; [by destruct (p_children p)|].
    cbn [leafCount n_children]. qlra.
  - apply last_None in Elast. rewrite Elast in Hlen, Hy.
    destruct cs as [|c cs]; [|done].
    injection Hh as <-. cbn in Hy. injection Hy as <-.
    assert (Qnat 1 == 1)%Q as H1 by reflexivity.
    cbn [leafCount n_children]. rewrite Hheight, H1. qlra.
Qed.

Lemma bottom_attained p : ∀ h,
  getSubtreeHeight p = Some h →
  ∃ q, q ∈ flattenPositions p ∧ (p_y q + p_height q == p_y p + h)%Q.
Proof.
  induction p as [n x y w ht cs IH] using pos_ind. intros h Hh.
  rewrite getSubtreeHeight_eq in Hh. cbn [p_children p_height p_y] in *.
  destruct (last cs) as [lastChild|] eqn:Elast.
  - destruct (getSubtreeHeight lastChild) as [hl|] eqn:Ehl; [|done].
    cbn [mbind option_bind] in Hh. injection Hh as <-.
    rewrite Forall_forall in IH.
    assert (lastChild ∈ cs) as Hin.
    { apply last_Some in Elast as [l' ->]. apply elem_of_app. right. by left. }
    destruct (IH _ Hin _ Ehl) as (q & Hq & Hbot).
    exists q. split.
    + rewrite flattenPositions_eq. right. apply elem_of_flat_map. by exists lastChild.
    + rewrite Hbot. lra.
  - injection Hh as <-. eexists. split.
    + rewrite flattenPositions_eq. by left.
    + reflexivity.
Qed.

Lemma getBoundingBox_extremes root :
  ∃ mnX mnY mxX mxY,
    getBoundingBox root
      = mkBox (Fin mnX) (Fin mnY) (Fin mxX) (Fin mxY)
              (Fin (mxX - mnX)) (Fin (mxY - mnY)) ∧
    isMinOf mnX (map p_x (flattenPositions root)) ∧
    isMinOf mnY (map p_y (flattenPositions root)) ∧
    isMaxOf mxX (map (λ q, p_x q + p_width q)%Q (flattenPositions root)) ∧
    isMaxOf mxY (map (λ q, p_y q + p_height q)%Q (flattenPositions root)).
Proof.
  unfold getBoundingBox. rewrite flattenPositions_eq.
  cbn [foldl]. unfold extend at 2. cbn [mathMin mathMax].
  destruct (extend_fold (flat_map flattenPositions (p_children root))
              (p_x root) (p_y root)
              (p_x root + p_width root) (p_y root + p_height root))
    as (a & b & c & d & -> & Ha & Hb & Hc & Hd).
  by exists a, b, c, d.
Qed.

Lemma nodeWidth_min node : (100 <= nodeWidth node)%Q.
Proof. unfold nodeWidth. apply Q.le_max_l. Qed.

Lemma layout_box root p :
  calculateLayout root = Some p →
  ∃ mnX mnY mxX mxY h,
    getBoundingBox p
      = mkBox (Fin mnX) (Fin mnY) (Fin mxX) (Fin mxY)
              (Fin (mxX - mnX)) (Fin (mxY - mnY)) ∧
    (mnX == 0)%Q ∧ (mnY == 0)%Q ∧
    getSubtreeHeight p = Some h ∧ (mxY == p_y p + h)%Q ∧
    (100 <= mxX)%Q ∧ (40 <= mxY)%Q ∧
    isMaxOf mxX (map (λ q, p_x q + p_width q)%Q (flattenPositions p)).
Proof.
  intros Hp. pose proof (layoutNode_spans_of _ _ _ _ Hp) as Hspans.
  destruct (getBoundingBox_extremes p)
    as (mnX & mnY & mxX & mxY & Hbox & [HmnX HleX] & [HmnY HleY] & [HmxX HgeX]
        & [HmxY HgeY]).
  destruct Hspans as (h & Hh & Hh40 & Hge & (q0 & Hq0 & Hq0y) & Hbot).
  exists mnX, mnY, mxX, mxY, h. split; [done|].
  destruct (layoutNode_inv _ _ _ _ Hp) as (_ & _ & _ & _ & Hx & Hw & _).
  assert (Qnat 0 == 0)%Q as H0 by reflexivity.
  assert (p ∈ flattenPositions p) as Hroot by (rewrite flattenPositions_eq; by left).
  assert (mnX == 0)%Q as EX.
  { apply Qle_antisym.
    - rewrite <- Hx. apply HleX. by apply (list_elem_of_fmap_2 p_x).
    - apply list_elem_of_fmap in HmnX as (q & -> & Hq).
      rewrite <- (positionsAtDepth_flatten 0) in Hq.
      apply list_elem_of_fmap in Hq as ([d q'] & -> & Hq).
      destruct (layoutNode_abscissa _ _ _ _ _ _ _ Hp Hq) as [_ ->].
      pose proof (Qnat_nonneg d). cbn [snd]. qlra. }
  assert (mnY == 0)%Q as EY.
  { apply Qle_antisym.
    - rewrite <- Hq0y. apply HleY. by apply (list_elem_of_fmap_2 p_y).
    - apply list_elem_of_fmap in HmnY as (q & -> & Hq). by apply Hge. }
  assert (mxY == p_y p + h)%Q as EmxY.
  { apply Qle_antisym.
    - apply list_elem_of_fmap in HmxY as (q & -> & Hq). by apply Hbot.
    - destruct (bottom_attained p h Hh) as (q & Hq & <-).
      apply HgeY. by apply (list_elem_of_fmap_2 (λ q, p_y q + p_height q)%Q). }
  assert (100 <= mxX)%Q as Hwide.
  { pose proof (nodeWidth_min root).
    assert (p_x p + p_width p <= mxX)%Q
      by (apply HgeX; by apply (list_elem_of_fmap_2 (λ q, p_x q + p_width q)%Q)).
    rewrite Hx, Hw in *. lra. }
  pose proof (Hge p Hroot).
  split_and!; try done; try qlra.
Qed.

(** X5.  The bounding box of a layout starts at the origin and is as high
    as the tree has leaves: [minX = 0], [minY = 0], and
    [height = (NODE_HEIGHT + SIBLING_GAP) * leaves - SIBLING_GAP], that is
    [60 * leaves - 20]; its width is at least
    [LEVEL_GAP * getMaxDepth(root) + 100].  So [width >= 100] and
    [height >= 40]: neither is ever zero. *)
Theorem bounding_box_of_layout (root : MindmapNode) :
  ∃ p mnX mnY mxX mxY,
    calculateLayout root = Some p ∧
    getBoundingBox p
      = mkBox (Fin mnX) (Fin mnY) (Fin mxX) (Fin mxY)
              (Fin (mxX - mnX)) (Fin (mxY - mnY)) ∧
    (mnX == 0)%Q ∧ (mnY == 0)%Q ∧
    (mxY - mnY == 60 * Qnat (leafCount root) - 20)%Q ∧
    (LEVEL_GAP * Qnat (getMaxDepth root 0) + 100 <= mxX - mnX)%Q ∧
    (100 <= mxX - mnX)%Q ∧ (40 <= mxY - mnY)%Q.
Proof.
  destruct (layoutNode_spans root 0 0) as (p & Hp & _).
  destruct (layout_box root p Hp)
    as (mnX & mnY & mxX & mxY & h & Hbox & EX & EY & Hh & EmxY & Hw & Hh40
        & [_ HgeX]).
  exists p, mnX, mnY, mxX, mxY. split; [done|]. split; [done|].
  pose proof (subtree_bottom _ _ _ _ _ Hp Hh) as Hclosed.
  destruct (deepest_position root p Hp) as [_ (q & Hq & Hqx)].
  assert (LEVEL_GAP * Qnat (getMaxDepth root 0) + 100 <= mxX)%Q as Hdeep.
  { destruct (layout_sizes _ _ _ _ q Hp Hq) as [_ Hwq].
    pose proof (nodeWidth_min (p_node q)).
    assert (p_x q + p_width q <= mxX)%Q
      by (apply HgeX; by apply (list_elem_of_fmap_2 (λ q, p_x q + p_width q)%Q)).
    rewrite Hwq in *. lra. }
  split_and!; [done | done | qlra | qlra | qlra | qlra].
Qed.

(** ** Renderer: labels and connections *)

(** X6.  The label drawn in a node is never longer than 20 code units: a
    text of at most 20 units is drawn as it is, a longer one as its first
    17 units followed by three full stops.  The width of the node's box is
    computed from the whole text, so it always allows 8 units of width per
    drawn character plus the padding on both sides. *)
Theorem nodeLabel_fits (node : MindmapNode) :
  length (nodeLabel node) ≤ 20 ∧
  (length (n_text node) ≤ 20 → nodeLabel node = n_text node) ∧
  (20 < length (n_text node) →
     length (nodeLabel node) = 20 ∧
     take 17 (nodeLabel node) = take 17 (n_text node) ∧
     drop 17 (nodeLabel node) = lit "...") ∧
  (Qnat (length (nodeLabel node)) * 8 + NODE_PADDING * 2 <= nodeWidth node)%Q.
Proof.
  unfold nodeLabel.
  assert (length (lit "...") = 3) as H3 by reflexivity.
  destruct (decide (20 < length (n_text node))) as [Hlong|Hshort].
  - assert (length (take 17 (n_text node)) = 17) as H17
      by (rewrite length_take; lia).
    split_and!.
    + rewrite length_app, H17, H3. lia.
    + lia.
    + intros _. split_and!.
      * rewrite length_app, H17, H3. lia.
      * rewrite take_app_le by lia. rewrite take_take. f_equal.
      * rewrite drop_app_ge by lia. rewrite H17. by rewrite Nat.sub_diag.
    + rewrite length_app, H17, H3. unfold nodeWidth.
      eapply Qle_trans; [|apply Q.le_max_r].
      assert (Qnat (17 + 3) <= Qnat (length (n_text node)))%Q
        by (apply Qnat_inj_le; lia).
      unfold Qnat in *. qlra.
  - split_and!; [lia | done | lia |].
    unfold nodeWidth. eapply Qle_trans; [|apply Q.le_max_r]. unfold Qnat. lra.
Qed.

Lemma nodeWidth_fits_gap node :
  (nodeWidth node <= LEVEL_GAP)%Q ↔ length (n_text node) ≤ 13.
Proof.
  unfold nodeWidth. rewrite Q.max_lub_iff.
  change (inject_Z (Z.of_nat (length (n_text node)))) with (Qnat (length (n_text node))).
  split.
  - intros [_ H]. apply Qnat_inj_le.
    destruct (le_lt_dec (length (n_text node)) 13) as [Hle|Hgt].
    + by apply Qnat_inj_le.
    + exfalso. assert (Qnat 14 <= Qnat (length (n_text node)))%Q
        by (apply Qnat_inj_le; lia).
      assert (Qnat 14 == 14)%Q by reflexivity. qlra.
  - intros H. apply Qnat_inj_le in H.
    assert (Qnat 13 == 13)%Q by reflexivity. split; qlra.
Qed.

(** X7.  Every connection the renderer draws in a layout runs from the
    right edge of the parent's box, at mid-height, to the left edge of the
    child's box, at mid-height.  The child's box starts [LEVEL_GAP = 150]
    to the right of the parent's left edge whatever the parent's width, so
    the connection runs [150 - width] to the right: it runs forward exactly
    when the parent's text has at most 13 code units, and for a longer text
    the parent's box reaches into the column of its children. *)
Theorem connection_geometry (root : MindmapNode) (p parent child : NodePosition) :
  calculateLayout root = Some p →
  (parent, child) ∈ concat (links (flattenPositions p)) →
  (p_x child - p_x parent == LEVEL_GAP)%Q ∧
  (endX (Connection parent child) - startX (Connection parent child)
   == LEVEL_GAP - nodeWidth (p_node parent))%Q ∧
  ((startX (Connection parent child) <= endX (Connection parent child))%Q
   ↔ length (n_text (p_node parent)) ≤ 13) ∧
  (startY (Connection parent child) == p_y parent + 20)%Q ∧
  (endY (Connection parent child) == p_y child + 20)%Q ∧
  (midX (Connection parent child)
   == (startX (Connection parent child) + endX (Connection parent child)) / 2)%Q.
Proof.
  intros Hp Hin.
  apply list_elem_of_In, in_concat in Hin as (l & Hl & Hin).
  apply list_elem_of_In in Hl, Hin. unfold links in Hl.
  apply list_elem_of_fmap in Hl as (q & -> & Hq).
  apply list_elem_of_fmap in Hin as (c & [= -> ->] & Hc).
  destruct (flatten_laid _ _ _ _ Hp q Hq) as (n & x & s & Hlaid).
  destruct (layoutNode_inv _ _ _ _ Hlaid)
    as (cur' & Hchain & _ & Hn & Hx & Hw & Hh).
  destruct (chain_laid _ _ _ _ _ c Hchain Hc) as (nc & sc & Hlaidc).
  destruct (layoutNode_inv _ _ _ _ Hlaidc) as (_ & _ & _ & _ & Hxc & _ & Hhc).
  pose proof (nodeWidth_fits_gap (p_node q)) as Hfit.
  cbn [Connection startX startY endX endY midX].
  rewrite Hxc, Hx, Hw, Hh, Hhc, Hn in *.
  split_and!; try qlra.
  rewrite <- Hfit. split; intros; lra.
Qed.

Lemma connection_geometry_witness :
  (p_x ex_B - p_x ex_R == LEVEL_GAP)%Q ∧
  (endX (Connection ex_R ex_B) - startX (Connection ex_R ex_B)
   == LEVEL_GAP - nodeWidth (p_node ex_R))%Q ∧
  ((startX (Connection ex_R ex_B) <= endX (Connection ex_R ex_B))%Q
   ↔ length (n_text (p_node ex_R)) ≤ 13) ∧
  (startY (Connection ex_R ex_B) == p_y ex_R + 20)%Q ∧
  (endY (Connection ex_R ex_B) == p_y ex_B + 20)%Q ∧
  (midX (Connection ex_R ex_B)
   == (startX (Connection ex_R ex_B) + endX (Connection ex_R ex_B)) / 2)%Q.
Proof.
  apply (connection_geometry ex_tree2 ex_R ex_R ex_B).
  - vm_compute. reflexivity.
  - apply list_elem_of_In. vm_compute. right. left. reflexivity.
Defined.

(** A parent whose text has 14 code units and its only child: the boxes
    have the same [y], and the parent's box, 152 wide, covers the first two
    units of the child's box. *)
Example overlapping_boxes :
  ∃ p c, calculateLayout (mkNode [] (lit "fourteen chars") [leaf "child"] None) = Some p ∧
         p_children p = [c] ∧
         (p_y c == p_y p)%Q ∧ (p_x c == 150)%Q ∧ (p_x p + p_width p == 152)%Q.
Proof. eexists _, _. split_and!; vm_compute; reflexivity. Qed.

(** ** Parser: the nodes in pre-order are the lines in order *)

Lemma stateLines_cons top parent rest :
  stateLines (top, parent :: rest) = stateLines (parent, rest) ++ frameLines top.
Proof.
  unfold stateLines. cbn [fst snd]. rewrite (reverse_cons _ top), flat_map_app.
  simpl. by rewrite app_nil_r.
Qed.

Lemma frameLines_adopt top parent :
  frameLines (adopt (close top) parent) = frameLines parent ++ frameLines top.
Proof.
  unfold frameLines, adopt, close. cbn [f_text f_done].
  rewrite flat_map_app. simpl. by rewrite app_nil_r.
Qed.

Lemma stateLines_one f : stateLines (f, []) = frameLines f.
Proof.
  unfold stateLines. cbn [fst snd]. rewrite reverse_singleton.
  cbn [flat_map]. by rewrite app_nil_r.
Qed.

Lemma stateLines_adopt top parent rest :
  stateLines (adopt (close top) parent, rest) = stateLines (top, parent :: rest).
Proof.
  rewrite stateLines_cons. destruct rest as [|g rest].
  - by rewrite !stateLines_one, frameLines_adopt.
  - rewrite !stateLines_cons, frameLines_adopt. by rewrite (assoc_L (++)).
Qed.

Lemma popFrames_lines level below : ∀ top,
  stateLines (popFrames level top below) = stateLines (top, below).
Proof.
  induction below as [|parent rest IH]; intros top; simpl; [done|].
  destruct (decide (level ≤ f_level top)); [|done].
  by rewrite IH, stateLines_adopt.
Qed.

Lemma pushLine_lines st line : stateLines (pushLine st line) = stateLines st ++ [line.1].
Proof.
  unfold pushLine. pose proof (popFrames_lines line.2 st.2 st.1) as H.
  destruct (popFrames line.2 st.1 st.2) as [top below].
  rewrite stateLines_cons, H. by destruct st.
Qed.

Lemma feed_lines lines : ∀ st,
  stateLines (feed st lines) = stateLines st ++ map fst lines.
Proof.
  induction lines as [|line lines IH]; intros st; simpl.
  - by rewrite app_nil_r.
  - unfold feed in *. simpl. rewrite IH, pushLine_lines.
    by rewrite <- (assoc_L (++)).
Qed.

Lemma finish_lines st : shapeTexts (finish st) = stateLines st.
Proof.
  destruct st as [top below]. unfold finish. cbn [fst snd].
  rewrite <- (popFrames_lines 0 below top).
  pose proof (popFrames_zero top below) as H.
  destruct (popFrames 0 top below) as [f below']. simpl in H. subst below'.
  by rewrite stateLines_one.
Qed.

Lemma buildShape_lines first rest :
  shapeTexts (buildShape (first :: rest)) = map pl_text (first :: rest).
Proof.
  unfold buildShape. rewrite finish_lines, feed_lines, stateLines_one.
  unfold frameLines. cbn [f_text f_done flat_map app map]. f_equal.
  rewrite <- list_fmap_compose. done.
Qed.

(** X8.  The parser keeps the order of the document: the texts of the
    nodes of the parsed tree, in pre-order, are the non-blank lines of the
    input, trimmed, in the order in which they appear (and the single text
    of the placeholder when there is no such line). *)
Theorem preorder_is_line_order (generateId : nat → str) (text : str) :
  ∃ t, parseTextToTree generateId text = Some t ∧
       map n_text (nodesOf t)
       = if decide (nonBlankLines text = []) then [lit "Empty Mindmap"]
         else map trim (nonBlankLines text).
Proof.
  destruct (parse_shape generateId text) as (t & Ht & Hshape).
  exists t. split; [done|].
  rewrite nodesOf_texts, Hshape.
  pose proof (parseLines_texts text) as Htexts.
  pose proof (parseLines_length text) as Hlen.
  destruct (parseLines text) as [|first rest] eqn:E.
  - rewrite decide_True; [done|]. by destruct (nonBlankLines text).
  - rewrite decide_False by (by destruct (nonBlankLines text)).
    rewrite buildShape_lines. exact Htexts.
Qed.

(** ** Parser: the indentation of the first line plays no part *)

Lemma relevel_adopt level c f rest :
  relevel level (adopt c f) rest
  = (adopt c (relevel level f rest).1, (relevel level f rest).2).
Proof. by destruct rest. Qed.

Lemma popFrames_relevel l level below : ∀ top,
  popFrames level (relevel l top below).1 (relevel l top below).2
  = relevel l (popFrames level top below).1 (popFrames level top below).2.
Proof.
  induction below as [|parent rest IH]; intros top; [done|].
  cbn [relevel fst snd popFrames].
  destruct (decide (level ≤ f_level top)); [|done].
  rewrite <- IH, relevel_adopt. done.
Qed.

Lemma pushLine_relevel l st line :
  pushLine (relevel l st.1 st.2) line
  = relevel l (pushLine st line).1 (pushLine st line).2.
Proof.
  unfold pushLine. rewrite popFrames_relevel.
  destruct (popFrames line.2 st.1 st.2) as [top below]. cbn [fst snd relevel].
  by destruct (relevel l top below).
Qed.

Lemma feed_relevel l lines : ∀ st,
  feed (relevel l st.1 st.2) lines = relevel l (feed st lines).1 (feed st lines).2.
Proof.
  induction lines as [|line lines IH]; intros st; [done|].
  unfold feed in *. cbn [foldl]. rewrite pushLine_relevel. apply IH.
Qed.

Lemma finish_relevel l st : finish (relevel l st.1 st.2) = finish st.
Proof.
  unfold finish. rewrite popFrames_relevel.
  pose proof (popFrames_zero st.1 st.2) as H.
  destruct (popFrames 0 st.1 st.2) as [f below]. simpl in H. by subst below.
Qed.

(** The level recorded for the first line is never read. *)
Lemma buildShape_first_level first first' rest :
  pl_text first = pl_text first' →
  buildShape (first :: rest) = buildShape (first' :: rest).
Proof.
  intros Htext. unfold buildShape.
  rewrite <- (finish_relevel (pl_level first')
                (feed ({| f_text := pl_text first; f_level := pl_level first;
                          f_done := [] |}, []) (outlineOf <$> rest))).
  rewrite <- feed_relevel. cbn [fst snd relevel setLevel f_text f_done].
  by rewrite Htext.
Qed.

Lemma split_app_no_sep sep a s :
  sep ∉ a →
  split sep (a ++ s)
  = match split sep s with p :: ps => (a ++ p) :: ps | [] => [a] end.
Proof.
  induction a as [|c a IH]; intros Ha.
  - simpl. pose proof (split_nonempty sep s). by destruct (split sep s).
  - cbn [app split]. rewrite bool_decide_eq_false_2 by (intros ->; apply Ha; by left).
    rewrite IH by (intros H; apply Ha; by right).
    pose proof (split_nonempty sep s). by destruct (split sep s).
Qed.

Lemma trim_app_spaces ws s :
  Forall (λ c, isWhiteSpace c = true) ws → trim (ws ++ s) = trim s.
Proof. intros H. unfold trim. by rewrite dropWhile_app. Qed.

(** X9.  White space in front of the first line of a document does not
    change the tree: the first non-blank line becomes the root whatever its
    indentation, and the level recorded for it is never compared with
    anything. *)
Theorem leading_space_ignored (generateId generateId' : nat → str)
    (ws text : str) :
  Forall (λ c, isWhiteSpace c = true ∧ c ≠ LF) ws →
  ∃ t t', parseTextToTree generateId (ws ++ text) = Some t ∧
          parseTextToTree generateId' text = Some t' ∧
          shape t = shape t'.
Proof.
  intros Hws.
  destruct (parse_shape generateId (ws ++ text)) as (t & Ht & Hs).
  destruct (parse_shape generateId' text) as (t' & Ht' & Hs').
  exists t, t'. split; [done|]. split; [done|]. rewrite Hs, Hs'.
  assert (Forall (λ c, isWhiteSpace c = true) ws) as Hsp
    by (eapply Forall_impl; [exact Hws | by intros c [? _]]).
  assert (LF ∉ ws) as HLF.
  { intros Hin. rewrite Forall_forall in Hws. by destruct (Hws _ Hin). }
  unfold parseLines. rewrite (split_app_no_sep _ _ _ HLF).
  pose proof (split_nonempty LF text) as Hne.
  destruct (split LF text) as [|line lines]; [done|].
  cbn [parseLinesFrom]. rewrite (trim_app_spaces _ _ Hsp).
  destruct (decide (trim line = [])); [done|].
  by apply buildShape_first_level.
Qed.

Lemma leading_space_ignored_witness :
  ∃ t t', parseTextToTree noIds (lit "      " ++ ex_text) = Some t ∧
          parseTextToTree noIds ex_text = Some t' ∧
          shape t = shape t'.
Proof.
  apply (leading_space_ignored noIds noIds (lit "      ") ex_text).
  repeat constructor; done.
Defined.

(** ** Serializer: one line per node *)

Lemma outline_nodes node : ∀ level,
  outline level (shape node)
  = map (λ dn, (n_text dn.2, dn.1)) (nodesAtDepth level node).
Proof.
  induction node as [i t cs col IH] using node_ind. intros level.
  cbn [shape outline nodesAtDepth n_text n_children i_text i_items map fst snd].
  f_equal. induction IH as [|c cs Hc _ IHcs]; [done|].
  cbn [map flat_map]. by rewrite map_app, Hc, IHcs.
Qed.

(** X10.  [treeToText] writes one line per node, in pre-order: the text of
    the node behind two spaces per level of depth, lines separated by a
    line feed and no line feed at the end.  For a tree none of whose texts
    contains a line feed, splitting the output at line feeds gives exactly
    these lines, [countNodes] of them. *)
Theorem treeToText_lines (t : MindmapNode) :
  (∀ n, n ∈ nodesOf t → LF ∉ n_text n) →
  treeToText t 0
  = join [LF] (map (λ dn, indentOf dn.1 ++ n_text dn.2) (nodesAtDepth 0 t)) ∧
  split LF (treeToText t 0)
  = map (λ dn, indentOf dn.1 ++ n_text dn.2) (nodesAtDepth 0 t) ∧
  length (split LF (treeToText t 0)) = countNodes t.
Proof.
  intros Hclean.
  assert (treeToText t 0
          = join [LF] (map (λ dn, indentOf dn.1 ++ n_text dn.2) (nodesAtDepth 0 t)))
    as Htext.
  { rewrite treeToText_outline, outline_nodes, map_map. done. }
  assert (split LF (treeToText t 0)
          = map (λ dn, indentOf dn.1 ++ n_text dn.2) (nodesAtDepth 0 t)) as Hsplit.
  { rewrite Htext. apply split_join.
    - rewrite nodesAtDepth_eq. done.
    - apply Forall_forall. intros line Hline.
      apply list_elem_of_fmap in Hline as ([d n] & -> & Hdn). cbn [fst snd].
      apply (render_no_LF (n_text n, d)). cbn [fst]. apply Hclean.
      rewrite <- (nodesAtDepth_nodes t 0).
      by apply (list_elem_of_fmap_2 snd) in Hdn. }
  split; [done|]. split; [done|].
  by rewrite Hsplit, length_map, <- nodesOf_length, <- (nodesAtDepth_nodes t 0),
       length_map.
Qed.

Lemma treeToText_lines_witness :
  treeToText ex_tree 0
  = join [LF] (map (λ dn, indentOf dn.1 ++ n_text dn.2) (nodesAtDepth 0 ex_tree)) ∧
  split LF (treeToText ex_tree 0)
  = map (λ dn, indentOf dn.1 ++ n_text dn.2) (nodesAtDepth 0 ex_tree) ∧
  length (split LF (treeToText ex_tree 0)) = countNodes ex_tree.
Proof.
  apply (treeToText_lines ex_tree).
  apply Forall_forall. apply (bool_decide_unpack _). vm_compute. exact I.
Defined.

(** ** Parser: what the tree does not depend on *)

Lemma buildShape_ext l1 l2 :
  map outlineOf l1 = map outlineOf l2 → buildShape l1 = buildShape l2.
Proof.
  destruct l1 as [|a l1], l2 as [|b l2]; try done.
  cbn [map]. intros [= Ht Hl Hrest]. unfold buildShape.
  change (outlineOf <$> l1) with (map outlineOf l1).
  change (outlineOf <$> l2) with (map outlineOf l2).
  by rewrite Ht, Hl, Hrest.
Qed.

Lemma parseLinesFrom_filter lines : ∀ i j,
  map outlineOf (parseLinesFrom i (filter (λ line, trim line ≠ []) lines))
  = map outlineOf (parseLinesFrom j lines).
Proof.
  induction lines as [|line lines IH]; intros i j; [done|].
  rewrite filter_cons. cbn [parseLinesFrom].
  destruct (decide (trim line = [])) as [E|E].
  - rewrite decide_False by (intros H; by apply H). apply IH.
  - rewrite decide_True by done. cbn [parseLinesFrom].
    rewrite decide_False by done. cbn [map]. f_equal. apply IH.
Qed.

(** X11.  Blank lines carry no information: deleting every blank line of
    a document (a line that is empty or holds only white space) leaves the
    parsed tree unchanged, and so does any change of line numbers. *)
Theorem blank_lines_ignored (generateId generateId' : nat → str) (text : str) :
  ∃ t t', parseTextToTree generateId text = Some t ∧
          parseTextToTree generateId' (join [LF] (nonBlankLines text)) = Some t' ∧
          shape t = shape t'.
Proof.
  destruct (parse_shape generateId text) as (t & Ht & Hs).
  destruct (parse_shape generateId' (join [LF] (nonBlankLines text)))
    as (t' & Ht' & Hs').
  exists t, t'. split; [done|]. split; [done|]. rewrite Hs, Hs'.
  apply buildShape_ext. unfold parseLines, nonBlankLines.
  destruct (filter (λ line, trim line ≠ []) (split LF text)) as [|l ls] eqn:E.
  - rewrite <- (parseLinesFrom_filter (split LF text) 0 0), E. done.
  - rewrite split_join; [|done|].
    + rewrite <- E. symmetry. apply parseLinesFrom_filter.
    + rewrite <- E. apply Forall_forall. intros piece Hin.
      apply list_elem_of_filter in Hin as [_ Hin]. by eapply split_pieces.
Qed.

(** X12.  Writing a parsed tree out and reading it back is a
    normalisation that is stable: the text written for the tree read back
    is the text that was written. *)
Theorem treeToText_parse_idempotent (generateId generateId' : nat → str)
    (text : str) :
  ∃ t t', parseTextToTree generateId text = Some t ∧
          parseTextToTree generateId' (treeToText t 0) = Some t' ∧
          treeToText t' 0 = treeToText t 0.
Proof.
  destruct (parse_shape generateId text) as (t & Ht & _).
  destruct (parse_shape generateId' (treeToText t 0)) as (t' & Ht' & Hs').
  exists t, t'. split; [done|]. split; [done|].
  rewrite !treeToText_outline. f_equal. f_equal. f_equal.
  rewrite Hs'. apply buildShape_outline, parseLines_treeToText.
  by eapply parse_texts_clean.
Qed.

(** ** Renderer: zoom limits and fitting *)

Lemma clamp_inRange q : inRange (mathMin (mathMax (Fin q) (Fin (1 # 10))) (Fin 3)).
Proof.
  cbn [mathMin mathMax]. eexists. split; [reflexivity|].
  split.
  - apply Q.min_glb; [apply Q.le_max_r | lra].
  - apply Q.le_min_r.
Qed.

Lemma handleWheel_heals deltaY v :
  scale v ≠ NaN → inRange (scale (handleWheel deltaY v)).
Proof.
  intros Hv. unfold handleWheel. cbn [scale].
  destruct (scale v) as [| |s|]; [done| | |].
  - destruct (Qlt_le_dec 0 deltaY); eexists; (split; [vm_compute; reflexivity|]);
      split; vm_compute; discriminate.
  - cbn [numMul]. apply clamp_inRange.
  - destruct (Qlt_le_dec 0 deltaY); eexists; (split; [vm_compute; reflexivity|]);
      split; vm_compute; discriminate.
Qed.

Lemma zoom_inRange boundingBox v e :
  isFit e = false → inRange (scale v) → inRange (scale (viewStep boundingBox v e)).
Proof.
  intros He (s & Hs & Hlo & Hhi). destruct e as [deltaY| | |W H|]; [| | |done|].
  - apply handleWheel_heals. by rewrite Hs.
  - unfold viewStep, zoomIn. rewrite Hs. cbn [scale numMul mathMin].
    eexists. split; [reflexivity|]. split.
    + apply Q.min_glb; lra.
    + apply Q.le_min_r.
  - unfold viewStep, zoomOut. rewrite Hs. cbn [scale numMul mathMax].
    eexists. split; [reflexivity|]. split.
    + apply Q.le_max_r.
    + apply Q.max_lub; lra.
  - cbn. eexists. split; [reflexivity|]. lra.
Qed.

(** X13.  The zoom controls keep the scale within [[0.1, 3]]: starting
    from the initial view, after any sequence of wheel steps, clicks on [+]
    and [-] and resets the scale is a finite number between 0.1 and 3 and
    the translation has not moved.  A wheel step brings any scale that is
    a number back into that range in one step. *)
Theorem zoom_stays_in_range (boundingBox : option BoundingBox)
    (events : list ViewEvent) :
  (forallb (λ e, negb (isFit e)) events = true →
   inRange (scale (foldl (viewStep boundingBox) initialView events)) ∧
   translate (foldl (viewStep boundingBox) initialView events) = (Fin 50, Fin 50)) ∧
  (∀ deltaY v, scale v ≠ NaN → inRange (scale (handleWheel deltaY v))).
Proof.
  split; [|intros; by apply handleWheel_heals].
  assert (inRange (scale initialView) ∧ translate initialView = (Fin 50, Fin 50))
    as Hinit.
  { split; [|done]. exists 1%Q. split; [done|]. lra. }
  revert Hinit. generalize initialView.
  induction events as [|e events IH]; intros v [Hr Ht] Hall; [done|].
  cbn [forallb] in Hall. apply andb_true_iff in Hall as [He Hall].
  apply negb_true_iff in He. cbn [foldl]. apply IH; [|done].
  split; [by apply zoom_inRange|].
  destruct e; try done.
Qed.

Lemma Qeq_bool_pos q : (0 < q)%Q → Qeq_bool q 0 = false.
Proof.
  intros H. destruct (Qeq_bool q 0) eqn:E; [|done].
  apply Qeq_bool_iff in E. lra.
Qed.

Lemma fitToView_layout root svgWidth svgHeight v :
  ∃ p w h s tx ty,
    calculateLayout root = Some p ∧
    width (getBoundingBox p) = Fin w ∧ height (getBoundingBox p) = Fin h ∧
    (100 <= w)%Q ∧ (40 <= h)%Q ∧
    fitToView svgWidth svgHeight (Some (getBoundingBox p)) v
    = mkView (Fin s) (Fin tx, Fin ty) ∧
    s = Qmin (Qmin ((svgWidth - 100) / w) ((svgHeight - 100) / h)) (15 # 10) ∧
    (tx == 50)%Q ∧ (ty == 50)%Q.
Proof.
  destruct (layoutNode_spans root 0 0) as (p & Hp & _).
  destruct (layout_box root p Hp)
    as (mnX & mnY & mxX & mxY & h0 & Hbox & HX & HY & _ & _ & Hw & Hh & _).
  assert (100 <= mxX - mnX)%Q as Hw' by lra.
  assert (40 <= mxY - mnY)%Q as Hh' by lra.
  exists p, (mxX - mnX)%Q, (mxY - mnY)%Q. eexists _, _, _.
  split; [done|]. rewrite Hbox. cbn [width height minX minY].
  split; [done|]. split; [done|]. split; [done|]. split; [done|].
  unfold fitToView. cbn [width height minX minY orOne].
  rewrite !Qeq_bool_pos by lra. cbn [numDiv].
  rewrite !Qeq_bool_pos by lra. cbn [mathMin numMul numSub].
  split; [reflexivity|]. split; [reflexivity|].
  split; [rewrite HX | rewrite HY]; qlra.
Qed.

Lemma viewStep_anchored boundingBox v e :
  (∀ svgWidth svgHeight v,
     anchored (fitToView svgWidth svgHeight boundingBox v)) →
  anchored v → anchored (viewStep boundingBox v e).
Proof.
  intros Hfit (s & tx & ty & -> & Hs & Htx & Hty).
  destruct e as [deltaY| | |W H|].
  - unfold viewStep, handleWheel. cbn [scale translate numMul mathMax mathMin].
    eexists _, tx, ty. split; [reflexivity|]. split; [apply Q.le_min_r | done].
  - unfold viewStep, zoomIn. cbn [scale translate numMul mathMin].
    eexists _, tx, ty. split; [reflexivity|]. split; [apply Q.le_min_r | done].
  - unfold viewStep, zoomOut. cbn [scale translate numMul mathMax].
    eexists _, tx, ty. split; [reflexivity|].
    split; [apply Q.max_lub; lra | done].
  - apply Hfit.
  - exists 1%Q, 50%Q, 50%Q. split; [reflexivity|]. split; [lra|]. split; reflexivity.
Qed.

(** X14.  [Fit] never moves the drawing away from the corner: the
    bounding box of a layout starts at the origin and is at least one node
    wide and high, so [fitToView] always divides by the box's own width and
    height (the fallback [|| 1] is not taken), picks the smaller of the two
    ratios capped at 1.5 as the scale, and sets the translation to
    [(50, 50)], the translation of the initial view and of [Reset].  Hence
    without dragging, whatever the user does, the translation stays at
    [(50, 50)] and the scale stays a finite number of at most 3. *)
Theorem fitToView_anchored (root : MindmapNode) (events : list ViewEvent) :
  ∃ p w h,
    calculateLayout root = Some p ∧
    width (getBoundingBox p) = Fin w ∧ height (getBoundingBox p) = Fin h ∧
    orOne (Fin w) = Fin w ∧ orOne (Fin h) = Fin h ∧
    (∀ svgWidth svgHeight v,
       ∃ tx ty,
         fitToView svgWidth svgHeight (Some (getBoundingBox p)) v
         = mkView (Fin (Qmin (Qmin ((svgWidth - 100) / w) ((svgHeight - 100) / h))
                             (15 # 10)))
                  (Fin tx, Fin ty) ∧
         (tx == 50)%Q ∧ (ty == 50)%Q) ∧
    anchored (foldl (viewStep (Some (getBoundingBox p))) initialView events).
Proof.
  destruct (fitToView_layout root 0 0 initialView)
    as (p & w & h & _ & _ & _ & Hp & Hw & Hh & Hw100 & Hh40 & _).
  assert (∀ svgWidth svgHeight v,
            ∃ tx ty,
              fitToView svgWidth svgHeight (Some (getBoundingBox p)) v
              = mkView (Fin (Qmin (Qmin ((svgWidth - 100) / w) ((svgHeight - 100) / h))
                                  (15 # 10)))
                       (Fin tx, Fin ty) ∧
              (tx == 50)%Q ∧ (ty == 50)%Q) as Hfit.
  { intros W H v.
    destruct (fitToView_layout root W H v)
      as (p' & w' & h' & s & tx & ty & Hp' & Hw' & Hh' & _ & _ & Hv & -> & Htx & Hty).
    rewrite Hp in Hp'. injection Hp' as <-.
    rewrite Hw in Hw'. injection Hw' as <-.
    rewrite Hh in Hh'. injection Hh' as <-.
    by exists tx, ty. }
  exists p, w, h. split_and!; try done.
  - cbn [orOne]. by rewrite Qeq_bool_pos by lra.
  - cbn [orOne]. by rewrite Qeq_bool_pos by lra.
  - assert (anchored initialView) as Hinit.
    { exists 1%Q, 50%Q, 50%Q. split; [reflexivity|]. split; [lra|].
      split; reflexivity. }
    revert Hinit. generalize initialView.
    induction events as [|e events IH]; intros v Hv; [done|].
    cbn [foldl]. apply IH. apply viewStep_anchored; [|done].
    intros W H v'. destruct (Hfit W H v') as (tx & ty & -> & Htx & Hty).
    eexists _, tx, ty. split; [reflexivity|]. split; [|done].
    eapply Qle_trans; [apply Q.le_min_r | lra].
Qed.

(** X15.  [Fit] makes the drawing fit.  With exact arithmetic, the scale
    it picks makes the layout's bounding box at most
    [svgWidth - 100] wide and [svgHeight - 100] high on the screen; the
    scale is positive when the SVG element is more than 100 wide and more
    than 100 high, and it is zero or negative when the element is at most
    100 wide or at most 100 high. *)
Theorem fitToView_fits (root : MindmapNode) (svgWidth svgHeight : Q) (v : View) :
  ∃ p w h s,
    calculateLayout root = Some p ∧
    width (getBoundingBox p) = Fin w ∧ height (getBoundingBox p) = Fin h ∧
    scale (fitToView svgWidth svgHeight (Some (getBoundingBox p)) v) = Fin s ∧
    (s * w <= svgWidth - 100)%Q ∧ (s * h <= svgHeight - 100)%Q ∧
    ((100 < svgWidth)%Q → (100 < svgHeight)%Q → (0 < s)%Q) ∧
    ((svgWidth <= 100)%Q ∨ (svgHeight <= 100)%Q → (s <= 0)%Q).
Proof.
  destruct (fitToView_layout root svgWidth svgHeight v)
    as (p & w & h & s & tx & ty & Hp & Hw & Hh & Hw100 & Hh40 & Hv & Hs & _).
  exists p, w, h, s. rewrite Hv. cbn [scale].
  split; [done|]. split; [done|]. split; [done|]. split; [done|].
  assert (s <= (svgWidth - 100) / w)%Q as HsX.
  { rewrite Hs. eapply Qle_trans; [apply Q.le_min_l | apply Q.le_min_l]. }
  assert (s <= (svgHeight - 100) / h)%Q as HsY.
  { rewrite Hs. eapply Qle_trans; [apply Q.le_min_l | apply Q.le_min_r]. }
  assert (∀ a d, (0 < d)%Q → (a / d * d == a)%Q) as Hcancel.
  { intros a d Hd. field. lra. }
  split_and!.
  - rewrite <- (Hcancel (svgWidth - 100)%Q w) by lra.
    apply Qmult_le_compat_r; [done | lra].
  - rewrite <- (Hcancel (svgHeight - 100)%Q h) by lra.
    apply Qmult_le_compat_r; [done | lra].
  - intros HW HH. rewrite Hs.
    apply Q.min_glb_lt; [apply Q.min_glb_lt|reflexivity];
      apply Qlt_shift_div_l; lra.
  - intros Hsmall.
    assert (∀ a d, (a <= 0)%Q → (0 < d)%Q → (a / d <= 0)%Q) as Hneg.
    { intros a d Ha Hd. apply Qle_shift_div_r; lra. }
    destruct Hsmall as [HW | HH].
    + eapply Qle_trans; [exact HsX|]. apply Hneg; lra.
    + eapply Qle_trans; [exact HsY|]. apply Hneg; lra.
Qed.

(** In an element 100 wide the scale [Fit] picks is 0, and [+] leaves it
    at 0; the wheel or [-] brings it back to 0.1. *)
Example fit_in_a_narrow_view :
  ∃ p s s1 s2 s3,
    calculateLayout ex_tree2 = Some p ∧
    let v := fitToView 100 400 (Some (getBoundingBox p)) initialView in
    scale v = Fin s ∧ (s == 0)%Q ∧
    scale (zoomIn v) = Fin s1 ∧ (s1 == 0)%Q ∧
    scale (zoomOut v) = Fin s2 ∧ (s2 == 1 # 10)%Q ∧
    scale (handleWheel (-1) v) = Fin s3 ∧ (s3 == 1 # 10)%Q.
Proof.
  eexists _, _, _, _, _. split; [vm_compute; reflexivity|].
  split_and!; vm_compute; reflexivity.
Qed.

(** ** The editor: parse effect and store *)

Lemma parseContent_cases generateId message st :
  (∃ doc tree, currentDocument st = Some doc ∧ d_content doc ≠ [] ∧
     parseTextToTree generateId (d_content doc) = Some tree ∧
     parseContent generateId message st
     = setParseError None (setParsedNodes (Some tree) st)) ∨
  ((∀ doc, currentDocument st = Some doc → d_content doc = []) ∧
   parseContent generateId message st = setParsedNodes None st).
Proof.
  unfold parseContent. destruct (currentDocument st) as [doc|] eqn:Edoc.
  - destruct (decide (d_content doc = [])) as [E|E].
    + right. split; [|done]. by intros doc' [= <-].
    + left. destruct (parse_shape generateId (d_content doc)) as (tree & Ht & _).
      exists doc, tree. by rewrite Ht.
  - right. split; [|done]. by intros doc' [=].
Qed.

(** X16.  The editor's parse effect never takes its [catch] branch,
    because the parser returns a tree for every text.  After the effect
    has run, the error is null or what it was; the preview tree is null
    exactly when there is no document or its content is the empty string,
    and otherwise it is the tree the parser returns for the content, and
    the error is null.  Nothing else in the store changes. *)
Theorem parseContent_never_fails (generateId : nat → str) (message : str)
    (st : MindmapSlice) :
  currentDocument (parseContent generateId message st) = currentDocument st ∧
  savedDocuments (parseContent generateId message st) = savedDocuments st ∧
  hasUnsavedChanges (parseContent generateId message st) = hasUnsavedChanges st ∧
  isEditing (parseContent generateId message st) = isEditing st ∧
  (parseError (parseContent generateId message st) = None ∨
   parseError (parseContent generateId message st) = parseError st) ∧
  (parsedNodes (parseContent generateId message st) = None
   ↔ ∀ doc, currentDocument st = Some doc → d_content doc = []) ∧
  (∀ doc, currentDocument st = Some doc → d_content doc ≠ [] →
     parseError (parseContent generateId message st) = None ∧
     is_Some (parsedNodes (parseContent generateId message st)) ∧
     parsedNodes (parseContent generateId message st)
     = parseTextToTree generateId (d_content doc)).
Proof.
  destruct (parseContent_cases generateId message st)
    as [(doc & tree & Hdoc & Hne & Ht & ->) | [Hempty ->]]; cbn.
  - split_and!; try done.
    + by left.
    + split; [done|]. intros H. by destruct (Hne (H doc Hdoc)).
    + intros doc' Hdoc'. rewrite Hdoc in Hdoc'. injection Hdoc' as <-.
      intros _. rewrite Ht. split_and!; [done | by eexists | done].
  - split_and!; try done.
    + by right.
    + intros doc Hdoc Hne. by destruct (Hne (Hempty doc Hdoc)).
Qed.

(** X17.  Invariants of the store.  From the initial state, whatever
    actions are dispatched and whenever the parse effect runs:
    [isEditing] stays true (no action changes it); unsaved changes are
    only ever flagged while a document is open; and as long as
    [setParseError] is called by the parse effect alone, as in the editor,
    [parseError] stays null. *)
Theorem store_invariants (loaded loaded' : str) (events : list EditorEvent) :
  isEditing (foldl (editorStep loaded loaded') (initialState loaded loaded') events)
  = true ∧
  (hasUnsavedChanges
     (foldl (editorStep loaded loaded') (initialState loaded loaded') events) = true →
   is_Some (currentDocument
     (foldl (editorStep loaded loaded') (initialState loaded loaded') events))) ∧
  (forallb (λ e, negb (setsParseError e)) events = true →
   parseError (foldl (editorStep loaded loaded') (initialState loaded loaded') events)
   = None).
Proof.
  assert (∀ st e,
            (isEditing st = true ∧
             (hasUnsavedChanges st = true → is_Some (currentDocument st))) →
            isEditing (editorStep loaded loaded' st e) = true ∧
            (hasUnsavedChanges (editorStep loaded loaded' st e) = true →
             is_Some (currentDocument (editorStep loaded loaded' st e)))) as Hstep.
  { intros st e [He Hu]. destruct e as [a | generateId message].
    - destruct a; cbn; try done; unfold updateContent, updateTitle;
        try (destruct (currentDocument st) eqn:E; cbn; [by split | by rewrite E]).
    - cbn [editorStep].
      destruct (parseContent_cases generateId message st)
        as [(doc & tree & Hdoc & Hne & Ht & ->) | [Hempty ->]]; cbn; done. }
  assert (∀ st e, setsParseError e = false → parseError st = None →
            parseError (editorStep loaded loaded' st e) = None) as Herr.
  { intros st e He Hst. destruct e as [a | generateId message].
    - destruct a as [| | | |[msg|]| | | | | | |]; cbn; try done;
        unfold updateContent, updateTitle;
        by destruct (currentDocument st).
    - cbn [editorStep].
      destruct (parseContent_cases generateId message st)
        as [(doc & tree & Hdoc & Hne & Ht & ->) | [Hempty ->]]; cbn; done. }
  assert (∀ st,
            isEditing st = true →
            (hasUnsavedChanges st = true → is_Some (currentDocument st)) →
            isEditing (foldl (editorStep loaded loaded') st events) = true ∧
            (hasUnsavedChanges (foldl (editorStep loaded loaded') st events) = true →
             is_Some (currentDocument (foldl (editorStep loaded loaded') st events))) ∧
            (parseError st = None →
             forallb (λ e, negb (setsParseError e)) events = true →
             parseError (foldl (editorStep loaded loaded') st events) = None))
    as Hall.
  { induction events as [|e events IH]; intros st He Hu; [done|].
    cbn [foldl forallb].
    destruct (Hstep st e (conj He Hu)) as [He' Hu'].
    destruct (IH _ He' Hu') as (H1 & H2 & H3).
    split; [done|]. split; [done|].
    intros Hp [Hs Hrest]%andb_true_iff. apply negb_true_iff in Hs.
    apply H3; [by apply Herr | done]. }
  destruct (Hall (initialState loaded loaded')) as (H1 & H2 & H3); [done | done |].
  split; [done|]. split; [done|]. by apply H3.
Qed.

Lemma setSavedDocuments_same st : setSavedDocuments (savedDocuments st) st = st.
Proof. by destruct st. Qed.

Lemma map_replace_absent (id : Z) (doc : MindmapDocument) (docs : list MindmapDocument) :
  (∀ d, d ∈ docs → d_id d ≠ Some id) →
  map (λ d, if decide (d_id d = Some id) then doc else d) docs = docs.
Proof.
  intros H. induction docs as [|d docs IH]; [done|]. cbn [map].
  rewrite decide_False by (apply H; by left).
  rewrite IH; [done|]. intros d' Hd'. apply H. by right.
Qed.

Lemma filter_keep_absent (id : Z) (docs : list MindmapDocument) :
  (∀ d, d ∈ docs → d_id d ≠ Some id) →
  filter (λ d, d_id d ≠ Some id) docs = docs.
Proof.
  intros H. induction docs as [|d docs IH]; [done|].
  rewrite filter_cons, decide_True by (apply H; by left).
  rewrite IH; [done|]. intros d' Hd'. apply H. by right.
Qed.

(** X18.  The list of saved documents.  [removeSavedDocument(id)] keeps
    exactly the documents whose id is not [id] (documents without an id
    included), in order.  [updateSavedDocument(id, doc)] never changes the
    number of documents.  When no saved document has the id, both leave
    the store as it is, without an error.  When [doc] carries the id it is
    filed under, an update leaves the ids of the list as they were and
    every document with that id is then [doc]; and if the id was not yet
    in the list, adding [doc] and then removing the id gives back the
    store as it was, while adding [doc] and then updating the id to [doc']
    gives the list with [doc'] at its end. *)
Theorem savedDocuments_operations (id : Z) (doc doc' : MindmapDocument)
    (st : MindmapSlice) :
  (∀ d, d ∈ savedDocuments (removeSavedDocument id st)
        ↔ d ∈ savedDocuments st ∧ d_id d ≠ Some id) ∧
  savedDocuments (removeSavedDocument id st) `sublist_of` savedDocuments st ∧
  length (savedDocuments (updateSavedDocument id doc st))
  = length (savedDocuments st) ∧
  ((∀ d, d ∈ savedDocuments st → d_id d ≠ Some id) →
     updateSavedDocument id doc st = st ∧ removeSavedDocument id st = st) ∧
  (d_id doc = Some id →
     map d_id (savedDocuments (updateSavedDocument id doc st))
     = map d_id (savedDocuments st) ∧
     (∀ d, d ∈ savedDocuments (updateSavedDocument id doc st) →
           d_id d = Some id → d = doc) ∧
     ((∀ d, d ∈ savedDocuments st → d_id d ≠ Some id) →
        removeSavedDocument id (addSavedDocument doc st) = st ∧
        savedDocuments (updateSavedDocument id doc' (addSavedDocument doc st))
        = savedDocuments st ++ [doc'])).
Proof.
  split_and!.
  - intros d. unfold removeSavedDocument. cbn [savedDocuments setSavedDocuments].
    rewrite list_elem_of_filter. tauto.
  - unfold removeSavedDocument. cbn [savedDocuments setSavedDocuments].
    apply sublist_filter.
  - unfold updateSavedDocument. cbn [savedDocuments setSavedDocuments].
    apply length_map.
  - intros Habsent. unfold updateSavedDocument, removeSavedDocument.
    rewrite map_replace_absent, filter_keep_absent by done.
    by rewrite setSavedDocuments_same.
  - intros Hid. unfold updateSavedDocument, removeSavedDocument, addSavedDocument.
    cbn [savedDocuments setSavedDocuments]. split_and!.
    + rewrite map_map. apply map_ext. intros d.
      destruct (decide (d_id d = Some id)) as [E|E]; [by rewrite E, Hid | done].
    + intros d Hd Hdid. apply list_elem_of_fmap in Hd as (d0 & -> & _).
      destruct (decide (d_id d0 = Some id)); done.
    + intros Habsent. split.
      * rewrite filter_app, filter_keep_absent by done.
        rewrite filter_cons, decide_False by (intros H; by apply H).
        rewrite filter_nil, app_nil_r. by destruct st.
      * rewrite map_app, map_replace_absent by done. cbn [map].
        by rewrite decide_True.
Qed.

(** ** Sharing *)

Example stringify_and_btoa_example :
  btoa (stringifyShare (lit "a") (lit "b"))
  = Some (lit "eyJ0aXRsZSI6ImEiLCJjb250ZW50IjoiYiJ9") ∧
  btoa (stringifyShare [84; 34; 92; 10]%N
                       [82; 111; 111; 116; 10; 32; 32; 65; 9; 233]%N)
  = Some (lit "eyJ0aXRsZSI6IlRcIlxcXG4iLCJjb250ZW50IjoiUm9vdFxuICBBXHTpIn0=").
Proof. split; vm_compute; reflexivity. Qed.

Lemma hexDigit_ascii n : (n < 16 → hexDigit n <= 255)%N.
Proof. unfold hexDigit. intros H. destruct (n <? 10)%N; lia. Qed.

Lemma unicodeEscape_latin1 c :
  (c < 65536)%N → Forall (λ u, u <= 255)%N (unicodeEscape c).
Proof.
  intros Hc. unfold unicodeEscape.
  repeat constructor; try lia; apply hexDigit_ascii.
  - apply N.Div0.div_lt_upper_bound. lia.
  - apply N.mod_lt. lia.
  - apply N.mod_lt. lia.
  - apply N.mod_lt. lia.
Qed.

Lemma quoteUnit_latin1 c : (c <= 255)%N → Forall (λ u, u <= 255)%N (quoteUnit c).
Proof.
  intros Hc. unfold quoteUnit.
  repeat (match goal with
          | |- context [if ?b then _ else _] => destruct b
          end; [repeat constructor; lia|]).
  destruct (c <? 32)%N; [apply unicodeEscape_latin1; lia | repeat constructor; lia].
Qed.

Lemma latin1_not_surrogate c :
  (c <= 255)%N → isLeadingSurrogate c = false ∧ isTrailingSurrogate c = false.
Proof.
  intros Hc. unfold isLeadingSurrogate, isTrailingSurrogate.
  split; apply andb_false_intro1; apply N.leb_gt; lia.
Qed.

Lemma quoteJSONChars_latin1 s :
  Forall (λ c, c <= 255)%N s → Forall (λ c, c <= 255)%N (quoteJSONChars s).
Proof.
  induction 1 as [|c s Hc _ IH]; [constructor|].
  cbn [quoteJSONChars]. destruct (latin1_not_surrogate c Hc) as [-> ->].
  apply Forall_app. split; [by apply quoteUnit_latin1 | done].
Qed.

Lemma stringifyShare_latin1 title content :
  Forall (λ c, c <= 255)%N title → Forall (λ c, c <= 255)%N content →
  Forall (λ c, c <= 255)%N (stringifyShare title content).
Proof.
  intros Ht Hc. unfold stringifyShare, quoteJSONString.
  repeat (apply Forall_app; split);
    try (by apply quoteJSONChars_latin1);
    apply Forall_forall; intros c Hin; apply list_elem_of_In in Hin;
    vm_compute in Hin; intuition (subst; lia).
Qed.

Lemma quoteUnit_keeps c : (255 < c)%N → quoteUnit c = [c].
Proof.
  intros Hc. unfold quoteUnit.
  repeat (match goal with
          | |- context [(c =? ?k)%N] =>
              destruct (N.eqb_spec c k) as [E|_]; [lia|]
          end).
  destruct (N.ltb_spec c 32); [lia | done].
Qed.

Lemma quoteJSONChars_keeps c : ∀ n s,
  length s ≤ n → c ∈ s → (255 < c)%N →
  isLeadingSurrogate c = false → isTrailingSurrogate c = false →
  c ∈ quoteJSONChars s.
Proof.
  induction n as [|n IH]; intros s Hlen Hin Hc Hlead Htrail.
  { destruct s; [by apply elem_of_nil in Hin | simpl in Hlen; lia]. }
  destruct s as [|a rest]; [by apply elem_of_nil in Hin|].
  cbn [length] in Hlen. cbn [quoteJSONChars].
  destruct (isLeadingSurrogate a) eqn:Ea.
  - assert (c ∈ rest) as Hrest.
    { apply elem_of_cons in Hin as [-> | H]; [congruence | done]. }
    destruct rest as [|d rest']; [by apply elem_of_nil in Hrest|].
    destruct (isTrailingSurrogate d) eqn:Ed.
    + right. right. apply elem_of_cons in Hrest as [-> | H]; [congruence|].
      apply IH; try done. cbn [length] in Hlen. lia.
    + apply elem_of_app. right. apply IH; try done. lia.
  - destruct (isTrailingSurrogate a) eqn:Ea'.
    + apply elem_of_app. right.
      apply elem_of_cons in Hin as [-> | H]; [congruence|].
      apply IH; try done. lia.
    + apply elem_of_app. apply elem_of_cons in Hin as [-> | H].
      * left. rewrite quoteUnit_keeps by done. by left.
      * right. apply IH; try done. lia.
Qed.

Lemma btoa_rejects s c : c ∈ s → (255 < c)%N → btoa s = None.
Proof.
  intros Hin Hc. unfold btoa.
  destruct (forallb (λ c, c <=? 255)%N s) eqn:E; [|done].
  rewrite forallb_forall in E. apply list_elem_of_In in Hin.
  specialize (E c Hin). apply N.leb_le in E. lia.
Qed.

Lemma base64Char_alphabet n : isBase64Char (base64Char n) = true.
Proof.
  unfold base64Char, isBase64Char.
  destruct (N.ltb_spec n 26).
  { replace (65 <=? 65 + n)%N with true by (symmetry; apply N.leb_le; lia).
    replace (65 + n <=? 90)%N with true by (symmetry; apply N.leb_le; lia). done. }
  destruct (N.ltb_spec n 52).
  { replace (97 <=? 97 + (n - 26))%N with true by (symmetry; apply N.leb_le; lia).
    replace (97 + (n - 26) <=? 122)%N with true by (symmetry; apply N.leb_le; lia).
    cbn. by rewrite orb_true_r. }
  destruct (N.ltb_spec n 62).
  { replace (48 <=? 48 + (n - 52))%N with true by (symmetry; apply N.leb_le; lia).
    replace (48 + (n - 52) <=? 57)%N with true by (symmetry; apply N.leb_le; lia).
    cbn. by rewrite !orb_true_r. }
  destruct (n =? 62)%N; done.
Qed.

Lemma base64_spec : ∀ n bytes,
  length bytes ≤ n →
  Forall (λ c, isBase64Char c = true) (base64 bytes) ∧
  length (base64 bytes) = 4 * ((length bytes + 2) / 3).
Proof.
  induction n as [|n IH]; intros bytes Hlen.
  { destruct bytes; [done | simpl in Hlen; lia]. }
  destruct bytes as [|a [|b [|c rest]]].
  - done.
  - split; [|done]. cbn [base64]. repeat constructor; apply base64Char_alphabet.
  - split; [|done]. cbn [base64]. repeat constructor; apply base64Char_alphabet.
  - cbn [length] in Hlen. destruct (IH rest ltac:(lia)) as [Hall Hl].
    cbn [base64]. split.
    + apply Forall_app. split; [|done].
      repeat constructor; apply base64Char_alphabet.
    + rewrite length_app, Hl. cbn [length].
      replace (S (S (S (length rest))) + 2) with (length rest + 2 + 1 * 3) by lia.
      rewrite Nat.div_add by lia. lia.
Qed.

(** X19.  Sharing works for Latin-1 documents only.  When every code unit
    of the title and of the content is at most 255, [handleShare] sets the
    share URL to the origin, [/mindmap?data=] and the base64 form of the
    JSON text, made of letters, digits, [+], [/] and [=] and four
    characters long for every three of the JSON text.  When the title or
    the content holds a code unit above 255 that is not a surrogate (any
    character of the Basic Multilingual Plane beyond Latin-1, such as a
    Hangul syllable), [JSON.stringify] copies it and [btoa] throws:
    [handleShare] fails with an exception it does not catch.  Without a
    current document it does nothing. *)
Theorem handleShare_latin1_only (origin shareUrl : str) (doc : MindmapDocument) :
  handleShare origin None shareUrl = Some shareUrl ∧
  (Forall (λ c, c <= 255)%N (d_title doc ++ d_content doc) →
   ∃ encoded,
     btoa (stringifyShare (d_title doc) (d_content doc)) = Some encoded ∧
     handleShare origin (Some doc) shareUrl
     = Some (origin ++ lit "/mindmap?data=" ++ encoded) ∧
     Forall (λ c, isBase64Char c = true) encoded ∧
     length encoded
     = 4 * ((length (stringifyShare (d_title doc) (d_content doc)) + 2) / 3)) ∧
  (∀ c, c ∈ d_title doc ++ d_content doc → (255 < c)%N →
        isLeadingSurrogate c = false → isTrailingSurrogate c = false →
        handleShare origin (Some doc) shareUrl = None).
Proof.
  split; [done|]. split.
  - intros [Ht Hc]%Forall_app.
    pose proof (stringifyShare_latin1 _ _ Ht Hc) as Hjson.
    exists (base64 (stringifyShare (d_title doc) (d_content doc))).
    assert (btoa (stringifyShare (d_title doc) (d_content doc))
            = Some (base64 (stringifyShare (d_title doc) (d_content doc)))) as Hb.
    { unfold btoa. rewrite (proj2 (forallb_forall _ _)); [done|].
      intros c Hin%list_elem_of_In. rewrite Forall_forall in Hjson.
      apply N.leb_le. by apply Hjson. }
    split; [done|]. split; [unfold handleShare; by rewrite Hb|].
    by apply (base64_spec _ _ (Nat.le_refl _)).
  - intros c Hin Hc Hlead Htrail. unfold handleShare.
    rewrite (btoa_rejects _ c); [done | | done].
    unfold stringifyShare, quoteJSONString.
    apply elem_of_app in Hin as [Hin | Hin].
    + do 3 (apply elem_of_app; right). apply elem_of_app. left.
      apply elem_of_app. right. apply elem_of_app. left.
      by apply (quoteJSONChars_keeps c _ _ (Nat.le_refl _)).
    + do 7 (apply elem_of_app; right). apply elem_of_app. left.
      apply elem_of_app. right. apply elem_of_app. left.
      by apply (quoteJSONChars_keeps c _ _ (Nat.le_refl _)).
Qed.

(** A title in Hangul: the share button throws. *)
Example share_hangul :
  handleShare (lit "https://example.org")
    (Some (mkDoc None [54620; 44544]%N (lit "Root") [] [])) [] = None.
Proof. vm_compute. reflexivity. Qed.

(** ** Layout: the leaves form a regular column of rows *)

Lemma leafPositions_eq pos :
  leafPositions pos
  = match p_children pos with
    | [] => [pos]
    | _ :: _ => flat_map leafPositions (p_children pos)
    end.
Proof. by destruct pos. Qed.

Lemma filter_flat_map {A B} (P : B → Prop) `{!∀ x, Decision (P x)}
    (f : A → list B) l :
  filter P (flat_map f l) = flat_map (λ a, filter P (f a)) l.
Proof. induction l as [|a l IH]; simpl; [done|]. by rewrite filter_app, IH. Qed.

Lemma flat_map_ext_Forall {A B} (f g : A → list B) l :
  Forall (λ a, f a = g a) l → flat_map f l = flat_map g l.
Proof. induction 1 as [|a l H _ IH]; simpl; [done|]. by rewrite H, IH. Qed.

Lemma leafPositions_filter pos :
  leafPositions pos = filter (λ q, p_children q = []) (flattenPositions pos).
Proof.
  induction pos as [n x y w h cs IH] using pos_ind.
  rewrite leafPositions_eq, flattenPositions_eq, filter_cons. cbn [p_children].
  destruct cs as [|c cs]; [done|].
  rewrite decide_False by done. rewrite filter_flat_map.
  by apply flat_map_ext_Forall.
Qed.

Lemma chain_leaf_rows x cur cs ps cur' :
  Forall (λ c, ∀ x s p, layoutNode c x s = Some p →
     length (leafPositions p) = leafCount c ∧
     ∀ k q, leafPositions p !! k = Some q →
            (p_y q == s + (NODE_HEIGHT + SIBLING_GAP) * Qnat k)%Q) cs →
  chain x cur cs ps cur' →
  length (flat_map leafPositions ps) = list_sum (map leafCount cs) ∧
  ∀ k q, flat_map leafPositions ps !! k = Some q →
         (p_y q == cur + (NODE_HEIGHT + SIBLING_GAP) * Qnat k)%Q.
Proof.
  intros IH Hchain. induction Hchain as [|cur c cs p ps h cur' Hp Hh Hrest IHch].
  - split; [done|]. intros k q Hk. done.
  - apply Forall_cons in IH as [Hc IH]. destruct (IHch IH) as [Hlen Hrows].
    destruct (Hc _ _ _ Hp) as [Hlenc Hrowsc].
    cbn [flat_map map]. split.
    + rewrite length_app, Hlenc, Hlen. done.
    + intros k q Hk. apply lookup_app_Some in Hk as [Hk | [Hge Hk]].
      * by apply Hrowsc.
      * rewrite (Hrows _ _ Hk).
        pose proof (subtree_bottom _ _ _ _ _ Hp Hh) as Hbot.
        rewrite Hlenc in *.
        replace k with (leafCount c + (k - leafCount c)) at 2 by lia.
        rewrite Qnat_add. qlra.
Qed.

Lemma leaf_rows node : ∀ x s p,
  layoutNode node x s = Some p →
  length (leafPositions p) = leafCount node ∧
  ∀ k q, leafPositions p !! k = Some q →
         (p_y q == s + (NODE_HEIGHT + SIBLING_GAP) * Qnat k)%Q.
Proof.
  induction node as [i t cs col IH] using node_ind. intros x s p Hp.
  destruct (layoutNode_inv _ _ _ _ Hp) as (cur' & Hchain & Hy & _).
  cbn [n_children] in Hchain.
  destruct (chain_leaf_rows _ _ _ _ _ IH Hchain) as [Hlen Hrows].
  pose proof (chain_length _ _ _ _ _ Hchain) as Hl.
  rewrite leafPositions_eq. cbn [leafCount n_children].
  destruct (p_children p) as [|c0 ps0] eqn:Eps.
  - destruct cs as [|c cs]; [|done]. split; [done|].
    intros [|k] q Hk; [|done]. injection Hk as <-.
    cbn in Hy. injection Hy as ->.
    assert (Qnat 0 == 0)%Q as H0 by reflexivity. rewrite H0. lra.
  - destruct cs as [|c cs]; [done|]. split; [done | exact Hrows].
Qed.

(** X20.  The leaves of a layout lie on a regular grid of rows: the
    positions without children, taken in the order of [flattenPositions],
    are as many as the tree has leaves, and the [k]-th of them (from 0) has
    [y = (NODE_HEIGHT + SIBLING_GAP) * k = 60 * k]. *)
Theorem leaves_in_rows (root : MindmapNode) :
  ∃ p, calculateLayout root = Some p ∧
       leafPositions p = filter (λ q, p_children q = []) (flattenPositions p) ∧
       length (leafPositions p) = leafCount root ∧
       ∀ k q, leafPositions p !! k = Some q → (p_y q == 60 * Qnat k)%Q.
Proof.
  destruct (layoutNode_spans root 0 0) as (p & Hp & _).
  destruct (leaf_rows _ _ _ _ Hp) as [Hlen Hrows].
  exists p. split; [done|]. split; [apply leafPositions_filter|]. split; [done|].
  intros k q Hk. rewrite (Hrows k q Hk). qlra.
Qed.

(** ** Parser: on a well-indented outline, depth is level *)

Lemma frameOutline_close j f : outline j (close f) = frameOutline j f.
Proof. done. Qed.

Lemma stackOutline_adopt top parent rest :
  stackOutline (adopt (close top) parent :: rest)
  = stackOutline (top :: parent :: rest).
Proof.
  cbn [stackOutline length]. rewrite <- (assoc_L (++)). f_equal.
  unfold frameOutline at 1. unfold adopt at 1 2. cbn [f_text f_done].
  rewrite flat_map_app. cbn [flat_map]. rewrite app_nil_r.
  by rewrite frameOutline_close.
Qed.

Lemma popFrames_stackOutline level below : ∀ top,
  stackOutline ((popFrames level top below).1 :: (popFrames level top below).2)
  = stackOutline (top :: below).
Proof.
  induction below as [|parent rest IH]; intros top; [done|].
  cbn [popFrames]. destruct (decide (level ≤ f_level top)); [|done].
  by rewrite IH, stackOutline_adopt.
Qed.

Lemma popFrames_heights base level below : ∀ top,
  heights base (top :: below) → base + 1 ≤ level →
  level ≤ base + length below + 1 →
  heights base ((popFrames level top below).1 :: (popFrames level top below).2) ∧
  base + length ((popFrames level top below).1 :: (popFrames level top below).2)
  = level.
Proof.
  induction below as [|parent rest IH]; intros top Hh Hlo Hhi.
  - cbn in *. split; [done | lia].
  - cbn [popFrames]. destruct Hh as [Htop [Hparent Hrest]]. cbn [length] in *.
    destruct (decide (level ≤ f_level top)) as [Hle|Hgt].
    + apply IH; [by split | done | lia].
    + cbn [fst snd length heights]. split; [done | lia].
Qed.

Lemma pushLine_wellIndented base st line :
  heights base (st.1 :: st.2) → base + 1 ≤ line.2 → line.2 ≤ f_level st.1 + 1 →
  heights base ((pushLine st line).1 :: (pushLine st line).2) ∧
  f_level (pushLine st line).1 = line.2 ∧
  stackOutline ((pushLine st line).1 :: (pushLine st line).2)
  = stackOutline (st.1 :: st.2) ++ [(line.1, line.2 - base)].
Proof.
  destruct st as [top below]. cbn [fst snd]. intros Hh Hlo Hhi.
  assert (line.2 ≤ base + length below + 1) as Hhi'
    by (destruct Hh as [<- _]; lia).
  destruct (popFrames_heights base line.2 below top Hh Hlo Hhi') as [Hh' Hlen].
  pose proof (popFrames_stackOutline line.2 below top) as Hout.
  unfold pushLine. cbn [fst snd].
  destruct (popFrames line.2 top below) as [top' below']. cbn [fst snd] in *.
  split; [split; [cbn [f_level]; lia | done]|]. split; [done|].
  change (stackOutline (top' :: below')
          ++ frameOutline (length (top' :: below'))
               {| f_text := line.1; f_level := line.2; f_done := [] |}
          = stackOutline (top :: below) ++ [(line.1, line.2 - base)]).
  rewrite Hout. replace (length (top' :: below')) with (line.2 - base) by lia.
  done.
Qed.

Lemma feed_wellIndented base lines : ∀ st,
  heights base (st.1 :: st.2) →
  stepsUp base (f_level st.1) (map snd lines) = true →
  stackOutline ((feed st lines).1 :: (feed st lines).2)
  = stackOutline (st.1 :: st.2) ++ map (λ line, (line.1, line.2 - base)) lines.
Proof.
  induction lines as [|line lines IH]; intros st Hh Hsteps.
  - by rewrite app_nil_r.
  - cbn [map stepsUp] in Hsteps.
    apply andb_true_iff in Hsteps as [[Hlo Hhi]%andb_true_iff Hsteps].
    apply Nat.leb_le in Hlo, Hhi.
    destruct (pushLine_wellIndented base st line Hh Hlo Hhi) as (Hh' & Hl & Hout).
    unfold feed in *. cbn [foldl]. rewrite IH; [|done | by rewrite Hl].
    rewrite Hout. by rewrite <- (assoc_L (++)).
Qed.

Lemma finish_stackOutline st :
  outline 0 (finish st) = stackOutline (st.1 :: st.2).
Proof.
  destruct st as [top below]. unfold finish. cbn [fst snd].
  rewrite <- (popFrames_stackOutline 0 below top).
  pose proof (popFrames_zero top below) as H.
  destruct (popFrames 0 top below) as [f below']. simpl in H. subst below'.
  by rewrite frameOutline_close.
Qed.

Lemma buildShape_wellIndented base first rest :
  stepsUp base base (map pl_level rest) = true →
  outline 0 (buildShape (first :: rest))
  = (pl_text first, 0) :: map (outlineFrom base) rest.
Proof.
  intros Hsteps.
  rewrite (buildShape_first_level first (mkLine (pl_text first) base 0)) by done.
  unfold buildShape. rewrite finish_stackOutline, (feed_wellIndented base).
  - cbn [fst snd stackOutline frameOutline length app f_text f_done flat_map pl_text].
    f_equal. change (outlineOf <$> rest) with (map outlineOf rest).
    by rewrite map_map.
  - cbn. split; [lia | done].
  - cbn [fst f_level pl_level].
    change (outlineOf <$> rest) with (map outlineOf rest). by rewrite map_map.
Qed.

Lemma stepsUp_greatest base : ∀ levels prev,
  stepsUp base prev levels = true → levels ≠ [] →
  foldr Nat.max 0 (map (λ l, l - base) levels) + base = foldr Nat.max 0 levels.
Proof.
  induction levels as [|l ls IH]; intros prev Hsteps Hne; [done|].
  cbn [map stepsUp foldr] in *.
  apply andb_true_iff in Hsteps as [[Hlo _]%andb_true_iff Hsteps].
  apply Nat.leb_le in Hlo.
  destruct ls as [|l' ls]; [cbn; lia|].
  specialize (IH l Hsteps ltac:(done)). lia.
Qed.

(** X21.  On a well-indented outline the tree is the outline, with the
    levels counted from the first line.  Let [base] be the level the first
    non-blank line is taken to have: its own level, or any other, since the
    parser never reads it.  When every later line has a level above [base]
    and at most one more than the line before it, the node made from a line
    lies at a depth equal to the level of the line less [base]: the nodes
    of the tree in pre-order, with their depths, are the lines in order,
    with their levels less [base], the root at depth 0.  [treeToText] then
    writes the same lines back, each with two spaces per depth, and
    [getMaxDepth] is the greatest level less [base]. *)
Theorem depth_is_level (generateId : nat → str) (text : str)
    (first : ParsedLine) (rest : list ParsedLine) (base : nat) :
  parseLines text = first :: rest →
  stepsUp base base (map pl_level rest) = true →
  ∃ t, parseTextToTree generateId text = Some t ∧
       map (λ dn, (n_text dn.2, dn.1)) (nodesAtDepth 0 t)
       = (pl_text first, 0) :: map (outlineFrom base) rest ∧
       treeToText t 0
       = join [LF] (map render ((pl_text first, 0) :: map (outlineFrom base) rest)) ∧
       getMaxDepth t 0 = foldr Nat.max 0 (map (λ l, pl_level l - base) rest) ∧
       (rest ≠ [] → getMaxDepth t 0 + base = foldr Nat.max 0 (map pl_level rest)).
Proof.
  intros Hlines Hsteps.
  destruct (parse_shape generateId text) as (t & Ht & Hshape).
  exists t. split; [done|].
  pose proof (buildShape_wellIndented base first rest Hsteps) as Hout.
  rewrite <- Hlines, <- Hshape in Hout.
  split; [by rewrite <- outline_nodes|].
  split; [by rewrite treeToText_outline, Hout|].
  rewrite outline_nodes in Hout.
  assert (map fst (nodesAtDepth 0 t) = 0 :: map (λ l, pl_level l - base) rest) as Hlv.
  { apply (f_equal (map snd)) in Hout. rewrite map_map in Hout.
    cbn [map snd] in Hout. rewrite map_map in Hout. exact Hout. }
  clear Hout. rename Hlv into Hout.
  assert (getMaxDepth t 0 = foldr Nat.max 0 (map (λ l, pl_level l - base) rest))
    as Hmax.
  { destruct (getMaxDepth_greatest t 0) as [Hle [n Hn]].
    apply Nat.le_antisymm.
    - apply (list_elem_of_fmap_2 fst) in Hn. cbn [fst] in Hn.
      change ((nodesAtDepth 0 t).*1) with (map fst (nodesAtDepth 0 t)) in Hn.
      rewrite Hout in Hn. apply elem_of_cons in Hn as [-> | Hn]; [lia|].
      clear -Hn.
      induction (map (λ l, pl_level l - base) rest) as [|a l IH];
        [by apply elem_of_nil in Hn|].
      cbn [foldr]. apply elem_of_cons in Hn as [<- | Hn]; [lia|].
      specialize (IH Hn). lia.
    - apply foldr_max_le. intros a Ha.
      assert (a ∈ map fst (nodesAtDepth 0 t)) as Hin by (rewrite Hout; by right).
      apply list_elem_of_fmap in Hin as ([d n'] & -> & Hin).
      by destruct (Hle _ _ Hin). }
  split; [exact Hmax|].
  intros Hne. rewrite Hmax.
  rewrite <- (stepsUp_greatest base (map pl_level rest) base Hsteps)
    by (by destruct rest).
  by rewrite map_map.
Qed.

Lemma depth_is_level_witness :
  (∃ t, parseTextToTree noIds ex_text = Some t ∧
        map (λ dn, (n_text dn.2, dn.1)) (nodesAtDepth 0 t)
        = (pl_text ex_first, 0) :: map (outlineFrom 0) ex_rest ∧
        treeToText t 0
        = join [LF] (map render ((pl_text ex_first, 0)
                                 :: map (outlineFrom 0) ex_rest)) ∧
        getMaxDepth t 0 = foldr Nat.max 0 (map (λ l, pl_level l - 0) ex_rest) ∧
        (ex_rest ≠ [] →
         getMaxDepth t 0 + 0 = foldr Nat.max 0 (map pl_level ex_rest))) ∧
  (∃ t, parseTextToTree noIds ex_indented = Some t ∧
        map (λ dn, (n_text dn.2, dn.1)) (nodesAtDepth 0 t)
        = (lit "A", 0) :: map (outlineFrom 2) [mkLine (lit "B") 3 2] ∧
        treeToText t 0
        = join [LF] (map render ((lit "A", 0)
                                 :: map (outlineFrom 2) [mkLine (lit "B") 3 2])) ∧
        getMaxDepth t 0
        = foldr Nat.max 0 (map (λ l, pl_level l - 2) [mkLine (lit "B") 3 2]) ∧
        ([mkLine (lit "B") 3 2] ≠ [] →
         getMaxDepth t 0 + 2
         = foldr Nat.max 0 (map pl_level [mkLine (lit "B") 3 2]))).
Proof.
  split.
  - apply (depth_is_level noIds ex_text ex_first ex_rest 0).
    + vm_compute. reflexivity.
    + vm_compute. reflexivity.
  - apply (depth_is_level noIds ex_indented (mkLine (lit "A") 2 1)
                          [mkLine (lit "B") 3 2] 2).
    + vm_compute. reflexivity.
    + vm_compute. reflexivity.
Defined.

(** The outline indented as a whole: [B], on a line of level 3, is a child
    of the root, at depth 1, and is written back with two spaces. *)
Example indented_outline :
  parseTextToTree noIds ex_indented = Some (mkNode [] (lit "A") [leaf "B"] None) ∧
  (treeToText (mkNode [] (lit "A") [leaf "B"] None) 0
   = lit "A" ++ [LF] ++ lit "  B") ∧
  getMaxDepth (mkNode [] (lit "A") [leaf "B"] None) 0 = 1.
Proof. split_and!; vm_compute; reflexivity. Qed.

(** ** The layout in the arithmetic of the engine *)

Lemma positionIn_ind {N} (P : PositionIn N → Prop) :
  (∀ n x y w h cs, Forall P cs → P (mkPosIn n x y w h cs)) → ∀ g, P g.
Proof.
  intros step. fix IH 1. intros [n x y w h cs]. apply step.
  induction cs as [|c cs IHcs]; constructor; [apply IH | exact IHcs].
Qed.

Section EngineFacts.

Context {N : Type} (A : Arith N).

Lemma getSubtreeHeightIn_eq pos :
  getSubtreeHeightIn A pos
  = match last (g_children pos) with
    | None => Some (g_height pos)
    | Some lastChild =>
        h ← getSubtreeHeightIn A lastChild;
        Some (a_sub A (a_add A (g_y lastChild) h) (g_y pos))
    end.
Proof.
  destruct pos as [n x y w h cs]. destruct cs as [|c cs]; [done|].
  cbn [getSubtreeHeightIn g_children]. rewrite lastWith_last.
  destruct (last (c :: cs)) eqn:E; [done|]. by apply last_None in E.
Qed.

Lemma getSubtreeHeightIn_total pos : is_Some (getSubtreeHeightIn A pos).
Proof.
  induction pos as [n x y w h cs IH] using positionIn_ind.
  rewrite getSubtreeHeightIn_eq. cbn [g_children g_height g_y].
  destruct (last cs) as [lastChild|] eqn:E; [|by eexists].
  rewrite Forall_forall in IH.
  destruct (IH lastChild) as [hl ->]; [|by eexists].
  apply last_Some in E as [l' ->]. apply elem_of_app. right. by left.
Qed.

Lemma flattenPositionsIn_eq (root : PositionIn N) :
  flattenPositionsIn root
  = root :: flat_map flattenPositionsIn (g_children root).
Proof.
  destruct root as [n x y w h cs]. cbn [flattenPositionsIn g_children].
  generalize (mkPosIn n x y w h cs). intros root.
  change (root :: flat_map flattenPositionsIn cs)
    with ([root] ++ flat_map flattenPositionsIn cs).
  generalize [root]. induction cs as [|c cs IH]; intros acc; simpl.
  - by rewrite app_nil_r.
  - rewrite IH. by rewrite <- (assoc_L (++)).
Qed.

Lemma layoutNodeIn_eq node x startY :
  layoutNodeIn A node x startY
  = (r ← layoutChildrenIn A (λ child, layoutNodeIn A child (a_add A x (a_ofNat A 150)))
                          (n_children node) [] startY;
     y ← centreYIn A r.1 startY (a_ofNat A 40);
     Some (mkPosIn node x y (nodeWidthIn A node) (a_ofNat A 40) r.1)).
Proof. by destruct node. Qed.

Lemma layoutChildrenIn_laid lay cs : ∀ acc cur r,
  layoutChildrenIn A lay cs acc cur = Some r →
  ∃ ps, r.1 = acc ++ ps ∧ Forall2 (λ c p, ∃ s, lay c s = Some p) cs ps.
Proof.
  induction cs as [|c cs IH]; intros acc cur r.
  - intros [= <-]. exists []. split; [by rewrite app_nil_r | constructor].
  - cbn [layoutChildrenIn].
    destruct (lay c cur) as [p|] eqn:Hp; [|done]. cbn [mbind option_bind].
    destruct (getSubtreeHeightIn A p) as [h|]; [|done].
    cbn [mbind option_bind]. intros (ps & Hr & Hall)%IH.
    exists (p :: ps). split; [by rewrite Hr, <- (assoc_L (++))|].
    constructor; [by exists cur | done].
Qed.

Lemma layoutChildrenIn_total lay cs :
  Forall (λ c, ∀ s, is_Some (lay c s)) cs →
  ∀ acc cur, is_Some (layoutChildrenIn A lay cs acc cur).
Proof.
  induction 1 as [|c cs Hc _ IH]; intros acc cur; [by eexists|].
  cbn [layoutChildrenIn]. destruct (Hc cur) as [p ->]. cbn [mbind option_bind].
  destruct (getSubtreeHeightIn_total p) as [h ->]. cbn [mbind option_bind].
  apply IH.
Qed.

(** The centring step reads the first child, the last child and the
    subtree height of the last child, and nothing else. *)
Lemma centreYIn_eq ps startY height :
  centreYIn A ps startY height
  = match head ps, last ps with
    | Some firstChild, Some lastChild =>
        h ← getSubtreeHeightIn A lastChild;
        Some (a_sub A (a_div A (a_add A (g_y firstChild) (a_add A (g_y lastChild) h))
                                (a_ofNat A 2))
                      (a_div A height (a_ofNat A 2)))
    | _, _ => Some startY
    end.
Proof.
  unfold centreYIn. destruct ps as [|p ps]; [done|].
  rewrite decide_True by (simpl; lia).
  rewrite <- head_lookup.
  replace (length (p :: ps) - 1) with (pred (length (p :: ps))) by (simpl; lia).
  rewrite <- last_lookup. cbn [head mbind option_bind].
  destruct (last (p :: ps)) as [lastChild|] eqn:E; [done|].
  by apply last_None in E.
Qed.

Lemma layoutNodeIn_inv node x startY pos :
  layoutNodeIn A node x startY = Some pos →
  Forall2 (λ c p, ∃ s, layoutNodeIn A c (a_add A x (a_ofNat A 150)) s = Some p)
          (n_children node) (g_children pos) ∧
  centreYIn A (g_children pos) startY (a_ofNat A 40) = Some (g_y pos) ∧
  g_node pos = node ∧ g_x pos = x ∧
  g_width pos = nodeWidthIn A node ∧ g_height pos = a_ofNat A 40.
Proof.
  rewrite layoutNodeIn_eq.
  destruct (layoutChildrenIn _ _ _ _ _) as [r|] eqn:Hr; [|done].
  cbn [mbind option_bind].
  destruct (centreYIn _ _ _ _) as [y|] eqn:Hy; [|done].
  cbn [mbind option_bind]. intros [= <-]. simpl.
  apply layoutChildrenIn_laid in Hr as (ps & Hps & Hall).
  simpl in Hps. by rewrite Hps in *.
Qed.

Lemma layoutNodeIn_total node : ∀ x s, is_Some (layoutNodeIn A node x s).
Proof.
  induction node as [i t cs col IH] using node_ind. intros x s.
  rewrite layoutNodeIn_eq. cbn [n_children].
  destruct (layoutChildrenIn_total
              (λ child, layoutNodeIn A child (a_add A x (a_ofNat A 150))) cs) with
    (acc := @nil (PositionIn N)) (cur := s) as [r ->].
  { eapply Forall_impl; [exact IH|]. intros c Hc s'. apply Hc. }
  cbn [mbind option_bind]. rewrite centreYIn_eq.
  destruct (head r.1) as [f|]; [|by eexists].
  destruct (last r.1) as [l|]; [|by eexists].
  destruct (getSubtreeHeightIn_total l) as [h ->]. by eexists.
Qed.

Lemma flatten_laidIn pos : ∀ node x s,
  layoutNodeIn A node x s = Some pos →
  ∀ q, q ∈ flattenPositionsIn pos →
       ∃ n' x' s', layoutNodeIn A n' x' s' = Some q.
Proof.
  induction pos as [n0 x0 y0 w0 h0 cs IH] using positionIn_ind.
  intros node x s Hpos q.
  rewrite flattenPositionsIn_eq.
  intros [->|Hq]%elem_of_cons; [by exists node, x, s|].
  apply elem_of_flat_map in Hq as (c & Hq & Hc).
  destruct (layoutNodeIn_inv _ _ _ _ Hpos) as (Hall & _).
  cbn [g_children] in Hall.
  assert (∃ nc sc, layoutNodeIn A nc (a_add A x (a_ofNat A 150)) sc = Some c)
    as (nc & sc & Hlaid).
  { clear -Hall Hc. induction Hall as [|c' p cs' ps (s' & Hs') _ IHall].
    - by apply elem_of_nil in Hc.
    - apply elem_of_cons in Hc as [-> | Hc]; [by exists c', s' | by apply IHall]. }
  rewrite Forall_forall in IH. by apply (IH c Hc nc _ sc Hlaid).
Qed.

End EngineFacts.

(** The exact instance is the layout of the first part. *)
Lemma toPosition_y g : p_y (toPosition g) = g_y g.
Proof. by destruct g. Qed.

Lemma toPosition_height g : p_height (toPosition g) = g_height g.
Proof. by destruct g. Qed.

Lemma toPosition_children g :
  p_children (toPosition g) = map toPosition (g_children g).
Proof. by destruct g. Qed.

Lemma getSubtreeHeightIn_exact g :
  getSubtreeHeightIn exact g = getSubtreeHeight (toPosition g).
Proof.
  induction g as [n x y w h cs IH] using positionIn_ind.
  rewrite getSubtreeHeightIn_eq, getSubtreeHeight_eq.
  cbn [toPosition g_children g_height g_y p_children p_height p_y].
  change (last (map toPosition cs)) with (last (toPosition <$> cs)).
  rewrite fmap_last.
  destruct (last cs) as [lastChild|] eqn:E; [|done].
  cbn [fmap option_fmap option_map].
  rewrite Forall_forall in IH. rewrite <- IH.
  - rewrite toPosition_y. by destruct (getSubtreeHeightIn exact lastChild).
  - apply last_Some in E as [l' ->]. apply elem_of_app. right. by left.
Qed.

Lemma layoutChildrenIn_exact layIn lay cs :
  Forall (λ c, ∀ s, toPosition <$> layIn c s = lay c s) cs →
  ∀ acc cur,
    (λ r, (map toPosition r.1, r.2)) <$> layoutChildrenIn exact layIn cs acc cur
    = layoutChildren lay cs (map toPosition acc) cur.
Proof.
  induction 1 as [|c cs Hc _ IH]; intros acc cur; [done|].
  cbn [layoutChildrenIn layoutChildren]. rewrite <- Hc.
  destruct (layIn c cur) as [p|]; [|done].
  cbn [fmap option_fmap option_map mbind option_bind].
  rewrite <- getSubtreeHeightIn_exact.
  destruct (getSubtreeHeightIn exact p) as [h|]; [|done].
  cbn [mbind option_bind]. rewrite toPosition_y, IH, map_app. done.
Qed.

Lemma centreYIn_exact ps startY :
  centreYIn exact ps startY (a_ofNat exact 40)
  = centreY (map toPosition ps) startY NODE_HEIGHT.
Proof.
  unfold centreYIn, centreY. rewrite length_map.
  destruct (decide (0 < length ps)); [|done].
  change (map toPosition ps) with (toPosition <$> ps).
  rewrite !list_lookup_fmap.
  destruct (ps !! 0) as [f|]; [|done]. cbn [fmap option_fmap option_map mbind option_bind].
  destruct (ps !! (length ps - 1)) as [lastChild|]; [|done].
  cbn [fmap option_fmap option_map mbind option_bind].
  rewrite <- getSubtreeHeightIn_exact, !toPosition_y.
  by destruct (getSubtreeHeightIn exact lastChild).
Qed.

Lemma layoutNodeIn_exact node : ∀ x s,
  toPosition <$> layoutNodeIn exact node x s = layoutNode node x s.
Proof.
  induction node as [i t cs col IH] using node_ind. intros x s.
  rewrite layoutNodeIn_eq, layoutNode_eq. cbn [n_children].
  pose proof (layoutChildrenIn_exact
                (λ child, layoutNodeIn exact child (a_add exact x (a_ofNat exact 150)))
                (λ child, layoutNode child (x + LEVEL_GAP)%Q) cs) as Hloop.
  specialize (Hloop ltac:(eapply Forall_impl; [exact IH|]; intros c Hc s'; apply Hc)
                    [] s).
  cbn [map] in Hloop. rewrite <- Hloop.
  destruct (layoutChildrenIn _ _ _ _ _) as [r|]; [|done].
  cbn [fmap option_fmap option_map mbind option_bind fst].
  rewrite <- centreYIn_exact.
  destruct (centreYIn exact r.1 s (a_ofNat exact 40)) as [y|]; [|done].
  done.
Qed.

(** ** Layout: the gap between sibling subtrees *)

Lemma foldr_Qmax_greatest a l :
  foldr Qmax a l ∈ a :: l ∧ ∀ z, z ∈ a :: l → (z <= foldr Qmax a l)%Q.
Proof.
  induction l as [|b l [IHin IHle]]; cbn [foldr].
  - split; [by left|]. intros z ->%list_elem_of_singleton. apply Qle_refl.
  - split.
    + destruct (Qmax_cases b (foldr Qmax a l)) as [-> | ->].
      * right. by left.
      * apply elem_of_cons in IHin as [-> | Hin]; [by left | by do 2 right].
    + intros z Hz.
      assert (z = b ∨ z ∈ a :: l) as [-> | Hz']
        by (apply elem_of_cons in Hz as [-> | [-> | Hz]%elem_of_cons];
            [right; by left | by left | right; by right]).
      * apply Q.le_max_l.
      * eapply Qle_trans; [by apply IHle | apply Q.le_max_r].
Qed.

Lemma subtreeBottom_greatest p :
  isMaxOf (subtreeBottom p)
          (map (λ q, p_y q + p_height q)%Q (flattenPositions p)).
Proof.
  unfold subtreeBottom, isMaxOf.
  destruct (foldr_Qmax_greatest (p_y p + p_height p)%Q
              (map (λ q, p_y q + p_height q)%Q (flattenPositions p))) as [Hin Hle].
  assert ((p_y p + p_height p)%Q
          ∈ map (λ q, p_y q + p_height q)%Q (flattenPositions p)) as Hroot.
  { rewrite flattenPositions_eq. by left. }
  split.
  - apply elem_of_cons in Hin as [-> | Hin]; done.
  - intros z Hz. apply Hle. by right.
Qed.

(** The bottom edge of a laid-out subtree is where [getSubtreeHeight]
    puts it: at the root's [y] plus the subtree height. *)
Lemma subtreeBottom_height node x s p h :
  layoutNode node x s = Some p → getSubtreeHeight p = Some h →
  (subtreeBottom p == p_y p + h)%Q.
Proof.
  intros Hp Hh.
  destruct (subtreeBottom_greatest p) as [Hin Hle].
  destruct (layoutNode_spans_of _ _ _ _ Hp) as (h' & Hh' & _ & _ & _ & Hbot).
  rewrite Hh in Hh'. injection Hh' as <-.
  destruct (bottom_attained p h Hh) as (q & Hq & Hqb).
  apply Qle_antisym.
  - apply list_elem_of_fmap in Hin as (r & -> & Hr). by apply Hbot.
  - rewrite <- Hqb. apply Hle. by apply (list_elem_of_fmap_2 (λ q, p_y q + p_height q)%Q).
Qed.




(** ** Layout: centring a parent over its children *)

Lemma last_child_laid node x s q lastChild :
  layoutNode node x s = Some q → last (p_children q) = Some lastChild →
  ∃ c s', layoutNode c (x + LEVEL_GAP)%Q s' = Some lastChild.
Proof.
  intros Hq Hlast.
  destruct (layoutNode_inv _ _ _ _ Hq) as (cur' & Hchain & _).
  apply (chain_laid _ _ _ _ _ lastChild Hchain).
  apply last_Some in Hlast as [l' ->]. apply elem_of_app. right. by left.
Qed.

(** C5.  In every position tree that [calculateLayout] produces, whatever
    the arithmetic and so in the doubles of the engine, each position is
    the result of a call of [layoutNode]; a position with children has [y]
    equal to the midpoint of its first child's [y] and the bottom of its
    last child's subtree, minus half its own height, each operation being
    the engine's own; a position without children has [y] equal to the
    cursor [startY] of the call.  Half the height of a node is 20.  The
    layout of the first part is this one in exact arithmetic, and there the
    last child's [y] plus its subtree height is the bottom edge of the last
    child's subtree: the greatest [y + height] among its positions. *)
Theorem parent_centring :
  (∀ (N : Type) (A : Arith N) (root : MindmapNode),
     ∃ g, calculateLayoutIn A root = Some g ∧
          ∀ q, q ∈ flattenPositionsIn g →
               (∃ node x startY, layoutNodeIn A node x startY = Some q) ∧
               (∀ node x startY,
                  layoutNodeIn A node x startY = Some q →
                  g_children q = [] → g_y q = startY) ∧
               (∀ firstChild lastChild,
                  head (g_children q) = Some firstChild →
                  last (g_children q) = Some lastChild →
                  ∃ h, getSubtreeHeightIn A lastChild = Some h ∧
                       g_y q
                       = a_sub A
                           (a_div A (a_add A (g_y firstChild)
                                             (a_add A (g_y lastChild) h))
                                    (a_ofNat A 2))
                           (a_div A (g_height q) (a_ofNat A 2)) ∧
                       g_height q = a_ofNat A 40)) ∧
  (a_div doubles (a_ofNat doubles 40) (a_ofNat doubles 2) = a_ofNat doubles 20 ∧
   (a_div exact (a_ofNat exact 40) (a_ofNat exact 2) == 20)%Q) ∧
  (∀ root, toPosition <$> calculateLayoutIn exact root = calculateLayout root) ∧
  (∀ g, getSubtreeHeightIn exact g = getSubtreeHeight (toPosition g)) ∧
  (∀ root p q lastChild,
     calculateLayout root = Some p → q ∈ flattenPositions p →
     last (p_children q) = Some lastChild →
     ∃ h, getSubtreeHeight lastChild = Some h ∧
          (subtreeBottom lastChild == p_y lastChild + h)%Q ∧
          isMaxOf (subtreeBottom lastChild)
                  (map (λ r, p_y r + p_height r)%Q (flattenPositions lastChild))).
Proof.
  split_and!.
  - intros N A root.
    destruct (layoutNodeIn_total A root (a_ofNat A 0) (a_ofNat A 0)) as [g Hg].
    exists g. split; [exact Hg|]. intros q Hq.
    destruct (flatten_laidIn A g _ _ _ Hg q Hq) as (n & x & s & Hlaid).
    split; [by exists n, x, s|]. split.
    + intros n' x' s' Hlaid' Hleaf.
      destruct (layoutNodeIn_inv A _ _ _ _ Hlaid') as (_ & Hy & _).
      rewrite Hleaf in Hy. by injection Hy.
    + intros firstChild lastChild Hfirst Hlast.
      destruct (layoutNodeIn_inv A _ _ _ _ Hlaid) as (_ & Hy & _ & _ & _ & Hh).
      rewrite centreYIn_eq, Hfirst, Hlast in Hy.
      destruct (getSubtreeHeightIn A lastChild) as [h|]; [|done].
      cbn [mbind option_bind] in Hy. injection Hy as Hy.
      exists h. by rewrite Hh, <- Hy.
  - vm_compute. reflexivity.
  - vm_compute. reflexivity.
  - intros root. apply layoutNodeIn_exact.
  - apply getSubtreeHeightIn_exact.
  - intros root p q lastChild Hp Hq Hlast.
    destruct (flatten_laid _ _ _ _ Hp q Hq) as (n & x & s & Hlaid).
    destruct (last_child_laid _ _ _ _ _ Hlaid Hlast) as (c & s' & Hc).
    destruct (layoutNode_spans_of _ _ _ _ Hc) as (h & Hh & _).
    exists h. split; [done|]. split.
    + by apply (subtreeBottom_height c (x + LEVEL_GAP)%Q s').
    + apply subtreeBottom_greatest.
Qed.

(** The second example in the doubles of the engine: the same coordinates
    as in exact arithmetic, [B] at [y = (60 + (120 + 40)) / 2 - 20 = 90]. *)
Example layout_example2_doubles :
  coordinates <$> calculateLayoutIn doubles ex_tree2
  = Some [(Some 0, Some 60); (Some 150, Some 0); (Some 150, Some 90);
          (Some 300, Some 60); (Some 300, Some 120)]%Q ∧
  map (λ q, (Some (Qred (p_x q)), Some (Qred (p_y q)))) (flattenPositions ex_R)
  = [(Some 0, Some 60); (Some 150, Some 0); (Some 150, Some 90);
     (Some 300, Some 60); (Some 300, Some 120)]%Q.
Proof. split; vm_compute; reflexivity. Qed.

(** In exact arithmetic the root of [nest n two_leaves], laid out with
    cursor [s], lies at [s + 60 - 30 / 2 ^ n], and the bottom of its subtree
    at [s + 100]. *)
Lemma nest_layout (n : nat) : ∀ x s,
  ∃ p h, layoutNode (nest n two_leaves) x s = Some p ∧
         getSubtreeHeight p = Some h ∧
         (p_y p == s + 60 - 30 / inject_Z (2 ^ Z.of_nat n))%Q ∧
         (p_y p + h == s + 100)%Q.
Proof.
  induction n as [|n IH]; intros x s.
  - eexists _, _. split; [reflexivity|]. split; [reflexivity|].
    cbn [p_y p_height fst snd]. unfold NODE_HEIGHT, SIBLING_GAP.
    change (inject_Z (2 ^ Z.of_nat 0)) with 1%Q. split; field.
  - destruct (IH (x + LEVEL_GAP)%Q s) as (p & h & Hp & Hh & Hy & Hb).
    cbn [nest]. rewrite layoutNode_eq. cbn [n_children layoutChildren].
    rewrite Hp. cbn [mbind option_bind]. rewrite Hh.
    cbn [mbind option_bind app fst].
    unfold centreY. cbn [length]. rewrite decide_True by lia.
    cbn [lookup list_lookup Nat.sub mbind option_bind]. rewrite Hh.
    cbn [mbind option_bind].
    eexists _, _. split; [reflexivity|].
    rewrite getSubtreeHeight_eq. cbn [p_children last]. rewrite Hh.
    cbn [mbind option_bind]. split; [reflexivity|]. cbn [p_y].
    assert (inject_Z (2 ^ Z.of_nat (S n)) == 2 * inject_Z (2 ^ Z.of_nat n))%Q as Hpow.
    { rewrite Nat2Z.inj_succ, Z.pow_succ_r by lia. by rewrite inject_Z_mult. }
    assert (0 < inject_Z (2 ^ Z.of_nat n))%Q as Hpos.
    { change 0%Q with (inject_Z 0). rewrite <- Zlt_Qlt. lia. }
    assert (30 / (2 * inject_Z (2 ^ Z.of_nat n))
            == 30 / inject_Z (2 ^ Z.of_nat n) / 2)%Q as Hhalf by (field; lra).
    rewrite Hpow, Hhalf. unfold NODE_HEIGHT.
    clear IH. generalize dependent (30 / inject_Z (2 ^ Z.of_nat n))%Q.
    intros e Hy _. split; qlra.
Qed.

(** The doubles of the engine give that [y] exactly up to 47 levels of
    nesting; from 48 levels on [30 / 2 ^ n] falls below the last bit of a
    double near 60, and the engine's [y] is the rounded one. *)
Example doubles_exact_up_to_47_levels :
  rootY 0 = Some (Qred (60 - 30 / inject_Z (2 ^ 0))) ∧
  rootY 1 = Some (Qred (60 - 30 / inject_Z (2 ^ 1))) ∧
  rootY 10 = Some (Qred (60 - 30 / inject_Z (2 ^ 10))) ∧
  rootY 47 = Some (Qred (60 - 30 / inject_Z (2 ^ 47))) ∧
  rootY 48 = Some (Qred (60 - 32 / inject_Z (2 ^ 48))) ∧
  rootY 53 = Some 60%Q.
Proof. split_and!; vm_compute; reflexivity. Qed.

(** Also where the engine rounds, the bottom it centres a parent on is the
    greatest [y + height] of the last child's subtree. *)
Example doubles_centre_on_bottoms :
  centredOnBottoms <$> calculateLayoutIn doubles ex_tree2 = Some true ∧
  centredOnBottoms <$> calculateLayoutIn doubles (nest 48 two_leaves) = Some true ∧
  centredOnBottoms <$> calculateLayoutIn doubles (nest 53 two_leaves) = Some true ∧
  centredOnBottoms <$> calculateLayoutIn doubles (nest 60 two_leaves) = Some true.
Proof. split_and!; vm_compute; reflexivity. Qed.

(** A chain [R - C] where [C] has the two children [a] and [b]: [C] is at
    30, between [a] at 0 and [b] at 60, and [R] is at 45, below its only
    child. *)
Example single_child_offset :
  ∃ p c, calculateLayout
           (mkNode [] (lit "R") [mkNode [] (lit "C") [leaf "a"; leaf "b"] None] None)
         = Some p ∧
         p_children p = [c] ∧ (p_y c == 30)%Q ∧ (p_y p == 45)%Q.
Proof. eexists _, _. split_and!; vm_compute; reflexivity. Qed.
